(** * dual_phase_serial: the hex codec and the two-phase frame acquisition

    A shallow embedding of [dual_phase_serial.py] and of the builtins it
    calls, followed by the properties established about it.

    Modelling conventions.
    - A Python [str] is a [string]; each [ascii] stands for the code point
      of the same number, so the texts covered are those of code points
      below 256.
    - [bytes] is [list byte].
    - Python integers are [Z]; the counters printed by the two phases are
      rendered by [str_of_int], as they stay far below the number of
      digits at which [str] raises.
    - Clock readings and the listening budget are integers: a number of
      ticks of some fixed resolution.  The program only adds, compares
      and forwards them.  The settling delay, which goes to [time.sleep],
      is a [pyfloat]: a finite number of ticks, an infinity or
      not-a-number.
    - Reading the clock and printing do not fail. *)

From Stdlib Require Import ZArith NArith Lia List Bool.
From Stdlib Require Import Strings.Ascii Strings.String Strings.Byte.
From Stdlib Require Import DecimalString.
Import ListNotations.

Local Open Scope string_scope.
Local Open Scope Z_scope.

(* ================================================================== *)
(** ** Builtins of the interpreter used by the hex codec *)
(* ================================================================== *)

Module Py.

(** A call that may raise [ValueError(msg)]. *)
Inductive result (A : Type) : Type :=
| Ok (a : A)
| ValueError (msg : string).
Arguments Ok {A} a.
Arguments ValueError {A} msg.

Definition code (c : ascii) : N := N_of_ascii c.

Definition in_range (lo hi n : N) : bool := ((lo <=? n) && (n <=? hi))%N.

(** [str.isspace] on one character, for code points below 256: the ASCII
    controls 9..13 and 28..31, the space, NEL (133) and NBSP (160). *)
Definition isspace (c : ascii) : bool :=
  let n := code c in
  in_range 9 13 n || in_range 28 32 n || (n =? 133)%N || (n =? 160)%N.

(** [s.replace(old, new)] where [old] and [new] are one character each. *)
Fixpoint replace (old new : ascii) (s : string) : string :=
  match s with
  | EmptyString => EmptyString
  | String c s' =>
      String (if Ascii.eqb c old then new else c) (replace old new s')
  end.

Definition is_empty (s : string) : bool :=
  match s with EmptyString => true | String _ _ => false end.

Definition push_word (cur : string) (words : list string) : list string :=
  if is_empty cur then words else cur :: words.

(** One pass from the right: the word that starts at the head of [s]
    (empty when [s] starts with a separator) and the words after it. *)
Fixpoint split_from (s : string) : string * list string :=
  match s with
  | EmptyString => (EmptyString, [])
  | String c s' =>
      let (cur, words) := split_from s' in
      if isspace c then (EmptyString, push_word cur words)
      else (String c cur, words)
  end.

(** [s.split()]: the maximal runs of characters that are not whitespace. *)
Definition split (s : string) : list string :=
  let (cur, words) := split_from s in push_word cur words.

(** [_PyLong_DigitValue]: 0..9, then letters of either case as 10..35,
    and 37 for every other character. *)
Definition digit_value (c : ascii) : N :=
  let n := code c in
  if in_range 48 57 n then (n - 48)%N
  else if in_range 97 122 n then (n - 87)%N
  else if in_range 65 90 n then (n - 55)%N
  else 37%N.

(** Whitespace as [int] sees it: the text is first mapped to ASCII, where
    NEL and NBSP become spaces, and [Py_ISSPACE] then accepts 9..13 and the
    space. *)
Definition int_isspace (c : ascii) : bool :=
  let n := code c in
  in_range 9 13 n || (n =? 32)%N || (n =? 133)%N || (n =? 160)%N.

Fixpoint skip_space (s : string) : string :=
  match s with
  | String c s' => if int_isspace c then skip_space s' else s
  | EmptyString => EmptyString
  end.

Definition is_char (c : ascii) (n1 n2 : N) : bool :=
  (code c =? n1)%N || (code c =? n2)%N.

Definition underscore : N := 95.

(** The base chosen for base 0, and whether the literal must be zero
    (a leading 0 that opens no prefix). *)
Definition detect_base (s : string) : N * bool :=
  match s with
  | String c0 rest =>
      if (code c0 =? 48)%N then
        match rest with
        | String c1 _ =>
            if is_char c1 120 88 then (16%N, false)
            else if is_char c1 111 79 then (8%N, false)
            else if is_char c1 98 66 then (2%N, false)
            else (10%N, true)
        | EmptyString => (10%N, true)
        end
      else (10%N, false)
  | EmptyString => (10%N, false)
  end.

(** Skips [0x], [0o] or [0b] and the one underscore allowed after it. *)
Definition skip_prefix (base : N) (s : string) : string :=
  match s with
  | String c0 (String c1 rest) =>
      if (code c0 =? 48)%N &&
         (((base =? 16)%N && is_char c1 120 88) ||
          ((base =? 8)%N && is_char c1 111 79) ||
          ((base =? 2)%N && is_char c1 98 66))
      then match rest with
           | String c2 rest' => if (code c2 =? underscore)%N then rest' else rest
           | EmptyString => rest
           end
      else s
  | _ => s
  end.

(** The run of digits and single underscores at the head of [s]: its
    value, the number of digits and what follows; [None] when two
    underscores meet or one ends the run. *)
Fixpoint scan_digits (base : N) (s : string) (prev_us : bool)
         (acc : N) (digits : N) : option (N * N * string) :=
  match s with
  | String c s' =>
      if (code c =? underscore)%N then
        if prev_us then None else scan_digits base s' true acc digits
      else if (digit_value c <? base)%N then
        scan_digits base s' false (acc * base + digit_value c)%N (digits + 1)%N
      else if prev_us then None else Some (acc, digits, s)
  | EmptyString => if prev_us then None else Some (acc, digits, EmptyString)
  end.

(** Default of [sys.get_int_max_str_digits()]; it limits the bases that
    are not powers of two. *)
Definition int_max_str_digits : N := 4300.

Definition starts_with_underscore (s : string) : bool :=
  match s with
  | String c _ => (code c =? underscore)%N
  | EmptyString => false
  end.

(** [int(s, 0)]; [None] stands for the [ValueError] it raises. *)
Definition int_base0 (s : string) : option Z :=
  let s1 := skip_space s in
  let '(negative, s2) :=
    match s1 with
    | String c r =>
        if (code c =? 43)%N then (false, r)
        else if (code c =? 45)%N then (true, r)
        else (false, s1)
    | EmptyString => (false, s1)
    end in
  let '(base, error_if_nonzero) := detect_base s2 in
  let s3 := skip_prefix base s2 in
  if starts_with_underscore s3 then None
  else
    match scan_digits base s3 false 0 0 with
    | None => None
    | Some (v, digits, rest) =>
        if (base =? 10)%N && (int_max_str_digits <? digits)%N then None
        else if error_if_nonzero && negb (v =? 0)%N then None
        else if (digits =? 0)%N then None
        else if is_empty (skip_space rest)
             then Some (if negative then - Z.of_N v else Z.of_N v)
             else None
    end.

(** The decimal rendering of an integer. *)
Definition str_of_int (n : Z) : string :=
  NilZero.string_of_int (Z.to_int n).

Definition str_limit_message : string :=
  "Exceeds the limit (4300 digits) for integer string conversion; use sys.set_int_max_str_digits() to increase the limit".

(** [str(n)], which raises [ValueError] for an integer of more digits
    than [int_max_str_digits]. *)
Definition str (n : Z) : result string :=
  if (int_max_str_digits
      <? N.of_nat (String.length (str_of_int (Z.abs n))))%N
  then ValueError str_limit_message
  else Ok (str_of_int n).

Definition hex_digit (d : N) : ascii :=
  if (d <? 10)%N then ascii_of_N (48 + d) else ascii_of_N (55 + d).

(** [f"{b:02X}"] for a byte. *)
Definition format_02X (b : byte) : string :=
  let n := Byte.to_N b in
  String (hex_digit (n / 16)) (String (hex_digit (n mod 16)) EmptyString).

(** [bytes(values)]: every value must lie in [range(256)]. *)
Fixpoint bytes (values : list Z) : result (list byte) :=
  match values with
  | [] => Ok []
  | v :: rest =>
      match (if v <? 0 then None else Byte.of_N (Z.to_N v)) with
      | None => ValueError "bytes must be in range(0, 256)"
      | Some b =>
          match bytes rest with
          | Ok bs => Ok (b :: bs)
          | ValueError msg => ValueError msg
          end
      end
  end.

End Py.

(* ================================================================== *)
(** ** Hex codec *)
(* ================================================================== *)

Import Py.

Definition comma : ascii := ascii_of_N 44.
Definition semicolon : ascii := ascii_of_N 59.
Definition space : ascii := ascii_of_N 32.

(** Renders bytes as [AA, BB, CC]. *)
Definition _format_bytes (data : list byte) : string :=
  String.concat ", " (map format_02X data).

(** The [for token in tokens] loop of [_parse_hex_sequence]; [values] is
    the list built so far. *)
Fixpoint collect_values (tokens : list string) (values : list Z)
  : result (list Z) :=
  match tokens with
  | [] => Ok values
  | token :: rest =>
      match int_base0 token with
      | None => ValueError ("Could not parse '" ++ token ++ "' as a hex byte")
      | Some value =>
          if (0 <=? value) && (value <=? 255)
          then collect_values rest (values ++ [value])
          else
            match str value with
            | Ok shown =>
                ValueError ("Value " ++ shown ++ " from '" ++ token
                            ++ "' is outside byte range")
            | ValueError msg => ValueError msg
            end
      end
  end.

Definition hex_tokens (text : string) : list string :=
  filter (fun part => negb (is_empty part))
         (split (replace semicolon space (replace comma space text))).

Definition _parse_hex_sequence (text : string) : result (list byte) :=
  if is_empty text
  then ValueError "Empty request cannot be converted to bytes"
  else
    match hex_tokens text with
    | [] => ValueError "No hex tokens found in request string"
    | tokens =>
        match collect_values tokens [] with
        | ValueError msg => ValueError msg
        | Ok values => bytes values
        end
    end.

(* ================================================================== *)
(** ** The link, the clock and the frame reader *)
(* ================================================================== *)

(** The exceptions that cross the two phases. *)
Inductive exn : Type :=
| TimeoutError      (* the frame reader saw no complete frame *)
| SleepValueError   (* [time.sleep] called with a negative length or
                       with not-a-number *)
| SleepOverflowError  (* [time.sleep] called with a length that does not
                         fit its timestamp *)
| SerialException.  (* the transport failed *)

(** A [float] of the command line, as the truth test of [_read_frames]
    and [time.sleep] tell floats apart: a finite number of ticks, an
    infinity, or not a number. *)
Inductive pyfloat : Type :=
| Finite (ticks : Z)
| PlusInf
| MinusInf
| NaN.

(** [if x:] on a float: every float but zero is true. *)
Definition truthy (x : pyfloat) : bool :=
  match x with
  | Finite ticks => negb (ticks =? 0)
  | PlusInf | MinusInf | NaN => true
  end.

(** What a call into a collaborator does. *)
Inductive reply (A : Type) : Type :=
| Returns (a : A)
| Raises (e : exn).
Arguments Returns {A} a.
Arguments Raises {A} e.

(** [pdu_reader.ReadConfig], as [main] builds it. *)
Record ReadConfig : Type := {
  baudrate : Z;
  timeout : Z;
  interbyte_timeout : Z;
  crc_mode : string;
  remove_crc : bool
}.

(** The actions the program performs on its surroundings. *)
Inductive event : Type :=
| EvTime                                   (* time.time() *)
| EvReadFrame (r : reply (list byte))      (* _read_one_frame_from_serial *)
| EvWrite (data : list byte)               (* ser.write *)
| EvFlush                                  (* ser.flush *)
| EvSleep (seconds : Z)                    (* time.sleep *)
| EvStdout (line : string)                 (* print *)
| EvStderr (line : string)                 (* print(file=sys.stderr) *)
| EvBanner (port : string) (cfg : ReadConfig)  (* the "Opening ..." line *)
| EvOpen (port : string) (cfg : ReadConfig)    (* serial.Serial(...) *)
| EvClose.                                 (* leaving the with block *)

(** An action with the clock value at which it starts. *)
Abbreviation stamped := (Z * event)%type.

(** The surroundings of one run.  [pdu_reader] and [serial] are not part
    of the program: their answers are taken as given, the n-th call of
    each getting the n-th answer, and [clock k] is the time at which the
    k-th action of the run starts.  [flush_reply n] is what [ser.flush]
    does after [n] writes.  [sleep_fits ticks] tells whether a length
    fits the timestamp of the platform: [time.sleep] raises
    [OverflowError] for one that does not. *)
Record Env : Type := {
  clock : nat -> Z;
  _read_one_frame_from_serial : ReadConfig -> nat -> reply (list byte);
  write_reply : nat -> reply unit;
  flush_reply : nat -> reply unit;
  open_reply : reply unit;
  sleep_fits : Z -> bool
}.

(** How far the run has come: actions, frame reader calls, writes. *)
Record World : Type := {
  step : nat;
  reads : nat;
  writes : nat
}.

Inductive outcome (A : Type) : Type :=
| Done (a : A)
| Raised (e : exn)
| OutOfFuel.
Arguments Done {A} a.
Arguments Raised {A} e.
Arguments OutOfFuel {A}.

Record run (A : Type) : Type := {
  outcome_of : outcome A;
  world_of : World;
  log_of : list stamped
}.
Arguments outcome_of {A} r.
Arguments world_of {A} r.
Arguments log_of {A} r.

(** Computations: state passing with exceptions and a log of actions. *)
Definition M (A : Type) : Type := World -> run A.

Definition ret {A} (a : A) : M A :=
  fun w => {| outcome_of := Done a; world_of := w; log_of := [] |}.

Definition raise {A} (e : exn) : M A :=
  fun w => {| outcome_of := Raised e; world_of := w; log_of := [] |}.

Definition out_of_fuel {A} : M A :=
  fun w => {| outcome_of := OutOfFuel; world_of := w; log_of := [] |}.

Definition bind {A B} (m : M A) (k : A -> M B) : M B :=
  fun w =>
    let r := m w in
    match outcome_of r with
    | Done a =>
        let r' := k a (world_of r) in
        {| outcome_of := outcome_of r';
           world_of := world_of r';
           log_of := log_of r ++ log_of r' |}
    | Raised e =>
        {| outcome_of := Raised e; world_of := world_of r; log_of := log_of r |}
    | OutOfFuel =>
        {| outcome_of := OutOfFuel; world_of := world_of r; log_of := log_of r |}
    end.

Notation "x <- m ;; k" := (bind m (fun x => k))
  (at level 61, m at next level, right associativity).
Notation "m ;; k" := (bind m (fun _ => k))
  (at level 61, right associativity).

(** [try: m  except TimeoutError: ...]: [None] when the handler is taken. *)
Definition except_TimeoutError {A} (m : M A) : M (option A) :=
  fun w =>
    let r := m w in
    {| outcome_of :=
         match outcome_of r with
         | Done a => Done (Some a)
         | Raised TimeoutError => Done None
         | Raised e => Raised e
         | OutOfFuel => OutOfFuel
         end;
       world_of := world_of r;
       log_of := log_of r |}.

(** [with ... as ser: body]: [cleanup] runs when [body] returns or raises,
    and what [body] raised is then raised again. *)
Definition finally {A} (body : M A) (cleanup : M unit) : M A :=
  fun w =>
    let r := body w in
    match outcome_of r with
    | OutOfFuel => r
    | o =>
        let c := cleanup (world_of r) in
        {| outcome_of :=
             match outcome_of c with
             | Done _ => o
             | Raised e => Raised e
             | OutOfFuel => OutOfFuel
             end;
           world_of := world_of c;
           log_of := log_of r ++ log_of c |}
    end.

Definition tick (w : World) : World :=
  {| step := S (step w); reads := reads w; writes := writes w |}.

Section Phases.

Variable env : Env.

(** An action that cannot fail. *)
Definition act (ev : event) : M unit :=
  fun w => {| outcome_of := Done tt;
              world_of := tick w;
              log_of := [(clock env (step w), ev)] |}.

Definition print (line : string) : M unit := act (EvStdout line).
Definition print_stderr (line : string) : M unit := act (EvStderr line).

Definition time_time : M Z :=
  fun w => {| outcome_of := Done (clock env (step w));
              world_of := tick w;
              log_of := [(clock env (step w), EvTime)] |}.

(** [time.sleep(seconds)]: the length is converted to a timestamp, which
    fails for not-a-number and for what does not fit, and then refused
    when it is negative. *)
Definition time_sleep (seconds : pyfloat) : M unit :=
  match seconds with
  | NaN => raise SleepValueError
  | PlusInf | MinusInf => raise SleepOverflowError
  | Finite ticks =>
      if sleep_fits env ticks then
        if ticks <? 0 then raise SleepValueError else act (EvSleep ticks)
      else raise SleepOverflowError
  end.

Definition of_reply {A} (r : reply A) : outcome A :=
  match r with
  | Returns a => Done a
  | Raises e => Raised e
  end.

(** One call of the frame reader; the status it returns beside the frame
    is dropped by both callers. *)
Definition read_one_frame (cfg : ReadConfig) : M (list byte) :=
  fun w =>
    let r := _read_one_frame_from_serial env cfg (reads w) in
    {| outcome_of := of_reply r;
       world_of := {| step := S (step w); reads := S (reads w);
                      writes := writes w |};
       log_of := [(clock env (step w), EvReadFrame r)] |}.

Definition ser_write (data : list byte) : M unit :=
  fun w =>
    {| outcome_of := of_reply (write_reply env (writes w));
       world_of := {| step := S (step w); reads := reads w;
                      writes := S (writes w) |};
       log_of := [(clock env (step w), EvWrite data)] |}.

Definition ser_flush : M unit :=
  fun w =>
    {| outcome_of := of_reply (flush_reply env (writes w));
       world_of := tick w;
       log_of := [(clock env (step w), EvFlush)] |}.

Definition serial_open (port : string) (cfg : ReadConfig) : M unit :=
  fun w =>
    {| outcome_of := of_reply (open_reply env);
       world_of := tick w;
       log_of := [(clock env (step w), EvOpen port cfg)] |}.

Definition serial_close : M unit := act EvClose.

(** [for idx in range(idx, idx + remaining)] of [_read_frames]. *)
Fixpoint read_frames_loop (cfg : ReadConfig) (label : string)
         (remaining : nat) (idx : Z) : M unit :=
  match remaining with
  | O => ret tt
  | S remaining' =>
      frame_with_flags <- read_one_frame cfg ;;
      print (label ++ " " ++ str_of_int idx ++ ": "
             ++ _format_bytes frame_with_flags) ;;
      read_frames_loop cfg label remaining' (idx + 1)
  end.

(** Reads [count] frames from the open link and prints them.
    [range(1, count + 1)] has [Z.to_nat count] elements. *)
Definition _read_frames (cfg : ReadConfig) (count : Z) (label : string)
           (after_write_delay : option pyfloat) : M unit :=
  match after_write_delay with
  | Some d => if truthy d then time_sleep d else ret tt
  | None => ret tt
  end ;;
  read_frames_loop cfg label (Z.to_nat count) 1.

Definition no_frames_line : string :=
  "No Okamzite hodnoty frames captured within the initial window.".

(** The [while time.time() < deadline] loop; one unit of [fuel] per
    evaluation of the loop test.  Returns [observed]. *)
Fixpoint listen_loop (cfg : ReadConfig) (deadline : Z) (fuel : nat)
         (observed : Z) : M Z :=
  match fuel with
  | O => out_of_fuel
  | S fuel' =>
      now <- time_time ;;
      if now <? deadline then
        got <- except_TimeoutError (read_one_frame cfg) ;;
        match got with
        | None =>
            now' <- time_time ;;
            if now' >=? deadline then ret observed
            else listen_loop cfg deadline fuel' observed
        | Some frame_with_flags =>
            let observed := observed + 1 in
            print ("Okamzite frame " ++ str_of_int observed ++ ": "
                   ++ _format_bytes frame_with_flags) ;;
            listen_loop cfg deadline fuel' observed
        end
      else ret observed
  end.

(** Collects the frames streamed during the time budget. *)
Definition _listen_for_initial_values (cfg : ReadConfig)
           (initial_seconds : Z) (fuel : nat) : M unit :=
  now <- time_time ;;
  let deadline := now + initial_seconds in
  observed <- listen_loop cfg deadline fuel 0 ;;
  if observed =? 0 then print no_frames_line else ret tt.

(** [for req_idx, request in enumerate(requests, start=req_idx)]. *)
Fixpoint send_loop (cfg : ReadConfig) (requests : list (list byte))
         (req_idx : Z) (responses_per_request : Z)
         (post_write_delay : pyfloat) : M unit :=
  match requests with
  | [] => ret tt
  | request :: rest =>
      ser_write request ;;
      ser_flush ;;
      print ("Sent request " ++ str_of_int req_idx ++ ": "
             ++ _format_bytes request) ;;
      _read_frames cfg responses_per_request
                   ("Response to request " ++ str_of_int req_idx)
                   (Some post_write_delay) ;;
      send_loop cfg rest (req_idx + 1) responses_per_request post_write_delay
  end.

(** Transmits each request and gathers the given number of replies. *)
Definition _send_requests_and_collect (cfg : ReadConfig)
           (requests : list (list byte)) (responses_per_request : Z)
           (post_write_delay : pyfloat) : M unit :=
  send_loop cfg requests 1 responses_per_request post_write_delay.

(** What [parse_args] returns. *)
Record Args : Type := {
  port : string;
  arg_baudrate : Z;
  arg_timeout : Z;
  arg_interbyte_timeout : Z;
  initial_seconds : Z;
  requests : list string;
  responses_per_request : Z;
  post_write_delay : pyfloat
}.

(** The first loop of [main]: the requests parsed so far, or the first
    value that does not parse with the message of its [ValueError]. *)
Fixpoint parse_requests (raws : list string) (parsed : list (list byte))
  : (string * string) + list (list byte) :=
  match raws with
  | [] => inr parsed
  | raw :: rest =>
      match _parse_hex_sequence raw with
      | Ok request => parse_requests rest (parsed ++ [request])
      | ValueError msg => inl (raw, msg)
      end
  end.

Definition no_requests_line : string :=
  "No additional requests provided; exiting after initial capture.".

Definition make_cfg (args : Args) : ReadConfig :=
  {| baudrate := arg_baudrate args;
     timeout := arg_timeout args;
     interbyte_timeout := arg_interbyte_timeout args;
     crc_mode := "none";
     remove_crc := true |}.

(** The body of the [with] block of [main]. *)
Definition session (cfg : ReadConfig) (args : Args)
           (parsed : list (list byte)) (fuel : nat) : M unit :=
  _listen_for_initial_values cfg (initial_seconds args) fuel ;;
  match parsed with
  | [] => print no_requests_line
  | _ => _send_requests_and_collect cfg parsed (responses_per_request args)
                                    (post_write_delay args)
  end.

(** [main], from the parsed arguments on; the result is its return
    value. *)
Definition main (args : Args) (fuel : nat) : M Z :=
  match parse_requests (requests args) [] with
  | inl (raw, msg) =>
      print_stderr ("Could not parse request '" ++ raw ++ "': " ++ msg) ;;
      ret 2
  | inr parsed =>
      let cfg := make_cfg args in
      act (EvBanner (port args) cfg) ;;
      serial_open (port args) cfg ;;
      finally (session cfg args parsed fuel) serial_close ;;
      ret 0
  end.

End Phases.

(** The world before the first action. *)
Definition start : World := {| step := 0; reads := 0; writes := 0 |}.

(* ================================================================== *)
(** ** basic_serial_read: the raw dump *)
(* ================================================================== *)

(** [basic_serial_read.render_bytes], on the chunks [read_forever] gives
    it: the bytes in hexadecimal with a space between them. *)
Definition render_bytes (data : list byte) : string :=
  String.concat " " (map format_02X data).

Module Dump.

(** The exceptions that cross [read_forever]. *)
Inductive exn : Type :=
| KeyboardInterrupt   (* the user stops the program *)
| SerialException.    (* the transport failed *)

Inductive reply (A : Type) : Type :=
| Returns (a : A)
| Raises (e : exn).
Arguments Returns {A} a.
Arguments Raises {A} e.

(** What [parse_args] returns. *)
Record Args : Type := {
  port : string;
  baudrate : Z;
  timeout : Z;
  duration : Z;
  chunk_size : Z
}.

Inductive event : Type :=
| EvOpen (port : string) (baudrate timeout : Z)   (* serial.Serial(...) *)
| EvOpened (port : string) (baudrate : Z)
    (* the line "Opened <port> at <baudrate> baud; waiting for data..."
       on stderr *)
| EvMonotonic                                (* time.monotonic() *)
| EvRead (size : Z) (chunk : list byte)      (* ser.read(size) *)
| EvReadFailed (size : Z)                    (* ser.read(size) raising *)
| EvStdout (line : string)                   (* print *)
| EvClose.                                   (* leaving the with block *)

(** The surroundings of one run.  [monotonic k] is the clock when the
    k-th action of the run starts, [read_reply n] is what the n-th call of
    [ser.read] does, and [interrupt k] tells whether the user stops the
    program at the k-th action of the body of the with block: that action
    then raises [KeyboardInterrupt] instead of taking place. *)
Record Env : Type := {
  monotonic : nat -> Z;
  read_reply : nat -> reply (list byte);
  open_reply : reply unit;
  interrupt : nat -> bool
}.

Record World : Type := {
  step : nat;
  reads : nat
}.

Inductive outcome (A : Type) : Type :=
| Done (a : A)
| Raised (e : exn)
| OutOfFuel.
Arguments Done {A} a.
Arguments Raised {A} e.
Arguments OutOfFuel {A}.

Record run (A : Type) : Type := {
  outcome_of : outcome A;
  world_of : World;
  log_of : list (Z * event)
}.
Arguments outcome_of {A} r.
Arguments world_of {A} r.
Arguments log_of {A} r.

Definition M (A : Type) : Type := World -> run A.

Definition ret {A} (a : A) : M A :=
  fun w => {| outcome_of := Done a; world_of := w; log_of := [] |}.

Definition out_of_fuel {A} : M A :=
  fun w => {| outcome_of := OutOfFuel; world_of := w; log_of := [] |}.

Definition bind {A B} (m : M A) (k : A -> M B) : M B :=
  fun w =>
    let r := m w in
    match outcome_of r with
    | Done a =>
        let r' := k a (world_of r) in
        {| outcome_of := outcome_of r';
           world_of := world_of r';
           log_of := log_of r ++ log_of r' |}
    | Raised e =>
        {| outcome_of := Raised e; world_of := world_of r; log_of := log_of r |}
    | OutOfFuel =>
        {| outcome_of := OutOfFuel; world_of := world_of r; log_of := log_of r |}
    end.

(** [try: m  except KeyboardInterrupt: pass]. *)
Definition except_KeyboardInterrupt (m : M unit) : M unit :=
  fun w =>
    let r := m w in
    {| outcome_of :=
         match outcome_of r with
         | Raised KeyboardInterrupt => Done tt
         | o => o
         end;
       world_of := world_of r;
       log_of := log_of r |}.

(** [with ... as ser: body]. *)
Definition finally {A} (body : M A) (cleanup : M unit) : M A :=
  fun w =>
    let r := body w in
    match outcome_of r with
    | OutOfFuel => r
    | o =>
        let c := cleanup (world_of r) in
        {| outcome_of :=
             match outcome_of c with
             | Done _ => o
             | Raised e => Raised e
             | OutOfFuel => OutOfFuel
             end;
           world_of := world_of c;
           log_of := log_of r ++ log_of c |}
    end.

Definition tick (w : World) : World :=
  {| step := S (step w); reads := reads w |}.

Section Program.

Variable env : Env.

(** An action of the body of the with block: it takes place, unless the
    user stops the program there. *)
Definition interruptible {A} (m : M A) : M A :=
  fun w =>
    if interrupt env (step w)
    then {| outcome_of := Raised KeyboardInterrupt;
            world_of := tick w;
            log_of := [] |}
    else m w.

Definition act (ev : event) : M unit :=
  interruptible
    (fun w => {| outcome_of := Done tt;
                 world_of := tick w;
                 log_of := [(monotonic env (step w), ev)] |}).

Definition print (line : string) : M unit := act (EvStdout line).
Definition print_opened (args : Args) : M unit :=
  act (EvOpened (port args) (baudrate args)).

Definition time_monotonic : M Z :=
  interruptible
    (fun w => {| outcome_of := Done (monotonic env (step w));
                 world_of := tick w;
                 log_of := [(monotonic env (step w), EvMonotonic)] |}).

(** [ser.read(size)]: the bytes received, none after a timeout. *)
Definition ser_read (size : Z) : M (list byte) :=
  interruptible
    (fun w =>
       match read_reply env (reads w) with
       | Returns chunk =>
           {| outcome_of := Done chunk;
              world_of := {| step := S (step w); reads := S (reads w) |};
              log_of := [(monotonic env (step w), EvRead size chunk)] |}
       | Raises e =>
           {| outcome_of := Raised e;
              world_of := {| step := S (step w); reads := S (reads w) |};
              log_of := [(monotonic env (step w), EvReadFailed size)] |}
       end).

Definition serial_open (args : Args) : M unit :=
  fun w =>
    {| outcome_of := match open_reply env with
                     | Returns _ => Done tt
                     | Raises e => Raised e
                     end;
       world_of := tick w;
       log_of := [(monotonic env (step w),
                   EvOpen (port args) (baudrate args) (timeout args))] |}.

Definition serial_close : M unit :=
  fun w => {| outcome_of := Done tt;
              world_of := tick w;
              log_of := [(monotonic env (step w), EvClose)] |}.

Definition is_nil {A} (l : list A) : bool :=
  match l with [] => true | _ => false end.

(** One turn of the loop after its test: read a chunk, print it unless
    it is empty, and go on. *)
Definition read_turn (size : Z) (continue : M unit) : M unit :=
  bind (ser_read size) (fun chunk =>
  bind (if is_nil chunk then ret tt else print (render_bytes chunk))
       (fun _ => continue)).

(** The [while True] loop of [read_forever]; one unit of [fuel] per
    turn. *)
Fixpoint read_loop (stop_at : option Z) (size : Z) (fuel : nat) : M unit :=
  match fuel with
  | O => out_of_fuel
  | S fuel' =>
      match stop_at with
      | Some stop =>
          bind time_monotonic (fun now =>
          if now >=? stop then ret tt
          else read_turn size (read_loop stop_at size fuel'))
      | None => read_turn size (read_loop stop_at size fuel')
      end
  end.

(** The body of the with block: the line on stderr, the stop time, and
    the loop inside its [try]. *)
Definition with_body (args : Args) (fuel : nat) : M unit :=
  bind (print_opened args) (fun _ =>
  bind (if duration args >? 0
        then bind time_monotonic (fun now => ret (Some (now + duration args)))
        else ret None) (fun stop_at =>
  except_KeyboardInterrupt (read_loop stop_at (chunk_size args) fuel))).

(** Opens the port and streams the raw bytes until interrupted or until
    the duration has elapsed. *)
Definition read_forever (args : Args) (fuel : nat) : M unit :=
  bind (serial_open args) (fun _ =>
  finally (with_body args fuel) serial_close).

End Program.

Definition start : World := {| step := 0; reads := 0 |}.

End Dump.

(* ================================================================== *)
(** ** Classes of tokens used in the statements *)
(* ================================================================== *)

Fixpoint all_chars (p : ascii -> bool) (s : string) : bool :=
  match s with
  | EmptyString => true
  | String c s' => p c && all_chars p s'
  end.

Definition is_decimal_digit (c : ascii) : bool := in_range 48 57 (code c).

Definition is_zero_digit (c : ascii) : bool := (code c =? 48)%N.

(** At least two decimal digits, the first of them 0. *)
Definition leading_zero_decimal (token : string) : bool :=
  match token with
  | String c0 (String c1 rest) =>
      is_zero_digit c0 && all_chars is_decimal_digit (String c1 rest)
  | _ => false
  end.

(** The value of a byte as an integer. *)
Definition byte_value (b : byte) : Z := Z.of_N (Byte.to_N b).

(** The decimal value of a run of digits read after [acc]. *)
Fixpoint decimal_value (acc : N) (s : string) : N :=
  match s with
  | EmptyString => acc
  | String c s' => decimal_value (acc * 10 + digit_value c)%N s'
  end.


(* ================================================================== *)
(** ** Vocabulary of the statements about the two phases *)
(* ================================================================== *)

(** [r] with the actions of [l] put before its own. *)
Definition prepend {A} (l : list stamped) (r : run A) : run A :=
  {| outcome_of := outcome_of r;
     world_of := world_of r;
     log_of := l ++ log_of r |}.

(** The world [n] actions later, [r] of them calls of the frame reader. *)
Definition after (n r : nat) (w : World) : World :=
  {| step := n + step w; reads := r + reads w; writes := writes w |}.

Definition is_read (e : stamped) : bool :=
  match snd e with
  | EvReadFrame _ => true
  | _ => false
  end.

Definition is_close (e : stamped) : bool :=
  match snd e with
  | EvClose => true
  | _ => false
  end.

(** A call of the frame reader that starts when [deadline] has passed. *)
Definition late_read (deadline : Z) (e : stamped) : bool :=
  is_read e && (deadline <=? fst e).

Definition timed_out_read : event := EvReadFrame (Raises TimeoutError).

(** What follows a timed out read while listening: the clock is read; if
    the deadline has passed no frame is read any more; otherwise the loop
    test reads the clock again and, the deadline not passed, the frame
    reader is called again. *)
Definition resumes (deadline : Z) (post : list stamped) : Prop :=
  match post with
  | (t1, EvTime) :: post1 =>
      if t1 >=? deadline then filter is_read post1 = []
      else
        match post1 with
        | (t2, EvTime) :: post2 =>
            if t2 <? deadline
            then match post2 with
                 | (_, EvReadFrame _) :: _ => True
                 | _ => False
                 end
            else filter is_read post2 = []
        | _ => False
        end
  | _ => False
  end.

Definition frame_line (observed : Z) (frame : list byte) : string :=
  "Okamzite frame " ++ str_of_int observed ++ ": " ++ _format_bytes frame.

Definition sent_line (req_idx : Z) (request : list byte) : string :=
  "Sent request " ++ str_of_int req_idx ++ ": " ++ _format_bytes request.

(** The line [_read_frames] prints for response [idx] to request
    [req_idx]. *)
Definition response_line (req_idx idx : Z) (frame : list byte) : string :=
  ("Response to request " ++ str_of_int req_idx) ++ " " ++ str_of_int idx
  ++ ": " ++ _format_bytes frame.

(** The same line as the specification words it:
    [Response to request i: <index>: <hex>]. *)
Definition spec_response_line (req_idx idx : Z) (frame : list byte)
  : string :=
  "Response to request " ++ str_of_int req_idx ++ ": " ++ str_of_int idx
  ++ ": " ++ _format_bytes frame.

(** The frame the [k]-th call of the frame reader returns. *)
Definition frame_at (env : Env) (cfg : ReadConfig) (k : nat) : list byte :=
  match _read_one_frame_from_serial env cfg k with
  | Returns f => f
  | Raises _ => []
  end.

(** Reading the frames [frames] one after the other and reporting each
    under [label], numbered from [first_idx]. *)
Definition response_events (label : string) (first_idx : nat)
           (frames : list (list byte)) : list event :=
  flat_map
    (fun '(idx, f) =>
       [EvReadFrame (Returns f);
        EvStdout (label ++ " " ++ str_of_int (Z.of_nat idx) ++ ": "
                  ++ _format_bytes f)])
    (combine (seq first_idx (List.length frames)) frames).

Definition sleep_events (delay : Z) : list event :=
  if delay =? 0 then [] else [EvSleep delay].

(** The exchange for the [i]-th request (from 1): write, flush, report,
    settle, then [n] frames read from call [first_read] of the frame
    reader on. *)
Definition exchange_events (env : Env) (cfg : ReadConfig) (n : nat)
           (delay : Z) (first_read : nat) (i : nat) (request : list byte)
  : list event :=
  [EvWrite request; EvFlush; EvStdout (sent_line (Z.of_nat i) request)]
  ++ sleep_events delay
  ++ response_events ("Response to request " ++ str_of_int (Z.of_nat i)) 1
       (map (frame_at env cfg) (seq (first_read + (i - 1) * n) n)).

(** The exchanges of all requests, in the order of the requests. *)
Definition active_events (env : Env) (cfg : ReadConfig)
           (requests : list (list byte)) (n : nat) (delay : Z)
           (first_read : nat) : list event :=
  flat_map (fun '(i, request) => exchange_events env cfg n delay first_read i request)
           (combine (seq 1 (List.length requests)) requests).

(** [raw] is named in a line written to the error stream. *)
Definition reported (raw : string) (log : list stamped) : Prop :=
  exists t msg,
    In (t, EvStderr ("Could not parse request '" ++ raw ++ "': " ++ msg)) log.

Definition parses (raw : string) : Prop :=
  exists request, _parse_hex_sequence raw = Ok request.

(** Every timed out read of the log is followed as [resumes] says. *)
Fixpoint each_timeout_resumes (deadline : Z) (log : list stamped) : Prop :=
  match log with
  | [] => True
  | e :: rest =>
      (snd e = timed_out_read -> resumes deadline rest)
      /\ each_timeout_resumes deadline rest
  end.

(** The clock never goes back. *)
Definition monotone (clock : nat -> Z) : Prop :=
  forall k, clock k <= clock (S k).

(** Every action of [m] is one that [ok] accepts. *)
Definition emits_only {A} (ok : event -> bool) (m : M A) : Prop :=
  forall w, forallb (fun e => ok (snd e)) (log_of (m w)) = true.

Definition not_close (ev : event) : bool :=
  match ev with
  | EvClose => false
  | _ => true
  end.

(** A call of the frame reader that raises is the last action of the
    run, and the run raises what the call raised. *)
Definition failed_read_last {A} (r : run A) : Prop :=
  forall pre t e post,
    log_of r = (pre ++ (t, EvReadFrame (Raises e)) :: post)%list ->
    post = [] /\ outcome_of r = Raised e.

(* ================================================================== *)
(** ** Sample surroundings *)
(* ================================================================== *)

(** One tick per action, a link that takes every write, and a frame
    reader that answers every call with the frame [01]. *)
Definition echo_env : Env :=
  {| clock := Z.of_nat;
     _read_one_frame_from_serial := fun _ _ => Returns [x01];
     write_reply := fun _ => Returns tt;
     flush_reply := fun _ => Returns tt;
     open_reply := Returns tt;
     sleep_fits := fun _ => true |}.

(** The same, with a frame reader that always times out. *)
Definition silent_env : Env :=
  {| clock := Z.of_nat;
     _read_one_frame_from_serial := fun _ _ => Raises TimeoutError;
     write_reply := fun _ => Returns tt;
     flush_reply := fun _ => Returns tt;
     open_reply := Returns tt;
     sleep_fits := fun _ => true |}.

(** The surroundings of [echo_env] with a clock that is set back while
    the program runs: its readings are 10, 5, 12, 12, 5, 13, 13 and then
    20. *)
Definition rewinding_env : Env :=
  {| clock := fun k => nth k [10; 5; 12; 12; 5; 13; 13] 20;
     _read_one_frame_from_serial := fun _ _ => Returns [x01];
     write_reply := fun _ => Returns tt;
     flush_reply := fun _ => Returns tt;
     open_reply := Returns tt;
     sleep_fits := fun _ => true |}.

Definition sample_args (raws : list string) : Args :=
  {| port := "COM5";
     arg_baudrate := 38400;
     arg_timeout := 1000;
     arg_interbyte_timeout := 100;
     initial_seconds := 2;
     requests := raws;
     responses_per_request := 1;
     post_write_delay := Finite 200 |}.

Definition sample_cfg : ReadConfig := make_cfg (sample_args []).

(* ================================================================== *)
(** ** Proof steps shared by the character lemmas *)
(* ================================================================== *)

Ltac unfold_ranges :=
  unfold is_decimal_digit, is_zero_digit, isspace, int_isspace, is_char,
    in_range, underscore in *.

Ltac bool_to_prop :=
  repeat match goal with
         | H : _ && _ = true |- _ => apply andb_true_iff in H; destruct H
         | H : (_ <=? _)%N = true |- _ => apply N.leb_le in H
         | H : (_ =? _)%N = true |- _ => apply N.eqb_eq in H
         end.

(* ================================================================== *)
(** ** Vocabulary of the further statements about the hex codec *)
(* ================================================================== *)

(** The characters [_parse_hex_sequence] takes as separators. *)
Definition is_separator (c : ascii) : bool :=
  isspace c || Ascii.eqb c comma || Ascii.eqb c semicolon.

Definition is_upper_hex (c : ascii) : bool :=
  in_range 48 57 (code c) || in_range 65 70 (code c).

(** The value of a numeral in [base], by the digit table of [int]. *)
Fixpoint numeral_value (base : N) (acc : N) (s : string) : N :=
  match s with
  | EmptyString => acc
  | String c s' => numeral_value base (acc * base + digit_value c)%N s'
  end.

(** [token] is a literal of base 0 whose value [v] is a byte. *)
Definition byte_literal (token : string) (v : Z) : Prop :=
  int_base0 token = Some v /\ 0 <= v <= 255.

Definition could_not_parse (token : string) : string :=
  "Could not parse '" ++ token ++ "' as a hex byte".

Definition outside_byte_range (value : Z) (token : string) : string :=
  "Value " ++ str_of_int value ++ " from '" ++ token
  ++ "' is outside byte range".

(** A token as [hex_tokens] returns them: not empty, no separator. *)
Definition is_word (w : string) : bool :=
  negb (is_empty w) && all_chars (fun c => negb (is_separator c)) w.

(** Two upper case hexadecimal digits that denote the byte [b]. *)
Definition renders (token : string) (b : byte) : Prop :=
  String.length token = 2%nat /\
  all_chars is_upper_hex token = true /\
  Z.of_N (numeral_value 16 0 token) = byte_value b.

(** A text changed character by character. *)
Fixpoint map_chars (f : ascii -> ascii) (s : string) : string :=
  match s with
  | EmptyString => EmptyString
  | String c s' => String (f c) (map_chars f s')
  end.

(** What the two [replace] calls of [_parse_hex_sequence] do to one
    character. *)
Definition normalize_char (c : ascii) : ascii :=
  let c1 := if Ascii.eqb c comma then space else c in
  if Ascii.eqb c1 semicolon then space else c1.

(** How [_parse_hex_sequence] fails on the first token that is no byte:
    the message it raises for [token]. *)
Definition token_error (token : string) (msg : string) : Prop :=
  (int_base0 token = None /\ msg = could_not_parse token) \/
  (exists value,
     int_base0 token = Some value /\ (value < 0 \/ 255 < value) /\
     (msg = outside_byte_range value token \/ msg = str_limit_message)).

(* ================================================================== *)
(** ** Vocabulary of the further statements about the session *)
(* ================================================================== *)

(** The lines printed, the frames read and the data written in a log. *)
Definition stdout_lines (log : list stamped) : list string :=
  flat_map (fun e => match snd e with EvStdout l => [l] | _ => [] end) log.

Definition frames_read (log : list stamped) : list (list byte) :=
  flat_map (fun e => match snd e with
                     | EvReadFrame (Returns f) => [f]
                     | _ => []
                     end) log.

Definition written (log : list stamped) : list (list byte) :=
  flat_map (fun e => match snd e with EvWrite d => [d] | _ => [] end) log.

(** The lines of [_listen_for_initial_values] for [frames], the first of
    them numbered [first]. *)
Definition numbered_frames (first : nat) (frames : list (list byte))
  : list string :=
  map (fun '(i, f) => frame_line (Z.of_nat i) f)
      (combine (seq first (List.length frames)) frames).

Definition listen_action (ev : event) : bool :=
  match ev with
  | EvTime | EvReadFrame _ | EvStdout _ => true
  | _ => false
  end.

Definition not_time (ev : event) : bool :=
  match ev with
  | EvTime => false
  | _ => true
  end.

Definition not_write (ev : event) : bool :=
  match ev with
  | EvWrite _ => false
  | _ => true
  end.

(** The actions that use the open link. *)
Definition link_action (ev : event) : bool :=
  match ev with
  | EvReadFrame _ | EvWrite _ | EvFlush => true
  | _ => false
  end.

Definition is_open (e : stamped) : bool :=
  match snd e with
  | EvOpen _ _ => true
  | _ => false
  end.

Definition is_write (e : stamped) : bool := negb (not_write (snd e)).

Definition uses_link (e : stamped) : bool := link_action (snd e).

(** A delay below zero: a negative number of ticks, or minus infinity. *)
Definition is_negative (d : pyfloat) : bool :=
  match d with
  | Finite ticks => ticks <? 0
  | MinusInf => true
  | PlusInf | NaN => false
  end.

(** What [time.sleep] raises for a delay below zero: [ValueError] when
    the length fits the timestamp, [OverflowError] when it does not. *)
Definition negative_sleep_error (env : Env) (d : pyfloat) : exn :=
  match d with
  | Finite ticks =>
      if sleep_fits env ticks then SleepValueError else SleepOverflowError
  | _ => SleepOverflowError
  end.

(** The frame reader of this run fails on its first call. *)
Definition broken_env : Env :=
  {| clock := Z.of_nat;
     _read_one_frame_from_serial := fun _ _ => Raises SerialException;
     write_reply := fun _ => Returns tt;
     flush_reply := fun _ => Returns tt;
     open_reply := Returns tt;
     sleep_fits := fun _ => true |}.

(* ================================================================== *)
(** ** Vocabulary of the statements about the raw dump *)
(* ================================================================== *)

Definition dump_prepend {A} (l : list (Z * Dump.event)) (r : Dump.run A)
  : Dump.run A :=
  {| Dump.outcome_of := Dump.outcome_of r;
     Dump.world_of := Dump.world_of r;
     Dump.log_of := l ++ Dump.log_of r |}.

Definition dump_lines (log : list (Z * Dump.event)) : list string :=
  flat_map (fun e => match snd e with
                     | Dump.EvStdout l => [l]
                     | _ => []
                     end) log.

(** The chunks that [ser.read] returned with at least one byte. *)
Definition dump_chunks (log : list (Z * Dump.event)) : list (list byte) :=
  flat_map (fun e => match snd e with
                     | Dump.EvRead _ (b :: chunk) => [b :: chunk]
                     | _ => []
                     end) log.

Definition dump_is_read (e : Z * Dump.event) : bool :=
  match snd e with
  | Dump.EvRead _ _ | Dump.EvReadFailed _ => true
  | _ => false
  end.

Definition dump_is_clock (e : Z * Dump.event) : bool :=
  match snd e with
  | Dump.EvMonotonic => true
  | _ => false
  end.

Definition dump_is_close (e : Z * Dump.event) : bool :=
  match snd e with
  | Dump.EvClose => true
  | _ => false
  end.

(** A call of [ser.read] that starts when [stop] has passed. *)
Definition dump_late_read (stop : Z) (e : Z * Dump.event) : bool :=
  dump_is_read e && (stop <=? fst e).

(** A link that always answers with the two bytes [01 AB], and a user
    who does not interrupt. *)
Definition dump_env : Dump.Env :=
  {| Dump.monotonic := Z.of_nat;
     Dump.read_reply := fun _ => Dump.Returns [x01; xab];
     Dump.open_reply := Dump.Returns tt;
     Dump.interrupt := fun _ => false |}.

(** The same link, with a user who interrupts at action [k]. *)
Definition dump_env_interrupted (k : nat) : Dump.Env :=
  {| Dump.monotonic := Z.of_nat;
     Dump.read_reply := fun _ => Dump.Returns [x01; xab];
     Dump.open_reply := Dump.Returns tt;
     Dump.interrupt := Nat.eqb k |}.

Definition dump_args (duration : Z) : Dump.Args :=
  {| Dump.port := "COM5";
     Dump.baudrate := 38400;
     Dump.timeout := 1000;
     Dump.duration := duration;
     Dump.chunk_size := 128 |}.

(** The lines printed are the renderings of the chunks read, in order;
    only the last chunk can be missing, and only after an interrupt. *)
Definition dump_renders_chunks (env : Dump.Env) (log : list (Z * Dump.event))
  : Prop :=
  exists printed lost,
    dump_chunks log = (printed ++ lost)%list
    /\ dump_lines log = map render_bytes printed
    /\ (List.length lost <= 1)%nat
    /\ ((forall k, Dump.interrupt env k = false) -> lost = []).
(* ================================================================== *)
(** ** Properties of the hex codec *)
(* ================================================================== *)

Section Codec.

Lemma digit_not_space c : is_decimal_digit c = true -> isspace c = false.
Proof.
  unfold_ranges; intros H; bool_to_prop.
  rewrite ?orb_false_iff, ?andb_false_iff, ?N.leb_gt, ?N.eqb_neq. lia.
Qed.

Lemma digit_not_int_space c :
  is_decimal_digit c = true -> int_isspace c = false.
Proof.
  unfold_ranges; intros H; bool_to_prop.
  rewrite ?orb_false_iff, ?andb_false_iff, ?N.leb_gt, ?N.eqb_neq. lia.
Qed.

Lemma digit_code_neq c n :
  is_decimal_digit c = true -> (n < 48 \/ 57 < n)%N -> (code c =? n)%N = false.
Proof.
  unfold_ranges; intros H Hn; bool_to_prop. apply N.eqb_neq; lia.
Qed.

Lemma digit_value_decimal c :
  is_decimal_digit c = true -> digit_value c = (code c - 48)%N.
Proof.
  unfold digit_value, is_decimal_digit. intros ->. reflexivity.
Qed.

Lemma digit_value_lt_10 c :
  is_decimal_digit c = true -> (digit_value c <? 10)%N = true.
Proof.
  intros H. rewrite (digit_value_decimal c H).
  unfold_ranges; bool_to_prop. apply N.ltb_lt; lia.
Qed.

Lemma digit_keeps c sep :
  is_decimal_digit c = true -> (code sep < 48)%N \/ (57 < code sep)%N ->
  Ascii.eqb c sep = false.
Proof.
  intros H Hsep. apply Ascii.eqb_neq. intros ->.
  unfold_ranges; bool_to_prop. lia.
Qed.

Lemma replace_digits old new s :
  all_chars is_decimal_digit s = true ->
  (code old < 48)%N \/ (57 < code old)%N ->
  replace old new s = s.
Proof.
  intros Hs Hold. induction s as [|c s IH]; simpl in *; [reflexivity|].
  apply andb_true_iff in Hs as [Hc Hs].
  rewrite (digit_keeps c old Hc Hold), (IH Hs). reflexivity.
Qed.

Lemma split_from_digits s :
  all_chars is_decimal_digit s = true -> split_from s = (s, []).
Proof.
  induction s as [|c s IH]; simpl; intros Hs; [reflexivity|].
  apply andb_true_iff in Hs as [Hc Hs].
  rewrite (IH Hs), (digit_not_space c Hc). reflexivity.
Qed.

(** A token of decimal digits is the only token of the text it makes. *)
Lemma hex_tokens_digits c s :
  all_chars is_decimal_digit (String c s) = true ->
  hex_tokens (String c s) = [String c s].
Proof.
  intros Hs. unfold hex_tokens.
  rewrite (replace_digits comma space _ Hs) by (left; vm_compute; reflexivity).
  rewrite (replace_digits semicolon space _ Hs)
    by (right; vm_compute; reflexivity).
  unfold split. rewrite (split_from_digits _ Hs). reflexivity.
Qed.

Lemma scan_decimal_digits s : forall acc n,
  all_chars is_decimal_digit s = true ->
  scan_digits 10 s false acc n
  = Some (decimal_value acc s, (n + N.of_nat (String.length s))%N, EmptyString).
Proof.
  induction s as [|c s IH]; intros acc n Hs.
  - simpl. rewrite N.add_0_r. reflexivity.
  - simpl in Hs. apply andb_true_iff in Hs as [Hc Hs].
    cbn [scan_digits decimal_value String.length].
    rewrite (digit_code_neq c underscore Hc) by (right; vm_compute; reflexivity).
    rewrite (digit_value_lt_10 c Hc), (IH _ _ Hs).
    rewrite Nat2N.inj_succ, <- N.add_1_l, N.add_assoc. reflexivity.
Qed.

Lemma decimal_value_ge s : forall acc, (acc <= decimal_value acc s)%N.
Proof.
  induction s as [|c s IH]; intros acc; simpl; [lia|].
  specialize (IH (acc * 10 + digit_value c)%N). lia.
Qed.

(** Digits that are not all 0 have a value that is not 0. *)
Lemma decimal_value_nonzero s : forall acc,
  all_chars is_decimal_digit s = true ->
  all_chars is_zero_digit s = false ->
  decimal_value acc s <> 0%N.
Proof.
  induction s as [|c s IH]; intros acc Hd Hz; simpl in *; [discriminate|].
  apply andb_true_iff in Hd as [Hc Hd].
  destruct (is_zero_digit c) eqn:Hzc; simpl in Hz.
  - apply IH; assumption.
  - pose proof (decimal_value_ge s (acc * 10 + digit_value c)%N) as Hge.
    rewrite (digit_value_decimal c Hc) in *.
    unfold_ranges; bool_to_prop. apply N.eqb_neq in Hzc. lia.
Qed.

Lemma decimal_value_zeros s :
  all_chars is_zero_digit s = true -> decimal_value 0 s = 0%N.
Proof.
  induction s as [|c s IH]; simpl; intros Hz; [reflexivity|].
  apply andb_true_iff in Hz as [Hc Hz].
  unfold digit_value. unfold is_zero_digit in Hc. apply N.eqb_eq in Hc.
  rewrite Hc. simpl. apply IH, Hz.
Qed.

(** How [int(token, 0)] reads a token of decimal digits that starts
    with 0: base 10, and the value must be zero. *)
Lemma int_base0_leading_zero token :
  leading_zero_decimal token = true ->
  int_base0 token =
    if (int_max_str_digits <? N.of_nat (String.length token))%N then None
    else if negb (decimal_value 0 token =? 0)%N then None
    else Some 0.
Proof.
  destruct token as [|c0 [|c1 rest]]; try discriminate.
  unfold leading_zero_decimal. intros H.
  apply andb_true_iff in H as [H0 Hrest].
  assert (Hd0 : is_decimal_digit c0 = true).
  { unfold_ranges. apply N.eqb_eq in H0. rewrite H0. reflexivity. }
  assert (Hd1 : is_decimal_digit c1 = true).
  { simpl in Hrest. apply andb_true_iff in Hrest as [H1 _]. exact H1. }
  assert (Hall : all_chars is_decimal_digit (String c0 (String c1 rest)) = true).
  { change (is_decimal_digit c0 && all_chars is_decimal_digit (String c1 rest)
            = true). rewrite Hd0, Hrest. reflexivity. }
  unfold int_base0.
  cbn [skip_space]. rewrite (digit_not_int_space c0 Hd0).
  rewrite !(digit_code_neq c0) by
    (first [ exact Hd0 | left; vm_compute; reflexivity ]).
  unfold detect_base. unfold is_zero_digit in H0. rewrite H0.
  unfold is_char.
  rewrite !(digit_code_neq c1) by
    (first [ exact Hd1 | right; vm_compute; reflexivity ]).
  cbn [orb]. unfold skip_prefix. rewrite H0. cbn [N.eqb andb orb Pos.eqb].
  unfold starts_with_underscore.
  rewrite (digit_code_neq c0 underscore Hd0) by (right; vm_compute; reflexivity).
  rewrite (scan_decimal_digits _ 0%N 0%N Hall).
  rewrite N.add_0_l. cbn [andb N.eqb Pos.eqb].
  destruct (int_max_str_digits <? _)%N; [reflexivity|].
  destruct (decimal_value 0 _ =? 0)%N eqn:Hv; cbn [negb]; [|reflexivity].
  replace (N.of_nat (String.length (String c0 (String c1 rest))) =? 0)%N
    with false by (symmetry; apply N.eqb_neq; cbn [String.length]; lia).
  cbn [skip_space is_empty]. apply N.eqb_eq in Hv. rewrite Hv. reflexivity.
Qed.

Lemma bytes_in_range values :
  Forall (fun v => 0 <= v <= 255) values ->
  exists data, bytes values = Ok data /\ map byte_value data = values.
Proof.
  induction 1 as [|v values Hv _ [data [Hdata Hmap]]].
  - exists []. split; reflexivity.
  - destruct (Byte.of_N (Z.to_N v)) as [b|] eqn:Hb.
    + exists (b :: data). split.
      * simpl. replace (v <? 0) with false by (symmetry; apply Z.ltb_ge; lia).
        rewrite Hb, Hdata. reflexivity.
      * simpl. rewrite Hmap. f_equal. unfold byte_value.
        rewrite (Byte.to_of_N _ Hb). lia.
    + apply Byte.of_N_None_iff in Hb. lia.
Qed.

Lemma collect_values_in_order tokens : forall values acc,
  Forall2 (fun token v => int_base0 token = Some v /\ 0 <= v <= 255)
          tokens values ->
  collect_values tokens acc = Ok (acc ++ values)%list.
Proof.
  induction tokens as [|token tokens IH]; intros values acc H; inversion H; subst.
  - simpl. rewrite app_nil_r. reflexivity.
  - simpl. destruct H2 as [-> [Hlo Hhi]].
    replace (0 <=? y) with true by (symmetry; apply Z.leb_le; lia).
    replace (y <=? 255) with true by (symmetry; apply Z.leb_le; lia).
    simpl. rewrite (IH _ _ H4), <- app_assoc. reflexivity.
Qed.

(** When every token of a text has a value in 0..255, the text parses
    to these values, in the order of the tokens. *)
Lemma parse_hex_sequence_in_order text values :
  hex_tokens text <> [] ->
  Forall2 (fun token v => int_base0 token = Some v /\ 0 <= v <= 255)
          (hex_tokens text) values ->
  exists data,
    _parse_hex_sequence text = Ok data /\ map byte_value data = values.
Proof.
  intros Hne H. unfold _parse_hex_sequence.
  destruct text as [|c text]; [exfalso; apply Hne; reflexivity|].
  cbn [is_empty].
  destruct (hex_tokens (String c text)) as [|t ts] eqn:Ht; [congruence|].
  rewrite (collect_values_in_order _ _ [] H). simpl app.
  apply bytes_in_range.
  clear -H. induction H as [|? ? ? ? [_ ?] _ IH]; constructor; assumption.
Qed.

End Codec.


(* ================================================================== *)
(** ** Properties of the two phases *)
(* ================================================================== *)

Section PhaseFacts.

Variable env : Env.
Variable cfg : ReadConfig.

Local Open Scope list_scope.

(** One turn of the listen loop. *)
Lemma listen_loop_unfold deadline fuel observed w :
  listen_loop env cfg deadline (S fuel) observed w =
  let t0 := clock env (step w) in
  let t1 := clock env (1 + step w)%nat in
  let t2 := clock env (2 + step w)%nat in
  if t0 <? deadline then
    match _read_one_frame_from_serial env cfg (reads w) with
    | Returns f =>
        prepend [(t0, EvTime); (t1, EvReadFrame (Returns f));
                 (t2, EvStdout (frame_line (observed + 1) f))]
                (listen_loop env cfg deadline fuel (observed + 1) (after 3 1 w))
    | Raises TimeoutError =>
        if t2 >=? deadline
        then {| outcome_of := Done observed;
                world_of := after 3 1 w;
                log_of := [(t0, EvTime); (t1, timed_out_read); (t2, EvTime)] |}
        else prepend [(t0, EvTime); (t1, timed_out_read); (t2, EvTime)]
                     (listen_loop env cfg deadline fuel observed (after 3 1 w))
    | Raises e =>
        {| outcome_of := Raised e;
           world_of := after 2 1 w;
           log_of := [(t0, EvTime); (t1, EvReadFrame (Raises e))] |}
    end
  else {| outcome_of := Done observed;
          world_of := after 1 0 w;
          log_of := [(t0, EvTime)] |}.
Proof.
  cbv zeta. cbn [listen_loop].
  unfold bind, print, act, time_time, except_TimeoutError, read_one_frame,
    prepend, after, ret, frame_line, timed_out_read.
  cbn [outcome_of world_of log_of tick step reads writes Nat.add].
  destruct (clock env (step w) <? deadline); [|reflexivity].
  cbn [outcome_of world_of log_of tick step reads writes].
  destruct (_read_one_frame_from_serial env cfg (reads w)) as [f|[]];
    cbn [of_reply outcome_of world_of log_of tick step reads writes];
    try reflexivity.
  destruct (clock env (S (S (step w))) >=? deadline); reflexivity.
Qed.

(** The whole phase in terms of its loop. *)
Lemma listen_unfold secs fuel w :
  _listen_for_initial_values env cfg secs fuel w =
  let t0 := clock env (step w) in
  let r := listen_loop env cfg (t0 + secs) fuel 0 (after 1 0 w) in
  match outcome_of r with
  | Done observed =>
      if observed =? 0
      then {| outcome_of := Done tt;
              world_of := after 1 0 (world_of r);
              log_of := (t0, EvTime) :: log_of r
                        ++ [(clock env (step (world_of r)),
                             EvStdout no_frames_line)] |}
      else {| outcome_of := Done tt;
              world_of := world_of r;
              log_of := (t0, EvTime) :: log_of r ++ [] |}
  | Raised e =>
      {| outcome_of := Raised e; world_of := world_of r;
         log_of := (t0, EvTime) :: log_of r |}
  | OutOfFuel =>
      {| outcome_of := OutOfFuel; world_of := world_of r;
         log_of := (t0, EvTime) :: log_of r |}
  end.
Proof.
  cbv zeta. unfold _listen_for_initial_values, bind, time_time, after, tick.
  cbn [outcome_of world_of log_of step reads writes Nat.add app].
  destruct (outcome_of (listen_loop env cfg _ fuel 0 _)) as [observed|e|];
    try reflexivity.
  destruct (observed =? 0); reflexivity.
Qed.

(** A timeout of the frame reader never leaves the listen loop. *)
Lemma listen_loop_never_timeout deadline fuel : forall observed w,
  outcome_of (listen_loop env cfg deadline fuel observed w)
  <> Raised TimeoutError.
Proof.
  induction fuel as [|fuel IH]; intros observed w; [discriminate|].
  rewrite listen_loop_unfold. cbv zeta.
  destruct (_ <? deadline); [|discriminate].
  destruct (_read_one_frame_from_serial env cfg (reads w)) as [f|[]];
    try discriminate.
  - apply IH.
  - destruct (_ >=? deadline); [discriminate|apply IH].
Qed.

(** How the log of a loop that came to an end starts. *)
Lemma listen_loop_head deadline fuel observed w :
  outcome_of (listen_loop env cfg deadline fuel observed w) <> OutOfFuel ->
  exists rest,
    log_of (listen_loop env cfg deadline fuel observed w)
    = (clock env (step w), EvTime) :: rest /\
    if clock env (step w) <? deadline
    then exists r rest', rest = (clock env (1 + step w)%nat, EvReadFrame r) :: rest'
    else rest = [].
Proof.
  destruct fuel as [|fuel]; [intros H; exfalso; apply H; reflexivity|].
  rewrite listen_loop_unfold. cbv zeta. intros _.
  destruct (_ <? deadline); [|eexists; split; reflexivity].
  destruct (_read_one_frame_from_serial env cfg (reads w)) as [f|[]].
  - eexists; split; [reflexivity|]. eexists; eexists; reflexivity.
  - destruct (_ >=? deadline);
      (eexists; split; [reflexivity|]; eexists; eexists; reflexivity).
  - eexists; split; [reflexivity|]. eexists; eexists; reflexivity.
  - eexists; split; [reflexivity|]. eexists; eexists; reflexivity.
  - eexists; split; [reflexivity|]. eexists; eexists; reflexivity.
Qed.

Lemma each_timeout_resumes_split deadline log : forall pre t post,
  each_timeout_resumes deadline log ->
  log = pre ++ (t, timed_out_read) :: post ->
  resumes deadline post.
Proof.
  induction log as [|e log IH]; intros pre t post Hall Heq.
  - destruct pre; discriminate.
  - destruct Hall as [Hhead Hrest]. destruct pre as [|p pre].
    + injection Heq as -> ->. apply Hhead. reflexivity.
    + injection Heq as _ Heq. exact (IH pre t post Hrest Heq).
Qed.

Lemma resumes_app deadline post tail :
  resumes deadline post -> filter is_read tail = [] ->
  resumes deadline (post ++ tail).
Proof.
  intros H Htail. unfold resumes in *.
  destruct post as [|[t1 []] post1]; try contradiction.
  cbn [app]. destruct (t1 >=? deadline).
  - rewrite filter_app, H, Htail. reflexivity.
  - destruct post1 as [|[t2 []] post2]; try contradiction.
    cbn [app]. destruct (t2 <? deadline).
    + destruct post2 as [|[t3 []] post3]; try contradiction. exact I.
    + rewrite filter_app, H, Htail. reflexivity.
Qed.

Lemma each_timeout_resumes_app deadline tail : forall log,
  each_timeout_resumes deadline log ->
  each_timeout_resumes deadline tail ->
  filter is_read tail = [] ->
  each_timeout_resumes deadline (log ++ tail).
Proof.
  induction log as [|e log IH]; intros Hlog Htail Hnone; [exact Htail|].
  destruct Hlog as [Hhead Hrest]. cbn [app each_timeout_resumes]. split.
  - intros He. apply resumes_app; [apply Hhead, He|exact Hnone].
  - apply IH; assumption.
Qed.

(** While listening, every timed out read is followed by a new attempt
    unless the deadline has passed. *)
Lemma listen_loop_resumes deadline fuel : forall observed w,
  outcome_of (listen_loop env cfg deadline fuel observed w) <> OutOfFuel ->
  each_timeout_resumes deadline
    (log_of (listen_loop env cfg deadline fuel observed w)).
Proof.
  induction fuel as [|fuel IH]; intros observed w;
    [intros H; exfalso; apply H; reflexivity|].
  rewrite listen_loop_unfold. cbv zeta.
  destruct (_ <? deadline); [|intros _; repeat split; discriminate].
  destruct (_read_one_frame_from_serial env cfg (reads w)) as [f|[]].
  - cbn [prepend outcome_of log_of app each_timeout_resumes snd].
    intros Hend. repeat split; try discriminate. apply IH, Hend.
  - destruct (clock env (2 + step w)%nat >=? deadline) eqn:Hlate.
    + intros _. cbn [log_of each_timeout_resumes snd].
      repeat split; try discriminate.
      intros _. unfold resumes. rewrite Hlate. reflexivity.
    + cbn [prepend outcome_of log_of app each_timeout_resumes snd].
      intros Hend. repeat split; try discriminate; [|apply IH, Hend].
      intros _. unfold resumes. rewrite Hlate.
      destruct (listen_loop_head deadline fuel observed (after 3 1 w) Hend)
        as [rest [-> Hrest]].
      cbn [after step Nat.add] in *.
      destruct (clock env (S (S (S (step w)))) <? deadline).
      * destruct Hrest as [r [rest' ->]]. exact I.
      * rewrite Hrest. reflexivity.
  - intros _. repeat split; discriminate.
  - intros _. repeat split; discriminate.
  - intros _. repeat split; discriminate.
Qed.

Lemma monotone_le : monotone (clock env) ->
  forall j k, (j <= k)%nat -> clock env j <= clock env k.
Proof.
  intros Hmono j k Hjk. induction Hjk as [|k _ IH]; [lia|].
  specialize (Hmono k). lia.
Qed.

Lemma late_read_is_read deadline log :
  filter is_read log = [] -> filter (late_read deadline) log = [].
Proof.
  induction log as [|e log IH]; [reflexivity|]. cbn [filter].
  unfold late_read at 1. destruct (is_read e); [discriminate|]. exact IH.
Qed.

(** Once the deadline has passed the loop reads no frame. *)
Lemma listen_loop_past_deadline deadline fuel observed w :
  deadline <= clock env (step w) ->
  filter is_read (log_of (listen_loop env cfg deadline fuel observed w)) = [].
Proof.
  intros Hlate. destruct fuel as [|fuel]; [reflexivity|].
  rewrite listen_loop_unfold. cbv zeta.
  replace (clock env (step w) <? deadline) with false
    by (symmetry; apply Z.ltb_ge; exact Hlate).
  reflexivity.
Qed.

(** At most one call of the frame reader starts after the deadline. *)
Lemma listen_loop_one_late_read deadline fuel :
  monotone (clock env) ->
  forall observed w,
    (List.length (filter (late_read deadline)
       (log_of (listen_loop env cfg deadline fuel observed w))) <= 1)%nat.
Proof.
  intros Hmono. induction fuel as [|fuel IH]; intros observed w;
    [cbn; lia|].
  assert (Hnext : forall obs, deadline <= clock env (1 + step w)%nat ->
            filter (late_read deadline)
              (log_of (listen_loop env cfg deadline fuel obs (after 3 1 w)))
            = []).
  { intros obs Hlate. apply late_read_is_read, listen_loop_past_deadline.
    pose proof (monotone_le Hmono (1 + step w) (step (after 3 1 w))) as Hle.
    cbn [after step] in *. specialize (Hle ltac:(lia)). lia. }
  rewrite listen_loop_unfold. cbv zeta.
  destruct (_ <? deadline); [|cbn; lia].
  destruct (_read_one_frame_from_serial env cfg (reads w)) as [f|[]].
  - cbn [prepend log_of app filter late_read is_read snd fst andb].
    destruct (deadline <=? clock env (1 + step w)%nat) eqn:Hlate.
    + apply Z.leb_le in Hlate. rewrite (Hnext _ Hlate). cbn; lia.
    + apply IH.
  - destruct (_ >=? deadline).
    + cbn [log_of filter late_read is_read snd fst andb timed_out_read].
      destruct (deadline <=? _); cbn; lia.
    + cbn [prepend log_of app filter late_read is_read snd fst andb
             timed_out_read].
      destruct (deadline <=? clock env (1 + step w)%nat) eqn:Hlate.
      * apply Z.leb_le in Hlate. rewrite (Hnext _ Hlate). cbn; lia.
      * apply IH.
  - cbn [log_of filter late_read is_read snd fst andb].
    destruct (deadline <=? _); cbn; lia.
  - cbn [log_of filter late_read is_read snd fst andb].
    destruct (deadline <=? _); cbn; lia.
  - cbn [log_of filter late_read is_read snd fst andb].
    destruct (deadline <=? _); cbn; lia.
Qed.

(** The loop comes to an end when the clock reaches the deadline: with
    the deadline reached at action [K], [n] turns are enough as soon as
    [K <= step w + n]. *)
Lemma listen_loop_terminates deadline K :
  monotone (clock env) ->
  deadline <= clock env K ->
  forall n observed w,
    (K <= step w + n)%nat ->
    outcome_of (listen_loop env cfg deadline (S n) observed w) <> OutOfFuel.
Proof.
  intros Hmono HK. induction n as [|n IH]; intros observed w Hn.
  - rewrite listen_loop_unfold. cbv zeta.
    pose proof (monotone_le Hmono K (step w) ltac:(lia)) as Hle.
    replace (clock env (step w) <? deadline) with false
      by (symmetry; apply Z.ltb_ge; lia).
    discriminate.
  - rewrite listen_loop_unfold. cbv zeta.
    destruct (_ <? deadline); [|discriminate].
    destruct (_read_one_frame_from_serial env cfg (reads w)) as [f|[]];
      try discriminate.
    + cbn [prepend outcome_of]. apply IH. cbn [after step]. lia.
    + destruct (_ >=? deadline); [discriminate|].
      cbn [prepend outcome_of]. apply IH. cbn [after step]. lia.
Qed.

(** More fuel does not change a run that came to an end. *)
Lemma listen_loop_more_fuel deadline fuel : forall observed w,
  outcome_of (listen_loop env cfg deadline fuel observed w) <> OutOfFuel ->
  listen_loop env cfg deadline (S fuel) observed w
  = listen_loop env cfg deadline fuel observed w.
Proof.
  induction fuel as [|fuel IH]; intros observed w;
    [intros H; exfalso; apply H; reflexivity|].
  rewrite (listen_loop_unfold deadline (S fuel)).
  rewrite (listen_loop_unfold deadline fuel). cbv zeta.
  destruct (_ <? deadline); [|reflexivity].
  destruct (_read_one_frame_from_serial env cfg (reads w)) as [f|[]];
    try reflexivity.
  - cbn [prepend outcome_of]. intros H. rewrite (IH _ _ H). reflexivity.
  - destruct (_ >=? deadline); [reflexivity|].
    cbn [prepend outcome_of]. intros H. rewrite (IH _ _ H). reflexivity.
Qed.

(** *** Rules for the actions a computation emits *)

Lemma emits_only_ret {A} ok (a : A) : emits_only ok (ret a).
Proof. intros w. reflexivity. Qed.

Lemma emits_only_bind {A B} ok (m : M A) (k : A -> M B) :
  emits_only ok m -> (forall a, emits_only ok (k a)) ->
  emits_only ok (bind m k).
Proof.
  intros Hm Hk w. unfold bind. cbv beta zeta. specialize (Hm w).
  destruct (outcome_of (m w)); cbn [log_of]; try exact Hm.
  rewrite forallb_app, Hm. apply Hk.
Qed.

Lemma emits_only_act ok ev : ok ev = true -> emits_only ok (act env ev).
Proof. intros H w. cbn. rewrite H. reflexivity. Qed.

Lemma emits_only_time ok : ok EvTime = true -> emits_only ok (time_time env).
Proof. intros H w. cbn. rewrite H. reflexivity. Qed.

Lemma emits_only_sleep ok d :
  (forall ticks, ok (EvSleep ticks) = true) ->
  emits_only ok (time_sleep env d).
Proof.
  intros H w. unfold time_sleep. destruct d as [ticks| | |];
    try reflexivity.
  destruct (sleep_fits env ticks); [|reflexivity].
  destruct (ticks <? 0); [reflexivity|].
  cbn. rewrite H. reflexivity.
Qed.

Lemma emits_only_flush ok :
  ok EvFlush = true -> emits_only ok (ser_flush env).
Proof. intros H w. cbn. rewrite H. reflexivity. Qed.

Lemma emits_only_read ok :
  (forall r, ok (EvReadFrame r) = true) ->
  emits_only ok (read_one_frame env cfg).
Proof. intros H w. cbn. rewrite H. reflexivity. Qed.

Lemma emits_only_write ok data :
  ok (EvWrite data) = true -> emits_only ok (ser_write env data).
Proof. intros H w. cbn. rewrite H. reflexivity. Qed.

Lemma emits_only_except {A} ok (m : M A) :
  emits_only ok m -> emits_only ok (except_TimeoutError m).
Proof. intros H w. exact (H w). Qed.

Lemma read_frames_loop_no_close label remaining : forall idx,
  emits_only not_close (read_frames_loop env cfg label remaining idx).
Proof.
  induction remaining as [|n IH]; intros idx; [apply emits_only_ret|].
  cbn [read_frames_loop].
  apply emits_only_bind; [apply emits_only_read; reflexivity|]. intros f.
  apply emits_only_bind; [apply emits_only_act; reflexivity|]. intros _.
  apply IH.
Qed.

Lemma read_frames_no_close count label delay :
  emits_only not_close (_read_frames env cfg count label delay).
Proof.
  unfold _read_frames. apply emits_only_bind.
  - destruct delay as [d|]; [|apply emits_only_ret].
    destruct (truthy d); [|apply emits_only_ret].
    apply emits_only_sleep; reflexivity.
  - intros _. apply read_frames_loop_no_close.
Qed.

Lemma send_loop_no_close count delay requests : forall req_idx,
  emits_only not_close (send_loop env cfg requests req_idx count delay).
Proof.
  induction requests as [|request rest IH]; intros req_idx;
    [apply emits_only_ret|].
  cbn [send_loop].
  apply emits_only_bind; [apply emits_only_write; reflexivity|]. intros _.
  apply emits_only_bind; [apply emits_only_flush; reflexivity|]. intros _.
  apply emits_only_bind; [apply emits_only_act; reflexivity|]. intros _.
  apply emits_only_bind; [apply read_frames_no_close|]. intros _.
  apply IH.
Qed.

Lemma listen_loop_no_close deadline fuel : forall observed,
  emits_only not_close (listen_loop env cfg deadline fuel observed).
Proof.
  induction fuel as [|fuel IH]; intros observed; [intros w; reflexivity|].
  cbn [listen_loop].
  apply emits_only_bind; [apply emits_only_time; reflexivity|]. intros now.
  destruct (now <? deadline); [|apply emits_only_ret].
  apply emits_only_bind;
    [apply emits_only_except, emits_only_read; reflexivity|].
  intros [f|].
  - apply emits_only_bind; [apply emits_only_act; reflexivity|]. intros _.
    apply IH.
  - apply emits_only_bind; [apply emits_only_time; reflexivity|]. intros t.
    destruct (t >=? deadline); [apply emits_only_ret|apply IH].
Qed.

(** Neither phase closes the link. *)
Lemma session_no_close args parsed fuel :
  emits_only not_close (session env cfg args parsed fuel).
Proof.
  unfold session. apply emits_only_bind.
  - unfold _listen_for_initial_values.
    apply emits_only_bind; [apply emits_only_time; reflexivity|]. intros now.
    apply emits_only_bind; [apply listen_loop_no_close|]. intros observed.
    destruct (observed =? 0);
      [apply emits_only_act; reflexivity|apply emits_only_ret].
  - intros _. destruct parsed as [|request rest].
    + apply emits_only_act; reflexivity.
    + apply send_loop_no_close.
Qed.

(** *** A read that raises ends the active phase *)

Lemma failed_read_last_single {A} (o : outcome A) w t ev :
  (forall e, ev = EvReadFrame (Raises e) -> o = Raised e) ->
  failed_read_last {| outcome_of := o; world_of := w; log_of := [(t, ev)] |}.
Proof.
  intros H pre t' e post Heq. cbn [log_of] in Heq.
  destruct pre as [|p [|p' pre]]; try discriminate.
  injection Heq as _ Hev Hpost. subst post. split; [reflexivity|].
  apply H. exact Hev.
Qed.

Lemma failed_read_last_bind {A B} (m : M A) (k : A -> M B) w :
  failed_read_last (m w) ->
  (forall a w', failed_read_last (k a w')) ->
  failed_read_last (bind m k w).
Proof.
  intros Hm Hk. unfold bind. cbv beta zeta.
  destruct (outcome_of (m w)) as [a|e0|] eqn:Hout.
  - intros pre t e post Heq. cbn [log_of outcome_of] in *.
    apply app_eq_app in Heq as [l [[Hl Hr]|[Hl Hr]]].
    + destruct l as [|x l].
      * cbn [app] in Hr. apply (Hk a (world_of (m w)) [] t e post).
        symmetry. exact Hr.
      * cbn [app] in Hr. injection Hr as <- _.
        destruct (Hm pre t e l Hl) as [_ Hraised].
        rewrite Hout in Hraised. discriminate.
    + apply (Hk a (world_of (m w)) l t e post). exact Hr.
  - intros pre t e post Heq. cbn [log_of outcome_of] in *.
    destruct (Hm pre t e post Heq) as [Hpost Hraised].
    rewrite Hout in Hraised. injection Hraised as ->.
    split; [exact Hpost|reflexivity].
  - intros pre t e post Heq. cbn [log_of outcome_of] in *.
    destruct (Hm pre t e post Heq) as [Hpost Hraised].
    rewrite Hout in Hraised. discriminate.
Qed.

Lemma failed_read_last_nil {A} (o : outcome A) w :
  failed_read_last {| outcome_of := o; world_of := w; log_of := [] |}.
Proof. intros [|p pre] t e post Heq; discriminate. Qed.

Lemma read_frames_loop_failed_read_last label remaining : forall idx w,
  failed_read_last (read_frames_loop env cfg label remaining idx w).
Proof.
  induction remaining as [|n IH]; intros idx w;
    [apply failed_read_last_nil|].
  cbn [read_frames_loop]. apply failed_read_last_bind.
  - apply failed_read_last_single. intros e He. injection He as ->.
    reflexivity.
  - intros f w'. apply failed_read_last_bind.
    + apply failed_read_last_single. discriminate.
    + intros _ w''. apply IH.
Qed.

Lemma read_frames_failed_read_last count label delay w :
  failed_read_last (_read_frames env cfg count label delay w).
Proof.
  unfold _read_frames. apply failed_read_last_bind.
  - destruct delay as [d|]; [|apply failed_read_last_nil].
    destruct (truthy d); [|apply failed_read_last_nil].
    unfold time_sleep. destruct d as [ticks| | |];
      try apply failed_read_last_nil.
    destruct (sleep_fits env ticks); [|apply failed_read_last_nil].
    destruct (ticks <? 0); [apply failed_read_last_nil|].
    apply failed_read_last_single. discriminate.
  - intros _ w'. apply read_frames_loop_failed_read_last.
Qed.

Lemma send_loop_failed_read_last count delay requests : forall req_idx w,
  failed_read_last (send_loop env cfg requests req_idx count delay w).
Proof.
  induction requests as [|request rest IH]; intros req_idx w;
    [apply failed_read_last_nil|].
  cbn [send_loop].
  apply failed_read_last_bind;
    [apply failed_read_last_single; discriminate|]. intros _ w1.
  apply failed_read_last_bind;
    [apply failed_read_last_single; discriminate|]. intros _ w2.
  apply failed_read_last_bind;
    [apply failed_read_last_single; discriminate|]. intros _ w3.
  apply failed_read_last_bind; [apply read_frames_failed_read_last|].
  intros _ w4. apply IH.
Qed.

Lemma bind_run_done {A B} (m : M A) (k : A -> M B) w a w' l :
  m w = {| outcome_of := Done a; world_of := w'; log_of := l |} ->
  bind m k w = prepend l (k a w').
Proof. unfold bind, prepend. intros ->. reflexivity. Qed.

(** *** The actions of the active phase when every call succeeds *)

Lemma response_events_cons label idx f frames :
  response_events label idx (f :: frames) =
  [EvReadFrame (Returns f);
   EvStdout (label ++ " " ++ str_of_int (Z.of_nat idx) ++ ": "
             ++ _format_bytes f)%string]
  ++ response_events label (S idx) frames.
Proof. reflexivity. Qed.

Lemma read_frames_loop_trace label : forall remaining idx w,
  (forall k, (k < remaining)%nat ->
     exists f, _read_one_frame_from_serial env cfg (reads w + k) = Returns f) ->
  let r := read_frames_loop env cfg label remaining (Z.of_nat idx) w in
  outcome_of r = Done tt /\
  reads (world_of r) = (reads w + remaining)%nat /\
  writes (world_of r) = writes w /\
  map snd (log_of r)
  = response_events label idx (map (frame_at env cfg) (seq (reads w) remaining)).
Proof.
  induction remaining as [|n IH]; intros idx w Hframes; cbv zeta.
  - cbn. repeat split. lia.
  - destruct (Hframes 0%nat ltac:(lia)) as [f Hf]. rewrite Nat.add_0_r in Hf.
    pose (w2 := {| step := S (S (step w)); reads := S (reads w);
                   writes := writes w |}).
    assert (Hstep :
      read_frames_loop env cfg label (S n) (Z.of_nat idx) w
      = prepend [(clock env (step w), EvReadFrame (Returns f));
                 (clock env (S (step w)),
                  EvStdout (label ++ " " ++ str_of_int (Z.of_nat idx) ++ ": "
                            ++ _format_bytes f)%string)]
                (read_frames_loop env cfg label n (Z.of_nat (S idx)) w2)).
    { rewrite Nat2Z.inj_succ, <- Z.add_1_r.
      cbn [read_frames_loop].
      unfold bind, read_one_frame, print, act, prepend, w2.
      cbn [outcome_of world_of log_of tick step reads writes].
      rewrite Hf. reflexivity. }
    rewrite Hstep. cbn [prepend outcome_of world_of log_of].
    destruct (IH (S idx) w2) as (Ho & Hr & Hw & Hlog).
    { intros k Hk. destruct (Hframes (S k) ltac:(lia)) as [g Hg].
      exists g. cbn [w2 reads].
      replace (S (reads w) + k)%nat with (reads w + S k)%nat by lia.
      exact Hg. }
    cbv zeta in Ho, Hr, Hw, Hlog. cbn [w2 reads writes] in Hr, Hw, Hlog.
    assert (Hfa : frame_at env cfg (reads w) = f)
      by (unfold frame_at; rewrite Hf; reflexivity).
    repeat split; [exact Ho|lia|exact Hw|].
    cbn [app map snd seq]. rewrite Hlog, response_events_cons, Hfa.
    reflexivity.
Qed.

Lemma read_frames_trace label count delay w :
  0 <= delay ->
  sleep_fits env delay = true ->
  (forall k, (k < Z.to_nat count)%nat ->
     exists f, _read_one_frame_from_serial env cfg (reads w + k) = Returns f) ->
  let r := _read_frames env cfg count label (Some (Finite delay)) w in
  outcome_of r = Done tt /\
  reads (world_of r) = (reads w + Z.to_nat count)%nat /\
  writes (world_of r) = writes w /\
  map snd (log_of r)
  = sleep_events delay
    ++ response_events label 1
         (map (frame_at env cfg) (seq (reads w) (Z.to_nat count))).
Proof.
  intros Hdelay Hfits Hframes. cbv zeta.
  unfold _read_frames, sleep_events, time_sleep, truthy. rewrite Hfits.
  replace (delay <? 0) with false by (symmetry; apply Z.ltb_ge; exact Hdelay).
  destruct (delay =? 0); cbn [negb].
  - unfold bind, ret. cbn [outcome_of world_of log_of app].
    exact (read_frames_loop_trace label (Z.to_nat count) 1 w Hframes).
  - unfold bind, act. cbn [outcome_of world_of log_of app map snd].
    destruct (read_frames_loop_trace label (Z.to_nat count) 1 (tick w) Hframes)
      as (Ho & Hr & Hw & Hlog).
    cbv zeta in Ho, Hr, Hw, Hlog. cbn [tick reads writes] in Hr, Hw, Hlog.
    change (Z.of_nat 1) with 1 in Ho, Hr, Hw, Hlog.
    repeat split; [exact Ho|exact Hr|exact Hw|].
    rewrite Hlog. reflexivity.
Qed.

Lemma send_loop_trace count delay first_read : forall reqs i w,
  0 <= delay ->
  sleep_fits env delay = true ->
  (1 <= i)%nat ->
  reads w = (first_read + (i - 1) * Z.to_nat count)%nat ->
  (forall k, (k < List.length reqs)%nat ->
     write_reply env (writes w + k) = Returns tt) ->
  (forall k, (k < List.length reqs)%nat ->
     flush_reply env (S (writes w + k)) = Returns tt) ->
  (forall k, (k < List.length reqs * Z.to_nat count)%nat ->
     exists f, _read_one_frame_from_serial env cfg (reads w + k) = Returns f) ->
  let r := send_loop env cfg reqs (Z.of_nat i) count (Finite delay) w in
  outcome_of r = Done tt /\
  reads (world_of r) = (reads w + List.length reqs * Z.to_nat count)%nat /\
  writes (world_of r) = (writes w + List.length reqs)%nat /\
  map snd (log_of r)
  = flat_map (fun '(i, request) =>
                exchange_events env cfg (Z.to_nat count) delay first_read
                                i request)
             (combine (seq i (List.length reqs)) reqs).
Proof.
  induction reqs as [|request rest IH];
    intros i w Hdelay Hfits Hi Hreads Hwrites Hflushes Hframes; cbv zeta.
  - cbn. repeat split; lia.
  - pose proof (Hwrites 0%nat ltac:(cbn; lia)) as Hw0.
    rewrite Nat.add_0_r in Hw0.
    pose proof (Hflushes 0%nat ltac:(cbn; lia)) as Hf0.
    rewrite Nat.add_0_r in Hf0.
    pose (w3 := {| step := S (S (S (step w))); reads := reads w;
                   writes := S (writes w) |}).
    destruct (read_frames_trace
                ("Response to request " ++ str_of_int (Z.of_nat i))%string
                count delay w3 Hdelay Hfits) as (Ho & Hr & Hw & Hlog).
    { intros k Hk. apply Hframes. cbn [List.length]. lia. }
    cbv zeta in Ho, Hr, Hw, Hlog. cbn [w3 reads writes] in Hr, Hw.
    set (r4 := _read_frames env cfg count
                 ("Response to request " ++ str_of_int (Z.of_nat i))%string
                 (Some (Finite delay)) w3) in *.
    destruct (IH (S i) (world_of r4) Hdelay Hfits ltac:(lia))
      as (Ho' & Hr' & Hw' & Hlog').
    { rewrite Hr, Hreads. replace (S i - 1)%nat with (S (i - 1)) by lia. lia. }
    { intros k Hk. rewrite Hw.
      replace (S (writes w) + k)%nat with (writes w + S k)%nat by lia.
      apply Hwrites. cbn [List.length]. lia. }
    { intros k Hk. rewrite Hw.
      replace (S (writes w) + k)%nat with (writes w + S k)%nat by lia.
      apply Hflushes. cbn [List.length]. lia. }
    { intros k Hk. rewrite Hr.
      replace (reads w + Z.to_nat count + k)%nat
        with (reads w + (Z.to_nat count + k))%nat by lia.
      apply Hframes. cbn [List.length]. lia. }
    cbv zeta in Ho', Hr', Hw', Hlog'.
    assert (Hstep :
      send_loop env cfg (request :: rest) (Z.of_nat i) count (Finite delay) w
      = prepend ([(clock env (step w), EvWrite request);
                  (clock env (S (step w)), EvFlush);
                  (clock env (S (S (step w))),
                   EvStdout (sent_line (Z.of_nat i) request))]
                 ++ log_of r4)
                (send_loop env cfg rest (Z.of_nat (S i)) count (Finite delay)
                           (world_of r4))).
    { rewrite (Nat2Z.inj_succ i), <- Z.add_1_r.
      cbn [send_loop].
      rewrite (bind_run_done (ser_write env request) _ w tt
                 {| step := S (step w); reads := reads w;
                    writes := S (writes w) |}
                 [(clock env (step w), EvWrite request)])
        by (unfold ser_write; rewrite Hw0; reflexivity).
      cbv beta.
      rewrite (bind_run_done (ser_flush env) _ _ tt
                 {| step := S (S (step w)); reads := reads w;
                    writes := S (writes w) |}
                 [(clock env (S (step w)), EvFlush)])
        by (unfold ser_flush; cbn [writes step]; rewrite Hf0; reflexivity).
      cbv beta.
      rewrite (bind_run_done (print env _) _ _ tt w3
                 [(clock env (S (S (step w))),
                   EvStdout (sent_line (Z.of_nat i) request))])
        by reflexivity.
      cbv beta.
      rewrite (bind_run_done (_read_frames env cfg count _
                                (Some (Finite delay))) _ w3
                 tt (world_of r4) (log_of r4))
        by (subst r4;
            destruct (_read_frames env cfg count _ (Some (Finite delay)) w3);
            cbn [outcome_of] in Ho; rewrite Ho; reflexivity).
      unfold prepend. cbn [outcome_of world_of log_of app].
      reflexivity. }
    rewrite Hstep. cbn [prepend outcome_of world_of log_of].
    repeat split.
    + exact Ho'.
    + rewrite Hr', Hr. cbn [List.length]. lia.
    + rewrite Hw', Hw. cbn [List.length]. lia.
    + rewrite !map_app, Hlog', Hlog. cbn [map snd seq List.length combine flat_map].
      unfold exchange_events at 2.
      change (reads w3) with (reads w). rewrite Hreads. reflexivity.
Qed.


(** *** How the listen loop ends *)

(** The loop returns only on a reading of the clock at or after the
    deadline, and that reading is its last action. *)
Lemma listen_loop_done_at_deadline deadline fuel : forall observed w o,
  outcome_of (listen_loop env cfg deadline fuel observed w) = Done o ->
  exists pre t,
    log_of (listen_loop env cfg deadline fuel observed w)
    = pre ++ [(t, EvTime)] /\ deadline <= t.
Proof.
  induction fuel as [|fuel IH]; intros observed w o; [discriminate|].
  rewrite listen_loop_unfold. cbv zeta.
  destruct (clock env (step w) <? deadline) eqn:Hnow.
  2:{ intros _. exists [], (clock env (step w)). split; [reflexivity|].
      apply Z.ltb_ge in Hnow. exact Hnow. }
  destruct (_read_one_frame_from_serial env cfg (reads w)) as [f|[]];
    try discriminate.
  - cbn [prepend outcome_of log_of]. intros Hdone.
    destruct (IH _ _ _ Hdone) as (pre & t & -> & Ht).
    exists ([(clock env (step w), EvTime);
             (clock env (1 + step w)%nat, EvReadFrame (Returns f));
             (clock env (2 + step w)%nat,
              EvStdout (frame_line (observed + 1) f))] ++ pre), t.
    rewrite <- app_assoc. split; [reflexivity|exact Ht].
  - destruct (clock env (2 + step w)%nat >=? deadline) eqn:Hlate.
    + intros _.
      exists [(clock env (step w), EvTime);
              (clock env (1 + step w)%nat, timed_out_read)],
             (clock env (2 + step w)%nat).
      split; [reflexivity|]. rewrite Z.geb_leb in Hlate.
      apply Z.leb_le in Hlate. exact Hlate.
    + cbn [prepend outcome_of log_of]. intros Hdone.
      destruct (IH _ _ _ Hdone) as (pre & t & -> & Ht).
      exists ([(clock env (step w), EvTime);
               (clock env (1 + step w)%nat, timed_out_read);
               (clock env (2 + step w)%nat, EvTime)] ++ pre), t.
      rewrite <- app_assoc. split; [reflexivity|exact Ht].
Qed.

(** The loop raises only what a call of the frame reader raised. *)
Lemma listen_loop_raises deadline fuel : forall observed w e,
  outcome_of (listen_loop env cfg deadline fuel observed w) = Raised e ->
  exists k, _read_one_frame_from_serial env cfg k = Raises e.
Proof.
  induction fuel as [|fuel IH]; intros observed w e; [discriminate|].
  rewrite listen_loop_unfold. cbv zeta.
  destruct (clock env (step w) <? deadline); [|discriminate].
  destruct (_read_one_frame_from_serial env cfg (reads w)) as [f|e0] eqn:Hr.
  - cbn [prepend outcome_of]. apply IH.
  - destruct e0.
    + destruct (clock env (2 + step w)%nat >=? deadline); [discriminate|].
      cbn [prepend outcome_of]. apply IH.
    + intros H. injection H as <-. exists (reads w). exact Hr.
    + intros H. injection H as <-. exists (reads w). exact Hr.
    + intros H. injection H as <-. exists (reads w). exact Hr.
Qed.
End PhaseFacts.

(* ================================================================== *)
(** ** The claims about the hex codec *)
(* ================================================================== *)

Section CodecClaims.

Lemma leading_zero_all_decimal token :
  leading_zero_decimal token = true ->
  all_chars is_decimal_digit token = true.
Proof.
  destruct token as [|c0 [|c1 rest]]; try discriminate.
  unfold leading_zero_decimal. intros H.
  apply andb_true_iff in H as [H0 Hrest].
  change (is_decimal_digit c0 && all_chars is_decimal_digit (String c1 rest)
          = true).
  rewrite Hrest, andb_true_r.
  unfold is_zero_digit in H0. apply N.eqb_eq in H0.
  unfold is_decimal_digit. rewrite H0. reflexivity.
Qed.

(** C2 (the code departs from it).  The first example of the docstring of
    [_parse_hex_sequence], [7E 14,17 00], does not parse: its token [7E]
    is read as a base 0 literal and raises [ValueError].  The second
    example, with [0x] before every byte, gives the bytes 7E 14 17 00. *)
Theorem parse_hex_sequence_docstring_examples :
  _parse_hex_sequence "7E 14,17 00"
    = ValueError "Could not parse '7E' as a hex byte" /\
  _parse_hex_sequence "0x7E,0x14,0x17,0x00" = Ok [x7e; x14; x17; x00].
Proof. split; vm_compute; reflexivity. Qed.

(** C3 (the code departs from it).  The text [0x7E] parses to the byte 7E,
    [_format_bytes] renders that byte as [7E], and this rendering does
    not parse; the rendering [10] of the byte parsed from [16] parses to
    another byte. *)
Theorem format_then_parse_fails :
  _parse_hex_sequence "0x7E" = Ok [x7e] /\
  _format_bytes [x7e] = "7E" /\
  _parse_hex_sequence (_format_bytes [x7e])
    = ValueError "Could not parse '7E' as a hex byte" /\
  _parse_hex_sequence "16" = Ok [x10] /\
  _parse_hex_sequence (_format_bytes [x10]) = Ok [x0a].
Proof. repeat split; vm_compute; reflexivity. Qed.

(** C6.  [_parse_hex_sequence] raises [ValueError], and so returns no
    bytes, on the empty text, on a text of separators only, on [0x100]
    (256 is outside 0..255) and on [ZZ] (not an integer literal). *)
Theorem parse_hex_sequence_rejects :
  _parse_hex_sequence EmptyString
    = ValueError "Empty request cannot be converted to bytes" /\
  _parse_hex_sequence " , ; "
    = ValueError "No hex tokens found in request string" /\
  _parse_hex_sequence "0x100"
    = ValueError "Value 256 from '0x100' is outside byte range" /\
  _parse_hex_sequence "ZZ" = ValueError "Could not parse 'ZZ' as a hex byte".
Proof. repeat split; vm_compute; reflexivity. Qed.

(** C9, as the claim states it, fails: [00] has two digits, starts with 0
    and has no base prefix, and it parses to the byte 0. *)
Lemma leading_zero_token_00_accepted :
  ~ (forall token, leading_zero_decimal token = true ->
       exists msg, _parse_hex_sequence token = ValueError msg).
Proof.
  intros H. destruct (H "00" eq_refl) as [msg Hmsg].
  vm_compute in Hmsg. discriminate.
Qed.

Lemma parse_hex_sequence_in_order_witness :
  exists data,
    _parse_hex_sequence "0x7E,20 0b11" = Ok data /\
    map byte_value data = [126; 20; 3].
Proof.
  assert (Htokens : hex_tokens "0x7E,20 0b11" = ["0x7E"; "20"; "0b11"])
    by (vm_compute; reflexivity).
  apply (parse_hex_sequence_in_order "0x7E,20 0b11" [126; 20; 3]).
  - rewrite Htokens. discriminate.
  - rewrite Htokens.
    repeat (constructor; [split; [vm_compute; reflexivity|lia]|]).
    constructor.
Defined.

End CodecClaims.

(* ================================================================== *)
(** ** The claims about the two phases and the session *)
(* ================================================================== *)

Section PhaseClaims.

Local Open Scope list_scope.

Lemma no_close_filter log :
  forallb (fun e : stamped => not_close (snd e)) log = true ->
  filter is_close log = [].
Proof.
  induction log as [|[t ev] log IH]; [reflexivity|].
  cbn [forallb filter is_close snd]. intros H.
  apply andb_true_iff in H as [Hev Hlog].
  destruct ev; try discriminate; exact (IH Hlog).
Qed.

Lemma parse_requests_all_parse raws : forall acc,
  Forall parses raws -> exists parsed, parse_requests raws acc = inr parsed.
Proof.
  induction raws as [|raw raws IH]; intros acc Hall.
  - exists acc. reflexivity.
  - inversion Hall as [|? ? [request Hraw] Hrest]; subst.
    cbn [parse_requests]. rewrite Hraw. apply IH, Hrest.
Qed.

Lemma parse_requests_first_failure good raw rest msg : forall acc,
  Forall parses good ->
  _parse_hex_sequence raw = ValueError msg ->
  parse_requests (good ++ raw :: rest) acc = inl (raw, msg).
Proof.
  induction good as [|g good IH]; intros acc Hgood Hraw.
  - cbn [app parse_requests]. rewrite Hraw. reflexivity.
  - inversion Hgood as [|? ? [request Hg] Hrest]; subst.
    cbn [app parse_requests]. rewrite Hg. apply IH; assumption.
Qed.

(** [main] once the requests are parsed and the link is open. *)
Lemma main_unfold_parsed env args fuel w parsed :
  parse_requests (requests args) [] = inr parsed ->
  open_reply env = Returns tt ->
  main env args fuel w =
  let cfg := make_cfg args in
  let r := session env cfg args parsed fuel (after 2 0 w) in
  let opening := [(clock env (step w), EvBanner (port args) cfg);
                  (clock env (S (step w)), EvOpen (port args) cfg)] in
  let closing := [(clock env (step (world_of r)), EvClose)] in
  match outcome_of r with
  | Done _ =>
      {| outcome_of := Done 0; world_of := after 1 0 (world_of r);
         log_of := opening ++ log_of r ++ closing |}
  | Raised e =>
      {| outcome_of := Raised e; world_of := after 1 0 (world_of r);
         log_of := opening ++ log_of r ++ closing |}
  | OutOfFuel =>
      {| outcome_of := OutOfFuel; world_of := world_of r;
         log_of := opening ++ log_of r |}
  end.
Proof.
  intros Hparse Hopen. cbv zeta. unfold main. rewrite Hparse.
  unfold bind, serial_open, finally, serial_close, act, ret, after, tick.
  cbn [outcome_of world_of log_of step reads writes Nat.add].
  rewrite Hopen. cbn [of_reply outcome_of world_of log_of step reads writes].
  destruct (outcome_of (session env (make_cfg args) args parsed fuel _))
    eqn:Hout;
    cbn [outcome_of world_of log_of app]; rewrite ?Hout, ?app_nil_r;
    reflexivity.
Qed.

(** C1.  While listening, a timeout of the frame reader is never raised
    to the caller, and in a run that came to an end every timed out read
    is followed as [resumes] says: the clock is read, and unless the
    deadline has passed the loop tests the clock again and calls the frame
    reader again.  While querying, a timed out read is the last action of
    the phase, which raises [TimeoutError]: no later request is written.
    A [TimeoutError] that leaves the two phases leaves [main] too. *)
Theorem timeout_absorbed_listening_fatal_querying env cfg :
  (forall secs fuel w,
     let r := _listen_for_initial_values env cfg secs fuel w in
     outcome_of r <> Raised TimeoutError /\
     (outcome_of r <> OutOfFuel ->
      forall pre t post,
        log_of r = pre ++ (t, timed_out_read) :: post ->
        resumes (clock env (step w) + secs) post)) /\
  (forall reqs count delay w,
     let r := _send_requests_and_collect env cfg reqs count delay w in
     forall pre t post,
       log_of r = pre ++ (t, timed_out_read) :: post ->
       post = [] /\ outcome_of r = Raised TimeoutError) /\
  (forall args parsed fuel w,
     parse_requests (requests args) [] = inr parsed ->
     open_reply env = Returns tt ->
     outcome_of (session env (make_cfg args) args parsed fuel (after 2 0 w))
     = Raised TimeoutError ->
     outcome_of (main env args fuel w) = Raised TimeoutError).
Proof.
  split; [|split].
  - intros secs fuel w. cbv zeta. rewrite listen_unfold. cbv zeta.
    set (deadline := clock env (step w) + secs).
    set (loop := listen_loop env cfg deadline fuel 0 (after 1 0 w)).
    pose proof (listen_loop_never_timeout env cfg deadline fuel 0 (after 1 0 w))
      as Hnever.
    pose proof (listen_loop_resumes env cfg deadline fuel 0 (after 1 0 w))
      as Hresumes.
    fold loop in Hnever, Hresumes.
    assert (Hall : forall tail,
              outcome_of loop <> OutOfFuel ->
              each_timeout_resumes deadline tail ->
              filter is_read tail = [] ->
              each_timeout_resumes deadline
                ((clock env (step w), EvTime) :: log_of loop ++ tail)).
    { intros tail Hend Htail Hnone. split; [discriminate|].
      apply each_timeout_resumes_app; auto. }
    destruct (outcome_of loop) as [observed|e|] eqn:Hout.
    + destruct (observed =? 0); (split; [discriminate|]);
        intros _ pre t post Heq;
        refine (each_timeout_resumes_split deadline _ pre t post _ Heq);
        apply Hall; try discriminate; try reflexivity.
      split; [discriminate|exact I].
    + split.
      { intros Habs. injection Habs as ->. apply Hnever.
        rewrite ?Hout. reflexivity. }
      intros _ pre t post Heq.
      refine (each_timeout_resumes_split deadline _ pre t post _ Heq).
      rewrite <- (app_nil_r (log_of loop)).
      apply Hall; try discriminate; reflexivity.
    + split; [discriminate|]. intros H. exfalso. apply H. reflexivity.
  - intros reqs count delay w. cbv zeta. intros pre t post Heq.
    exact (send_loop_failed_read_last env cfg count delay reqs 1 w
             pre t TimeoutError post Heq).
  - intros args parsed fuel w Hparse Hopen Hraised.
    rewrite (main_unfold_parsed env args fuel w parsed Hparse Hopen).
    cbv zeta. rewrite Hraised. reflexivity.
Qed.

Lemma timeout_absorbed_listening_fatal_querying_witness :
  resumes (0 + 2)
    [(3, EvTime);
     (4, EvStdout no_frames_line)] /\
  ([] = @nil stamped /\
   outcome_of (_send_requests_and_collect silent_env sample_cfg
                 [[x7e]; [x14]] 1 (Finite 200) start)
   = Raised TimeoutError).
Proof.
  split.
  - apply (proj2 (proj1 (timeout_absorbed_listening_fatal_querying
                           silent_env sample_cfg) 2 5%nat start)
             ltac:(vm_compute; discriminate)
             [(0, EvTime); (1, EvTime)] 2).
    vm_compute. reflexivity.
  - apply (proj1 (proj2 (timeout_absorbed_listening_fatal_querying
                           silent_env sample_cfg)) [[x7e]; [x14]] 1
             (Finite 200) start
             [(0, EvWrite [x7e]); (1, EvFlush);
              (2, EvStdout "Sent request 1: 7E"); (3, EvSleep 200)] 4).
    vm_compute. reflexivity.
Defined.

(** C4, as the claim states it, fails on the line reported for a
    response: for one request answered by the frame [01] the phase reads
    that frame, and the line [Response to request 1: 1: 01] the claim
    words is not printed (the line printed has no colon after the number
    of the request). *)
Lemma spec_response_line_not_printed :
  let r := _send_requests_and_collect echo_env sample_cfg [[x7e]] 1
             (Finite 200) start in
  In (EvReadFrame (Returns [x01])) (map snd (log_of r)) /\
  response_line 1 1 [x01] = "Response to request 1 1: 01" /\
  In (EvStdout (response_line 1 1 [x01])) (map snd (log_of r)) /\
  ~ In (EvStdout (spec_response_line 1 1 [x01])) (map snd (log_of r)).
Proof.
  vm_compute. repeat split; try tauto.
  intros H. repeat (destruct H as [H|H]; [discriminate H|]). exact H.
Qed.

(** C4, amended.  When the settling delay is a finite length, not
    negative, that [time.sleep] accepts, and no write, no flush and no
    call of the frame reader raises, the active phase returns
    after exactly the actions of [active_events]: for each request in
    order, numbered from 1, the write of its bytes, the flush, the line
    [Sent request i: <hex>], one sleep of the delay (none when it is
    zero), then [responses_per_request] calls of the frame reader (none
    when that number is not positive), each followed by the line
    [Response to request i <index>: <hex>]; the actions of one request
    all precede those of the next. *)
Theorem active_phase_exchanges env cfg reqs count delay w :
  0 <= delay ->
  sleep_fits env delay = true ->
  (forall k, (k < List.length reqs)%nat ->
     write_reply env (writes w + k) = Returns tt) ->
  (forall k, (k < List.length reqs)%nat ->
     flush_reply env (S (writes w + k)) = Returns tt) ->
  (forall k, (k < List.length reqs * Z.to_nat count)%nat ->
     exists f, _read_one_frame_from_serial env cfg (reads w + k) = Returns f) ->
  let r := _send_requests_and_collect env cfg reqs count (Finite delay) w in
  outcome_of r = Done tt /\
  map snd (log_of r)
  = active_events env cfg reqs (Z.to_nat count) delay (reads w).
Proof.
  intros Hdelay Hfits Hwrites Hflushes Hframes. cbv zeta.
  unfold _send_requests_and_collect, active_events.
  destruct (send_loop_trace env cfg count delay (reads w) reqs 1 w Hdelay
              Hfits (le_n 1) ltac:(cbn; lia) Hwrites Hflushes Hframes)
    as (Ho & _ & _ & Hlog).
  split; [exact Ho|exact Hlog].
Qed.

Lemma active_phase_exchanges_witness :
  map snd (log_of (_send_requests_and_collect echo_env sample_cfg
                     [[x7e; x14]; [x7e; x15]] 1 (Finite 200) start))
  = [EvWrite [x7e; x14]; EvFlush; EvStdout "Sent request 1: 7E, 14";
     EvSleep 200; EvReadFrame (Returns [x01]);
     EvStdout "Response to request 1 1: 01";
     EvWrite [x7e; x15]; EvFlush; EvStdout "Sent request 2: 7E, 15";
     EvSleep 200; EvReadFrame (Returns [x01]);
     EvStdout "Response to request 2 1: 01"].
Proof.
  rewrite (proj2 (active_phase_exchanges echo_env sample_cfg
                    [[x7e; x14]; [x7e; x15]] 1 200 start
                    ltac:(lia)
                    eq_refl
                    (fun k _ => eq_refl)
                    (fun k _ => eq_refl)
                    (fun k _ => ex_intro _ [x01] eq_refl))).
  vm_compute. reflexivity.
Defined.

(** C5, as the claim states it, fails when the clock is set back while
    the phase listens: with a budget of 1 and the clock readings 10, 5,
    12, 12, 5, 13, 13, 20 the deadline is 11, and two calls of the frame
    reader start after it has passed, at 12 and at 13. *)
Lemma two_late_reads_when_clock_set_back :
  let r := _listen_for_initial_values rewinding_env sample_cfg 1 4 start in
  outcome_of r = Done tt /\
  filter (late_read (10 + 1)) (log_of r)
  = [(12, EvReadFrame (Returns [x01])); (13, EvReadFrame (Returns [x01]))].
Proof. vm_compute. split; reflexivity. Qed.

(** C5, amended.  With a clock that never goes back and that reaches the
    deadline (at action [K], say), the listen phase comes to an end for
    every behaviour of the frame reader, whatever fuel above [K - step w]
    it is given, and at most one call of the frame reader starts at or
    after the deadline.  It does not stop early: it returns only after a
    reading of the clock at or after the deadline, with no call of the
    frame reader after that reading.  And it does return when the frame
    reader only returns frames or times out. *)
Theorem listen_stops_within_one_read_of_deadline env cfg secs w K fuel :
  monotone (clock env) ->
  clock env (step w) + secs <= clock env K ->
  (K - step w < fuel)%nat ->
  let deadline := clock env (step w) + secs in
  let r := _listen_for_initial_values env cfg secs fuel w in
  outcome_of r <> OutOfFuel /\
  (List.length (filter (late_read deadline) (log_of r)) <= 1)%nat /\
  (outcome_of r = Done tt ->
   exists pre t post,
     log_of r = pre ++ (t, EvTime) :: post /\
     deadline <= t /\
     filter is_read post = []) /\
  ((forall k e, _read_one_frame_from_serial env cfg k = Raises e ->
                e = TimeoutError) ->
   outcome_of r = Done tt).
Proof.
  intros Hmono HK Hfuel. cbv zeta. rewrite listen_unfold. cbv zeta.
  set (deadline := clock env (step w) + secs) in *.
  destruct fuel as [|n]; [lia|].
  pose proof (listen_loop_terminates env cfg deadline K Hmono HK n 0
                (after 1 0 w) ltac:(cbn [after step]; lia)) as Hend.
  pose proof (listen_loop_one_late_read env cfg deadline (S n) Hmono 0
                (after 1 0 w)) as Hlate.
  pose proof (listen_loop_done_at_deadline env cfg deadline (S n) 0
                (after 1 0 w)) as Hdone.
  pose proof (listen_loop_raises env cfg deadline (S n) 0 (after 1 0 w))
    as Hraises.
  pose proof (listen_loop_never_timeout env cfg deadline (S n) 0
                (after 1 0 w)) as Hnever.
  set (loop := listen_loop env cfg deadline (S n) 0 (after 1 0 w)) in *.
  destruct (outcome_of loop) as [observed|e|]; [| |contradiction].
  - destruct (Hdone observed eq_refl) as (pre & t & Hlog & Ht).
    destruct (observed =? 0); cbn [outcome_of log_of];
      (split; [discriminate|]);
      (split;
       [cbn [log_of filter late_read is_read snd andb];
        rewrite ?filter_app; cbn [filter late_read is_read snd andb];
        rewrite ?app_nil_r; exact Hlate|]);
      (split; [|reflexivity]); intros _.
    + exists ((clock env (step w), EvTime) :: pre), t,
        [(clock env (step (world_of loop)), EvStdout no_frames_line)].
      rewrite Hlog, <- app_assoc.
      split; [reflexivity|split; [exact Ht|reflexivity]].
    + exists ((clock env (step w), EvTime) :: pre), t, [].
      rewrite Hlog, app_nil_r.
      split; [reflexivity|split; [exact Ht|reflexivity]].
  - cbn [outcome_of log_of]. split; [discriminate|].
    split; [cbn [log_of filter late_read is_read snd andb]; exact Hlate|].
    split; [discriminate|].
    intros Honly. exfalso. destruct (Hraises e eq_refl) as [k Hk].
    apply Hnever. rewrite (Honly k e Hk). reflexivity.
Qed.

Lemma listen_stops_within_one_read_of_deadline_witness :
  let deadline := clock echo_env (step start) + 4 in
  let r := _listen_for_initial_values echo_env sample_cfg 4 5 start in
  outcome_of r <> OutOfFuel /\
  (List.length (filter (late_read deadline) (log_of r)) <= 1)%nat /\
  (outcome_of r = Done tt ->
   exists pre t post,
     log_of r = pre ++ (t, EvTime) :: post /\
     deadline <= t /\
     filter is_read post = []) /\
  ((forall k e,
      _read_one_frame_from_serial echo_env sample_cfg k = Raises e ->
      e = TimeoutError) ->
   outcome_of r = Done tt).
Proof.
  apply (listen_stops_within_one_read_of_deadline echo_env sample_cfg 4 start
           4 5).
  - intros k. cbn [echo_env clock]. lia.
  - vm_compute. discriminate.
  - cbn. lia.
Defined.

(** C10, as the claim states it, fails when the clock is set back
    between the reading that fixes the deadline and the first test of
    the loop: with a budget of 0 and the clock readings 10, 5, ... the
    deadline is 10, the test at 5 passes, and the frame reader is called;
    the line that no frame was captured is not printed. *)
Lemma zero_budget_reads_when_clock_set_back :
  let r := _listen_for_initial_values rewinding_env sample_cfg 0 4 start in
  outcome_of r = Done tt /\
  In (5, EvTime) (log_of r) /\
  In (12, EvReadFrame (Returns [x01])) (log_of r) /\
  ~ In (EvStdout no_frames_line) (map snd (log_of r)).
Proof.
  vm_compute. repeat split; try tauto.
  intros H. repeat (destruct H as [H|H]; [discriminate H|]). exact H.
Qed.

(** C10, amended.  With a budget that is zero or negative, and a clock
    that does not go back between the two readings, the listen phase
    reads the clock twice, prints the line that no frame was captured
    and returns: the frame reader is not called and nothing is written
    to the link. *)
Theorem listen_zero_budget_reads_nothing env cfg secs fuel w :
  secs <= 0 ->
  clock env (step w) <= clock env (S (step w)) ->
  _listen_for_initial_values env cfg secs (S fuel) w
  = {| outcome_of := Done tt;
       world_of := {| step := 3 + step w; reads := reads w;
                      writes := writes w |};
       log_of := [(clock env (step w), EvTime);
                  (clock env (S (step w)), EvTime);
                  (clock env (S (S (step w))), EvStdout no_frames_line)] |}.
Proof.
  intros Hsecs Hclock. rewrite listen_unfold. cbv zeta.
  rewrite listen_loop_unfold. cbv zeta. cbn [after step reads writes Nat.add].
  replace (clock env (S (step w)) <? clock env (step w) + secs) with false
    by (symmetry; apply Z.ltb_ge; lia).
  reflexivity.
Qed.

Lemma listen_zero_budget_reads_nothing_witness :
  _listen_for_initial_values echo_env sample_cfg (-3) 1 start
  = {| outcome_of := Done tt;
       world_of := {| step := 3; reads := 0; writes := 0 |};
       log_of := [(0, EvTime); (1, EvTime); (2, EvStdout no_frames_line)] |}.
Proof.
  apply (listen_zero_budget_reads_nothing echo_env sample_cfg (-3) 0 start).
  - lia.
  - vm_compute. discriminate.
Defined.

(** C7.  In a session whose requests parse and whose link opens, and
    that comes to an end, the link is closed exactly once, as the last
    action of [main], whether the two phases return (and [main] returns
    0) or one of them raises (and [main] raises the same exception after
    the close). *)
Theorem link_closed_exactly_once env args fuel w parsed :
  parse_requests (requests args) [] = inr parsed ->
  open_reply env = Returns tt ->
  outcome_of (main env args fuel w) <> OutOfFuel ->
  (exists pre t,
     log_of (main env args fuel w) = pre ++ [(t, EvClose)] /\
     filter is_close pre = []) /\
  List.length (filter is_close (log_of (main env args fuel w))) = 1%nat /\
  outcome_of (main env args fuel w)
  = match outcome_of (session env (make_cfg args) args parsed fuel
                              (after 2 0 w)) with
    | Done _ => Done 0
    | Raised e => Raised e
    | OutOfFuel => OutOfFuel
    end.
Proof.
  intros Hparse Hopen. rewrite (main_unfold_parsed env args fuel w parsed Hparse Hopen).
  cbv zeta.
  pose proof (no_close_filter _
                (session_no_close env (make_cfg args) args parsed fuel
                   (after 2 0 w))) as Hnone.
  set (r := session env (make_cfg args) args parsed fuel (after 2 0 w)) in *.
  assert (Hpre : filter is_close
            ([(clock env (step w), EvBanner (port args) (make_cfg args));
              (clock env (S (step w)), EvOpen (port args) (make_cfg args))]
             ++ log_of r) = []).
  { cbn [app filter is_close snd]. exact Hnone. }
  destruct (outcome_of r) as [[]|e|]; cbn [outcome_of log_of]; intros Hend;
    [| |contradiction].
  - rewrite app_assoc. repeat split.
    + eexists; eexists; split; [reflexivity|exact Hpre].
    + rewrite filter_app, Hpre. reflexivity.
  - rewrite app_assoc. repeat split.
    + eexists; eexists; split; [reflexivity|exact Hpre].
    + rewrite filter_app, Hpre. reflexivity.
Qed.

Lemma link_closed_exactly_once_witness :
  List.length
    (filter is_close
       (log_of (main silent_env (sample_args ["0x7E 0x14"]) 4 start)))
  = 1%nat /\
  outcome_of (main silent_env (sample_args ["0x7E 0x14"]) 4 start)
  = Raised TimeoutError.
Proof.
  destruct (link_closed_exactly_once silent_env (sample_args ["0x7E 0x14"])
              4 start [[x7e; x14]])
    as (_ & Hone & Hout).
  - vm_compute. reflexivity.
  - reflexivity.
  - vm_compute. discriminate.
  - split; [exact Hone|]. rewrite Hout. vm_compute. reflexivity.
Defined.

(** C8, as the claim states it, fails on the report: of the two values
    [ZZ] and [QQ], neither of which parses, only the first is named on
    the error stream. *)
Lemma second_bad_request_not_reported :
  ~ (forall raw,
       In raw (requests (sample_args ["ZZ"; "QQ"])) ->
       (exists msg, _parse_hex_sequence raw = ValueError msg) ->
       reported raw (log_of (main echo_env (sample_args ["ZZ"; "QQ"]) 4 start))).
Proof.
  intros H.
  destruct (H "QQ") as (t & msg & Hin).
  - right. left. reflexivity.
  - eexists. vm_compute. reflexivity.
  - assert (Hlog : log_of (main echo_env (sample_args ["ZZ"; "QQ"]) 4 start)
                   = [(0, EvStderr "Could not parse request 'ZZ': Could not parse 'ZZ' as a hex byte")])
      by (vm_compute; reflexivity).
    rewrite Hlog in Hin. destruct Hin as [Heq|[]].
    injection Heq as _ Hline. cbn in Hline. discriminate Hline.
Qed.

(** C8, amended.  When a request value does not parse, [main] names the
    first such value, with the message of its [ValueError], on the error
    stream and returns 2; this is its only action, so that the link is
    not opened and nothing is written, and the values after it are not
    examined.  When every value parses, [main] goes on to the banner and
    the opening of the link, and the only value it returns is 0. *)
Theorem first_bad_request_aborts_before_open env args fuel w :
  (forall good raw rest msg,
     requests args = good ++ raw :: rest ->
     Forall parses good ->
     _parse_hex_sequence raw = ValueError msg ->
     main env args fuel w
     = {| outcome_of := Done 2;
          world_of := after 1 0 w;
          log_of := [(clock env (step w),
                      EvStderr ("Could not parse request '" ++ raw ++ "': "
                                ++ msg)%string)] |}) /\
  (Forall parses (requests args) ->
   (exists rest,
      log_of (main env args fuel w)
      = (clock env (step w), EvBanner (port args) (make_cfg args))
        :: (clock env (S (step w)), EvOpen (port args) (make_cfg args))
        :: rest) /\
   (forall c, outcome_of (main env args fuel w) = Done c -> c = 0)).
Proof.
  split.
  - intros good raw rest msg Hreqs Hgood Hraw. unfold main.
    rewrite Hreqs, (parse_requests_first_failure good raw rest msg [] Hgood Hraw).
    reflexivity.
  - intros Hall.
    destruct (parse_requests_all_parse (requests args) [] Hall)
      as [parsed Hparse].
    destruct (open_reply env) as [[]|e] eqn:Hopen.
    + rewrite (main_unfold_parsed env args fuel w parsed Hparse Hopen).
      cbv zeta.
      destruct (outcome_of (session env (make_cfg args) args parsed fuel _));
        cbn [outcome_of log_of app]; split;
        try (eexists; reflexivity); intros c Hc;
        try discriminate Hc; injection Hc as <-; reflexivity.
    + unfold main. rewrite Hparse.
      unfold bind, serial_open, act.
      cbn [outcome_of world_of log_of tick step reads writes].
      rewrite Hopen. cbn [of_reply outcome_of log_of app]. split.
      * eexists; reflexivity.
      * intros c Hc. discriminate Hc.
Qed.

Lemma first_bad_request_aborts_before_open_witness :
  main echo_env (sample_args ["0x7E"; "7E"; "QQ"]) 4 start
  = {| outcome_of := Done 2;
       world_of := {| step := 1; reads := 0; writes := 0 |};
       log_of := [(0, EvStderr "Could not parse request '7E': Could not parse '7E' as a hex byte")] |}
  /\ (forall c,
        outcome_of (main echo_env (sample_args ["0x7E"]) 4 start) = Done c ->
        c = 0).
Proof.
  split.
  - apply (proj1 (first_bad_request_aborts_before_open echo_env
                    (sample_args ["0x7E"; "7E"; "QQ"]) 4 start)
             ["0x7E"] "7E" ["QQ"] "Could not parse '7E' as a hex byte").
    + reflexivity.
    + constructor; [|constructor]. eexists. vm_compute. reflexivity.
    + vm_compute. reflexivity.
  - apply (proj2 (first_bad_request_aborts_before_open echo_env
                    (sample_args ["0x7E"]) 4 start)).
    constructor; [|constructor]. eexists. vm_compute. reflexivity.
Defined.

End PhaseClaims.

(* ================================================================== *)
(** ** Further properties of the hex codec *)
(* ================================================================== *)

Section CodecMore.

Local Open Scope list_scope.

Lemma replace_app old new a b :
  replace old new (a ++ b)%string
  = (replace old new a ++ replace old new b)%string.
Proof.
  induction a as [|c a IH]; cbn [String.append replace]; [reflexivity|].
  rewrite IH. reflexivity.
Qed.

Lemma push_word_app cur words more :
  push_word cur (words ++ more) = push_word cur words ++ more.
Proof. unfold push_word. destruct (is_empty cur); reflexivity. Qed.

(** Whitespace between two texts separates their words. *)
Lemma split_from_app a c b :
  isspace c = true ->
  split_from (a ++ String c b)%string
  = (fst (split_from a), snd (split_from a) ++ split b).
Proof.
  intros Hc. induction a as [|x a IH].
  - cbn [String.append split_from]. rewrite Hc. unfold split.
    destruct (split_from b) as [cur words]. reflexivity.
  - cbn [String.append split_from]. rewrite IH.
    destruct (split_from a) as [cur words]. cbn [fst snd].
    destruct (isspace x); cbn [fst snd]; [|reflexivity].
    rewrite push_word_app. reflexivity.
Qed.

Lemma split_app a c b :
  isspace c = true ->
  split (a ++ String c b)%string = split a ++ split b.
Proof.
  intros Hc. unfold split at 1 2. rewrite (split_from_app a c b Hc).
  destruct (split_from a) as [cur words]. cbn [fst snd].
  apply push_word_app.
Qed.

(** The words [split] returns are not empty. *)
Lemma split_from_words_nonempty s :
  Forall (fun word => is_empty word = false) (snd (split_from s)).
Proof.
  induction s as [|c s IH]; cbn [split_from]; [constructor|].
  destruct (split_from s) as [cur words]. cbn [snd] in *.
  destruct (isspace c); cbn [snd]; [|exact IH].
  unfold push_word. destruct (is_empty cur) eqn:Hcur; [exact IH|].
  constructor; assumption.
Qed.

Lemma split_words_nonempty s :
  Forall (fun word => is_empty word = false) (split s).
Proof.
  unfold split. pose proof (split_from_words_nonempty s) as H.
  destruct (split_from s) as [cur words]. cbn [snd] in H.
  unfold push_word. destruct (is_empty cur) eqn:Hcur; [exact H|].
  constructor; assumption.
Qed.

Lemma filter_nonempty_id words :
  Forall (fun word => is_empty word = false) words ->
  filter (fun part => negb (is_empty part)) words = words.
Proof.
  induction 1 as [|word words Hword _ IH]; [reflexivity|].
  cbn [filter]. rewrite Hword, IH. reflexivity.
Qed.

(** The test [if part] of the token loop drops nothing. *)
Lemma hex_tokens_split text :
  hex_tokens text = split (replace semicolon space (replace comma space text)).
Proof. unfold hex_tokens. apply filter_nonempty_id, split_words_nonempty. Qed.

Lemma separator_becomes_space c :
  is_separator c = true ->
  isspace (if Ascii.eqb (if Ascii.eqb c comma then space else c) semicolon
           then space
           else if Ascii.eqb c comma then space else c) = true.
Proof.
  unfold is_separator. intros H.
  destruct (Ascii.eqb c comma) eqn:Hcomma.
  - reflexivity.
  - destruct (Ascii.eqb c semicolon) eqn:Hsemi; [reflexivity|].
    rewrite !orb_false_r in H. exact H.
Qed.

(** A separator between two texts separates their tokens. *)
Lemma hex_tokens_app a c b :
  is_separator c = true ->
  hex_tokens (a ++ String c b)%string = hex_tokens a ++ hex_tokens b.
Proof.
  intros Hc. rewrite !hex_tokens_split, !replace_app.
  cbn [replace]. apply split_app, separator_becomes_space, Hc.
Qed.

Lemma hex_tokens_empty : hex_tokens EmptyString = [].
Proof. reflexivity. Qed.

Lemma split_from_word s :
  all_chars (fun c => negb (isspace c)) s = true -> split_from s = (s, []).
Proof.
  induction s as [|c s IH]; cbn [all_chars split_from]; intros Hs;
    [reflexivity|].
  apply andb_true_iff in Hs as [Hc Hs]. rewrite (IH Hs).
  apply negb_true_iff in Hc. rewrite Hc. reflexivity.
Qed.

Lemma replace_word old new s :
  all_chars (fun c => negb (is_separator c)) s = true ->
  is_separator old = true ->
  replace old new s = s.
Proof.
  intros Hs Hold. induction s as [|c s IH]; cbn [all_chars replace] in *;
    [reflexivity|].
  apply andb_true_iff in Hs as [Hc Hs]. rewrite (IH Hs).
  destruct (Ascii.eqb c old) eqn:Heq; [|reflexivity].
  apply Ascii.eqb_eq in Heq. subst c. rewrite Hold in Hc. discriminate.
Qed.

Lemma word_without_space s :
  all_chars (fun c => negb (is_separator c)) s = true ->
  all_chars (fun c => negb (isspace c)) s = true.
Proof.
  induction s as [|c s IH]; cbn [all_chars]; [reflexivity|]. intros Hs.
  apply andb_true_iff in Hs as [Hc Hs]. rewrite (IH Hs), andb_true_r.
  unfold is_separator in Hc. apply negb_true_iff in Hc.
  apply orb_false_iff in Hc as [Hc _]. apply orb_false_iff in Hc as [Hc _].
  rewrite Hc. reflexivity.
Qed.

(** A text with no separator in it is its own single token. *)
Lemma hex_tokens_word c s :
  all_chars (fun c => negb (is_separator c)) (String c s) = true ->
  hex_tokens (String c s) = [String c s].
Proof.
  intros Hs. rewrite hex_tokens_split.
  rewrite (replace_word comma space _ Hs) by reflexivity.
  rewrite (replace_word semicolon space _ Hs) by reflexivity.
  unfold split. rewrite (split_from_word _ (word_without_space _ Hs)).
  reflexivity.
Qed.

Lemma hex_tokens_after_separators sep s :
  all_chars is_separator sep = true ->
  hex_tokens (sep ++ s)%string = hex_tokens s.
Proof.
  induction sep as [|c sep IH]; cbn [all_chars String.append]; intros Hsep;
    [reflexivity|].
  apply andb_true_iff in Hsep as [Hc Hsep].
  change (String c (sep ++ s)%string)
    with (EmptyString ++ String c (sep ++ s))%string.
  rewrite (hex_tokens_app EmptyString c _ Hc). exact (IH Hsep).
Qed.

Lemma hex_tokens_is_word w : is_word w = true -> hex_tokens w = [w].
Proof.
  unfold is_word. intros H. apply andb_true_iff in H as [Hne Hw].
  destruct w as [|c w]; [discriminate|]. apply hex_tokens_word, Hw.
Qed.

(** Words joined by separators are the tokens of the text they make. *)
Lemma hex_tokens_concat c sep words :
  is_separator c = true ->
  all_chars is_separator sep = true ->
  Forall (fun w => is_word w = true) words ->
  hex_tokens (String.concat (String c sep) words) = words.
Proof.
  intros Hc Hsep. induction 1 as [|w words Hw Hwords IH]; [reflexivity|].
  destruct words as [|w' words].
  - cbn [String.concat]. apply hex_tokens_is_word, Hw.
  - change (String.concat (String c sep) (w :: w' :: words))
      with (w ++ String c (sep ++ String.concat (String c sep) (w' :: words)))%string.
    rewrite (hex_tokens_app w c _ Hc), (hex_tokens_is_word w Hw).
    rewrite (hex_tokens_after_separators sep _ Hsep), IH. reflexivity.
Qed.

Lemma format_02X_is_word b : is_word (format_02X b) = true.
Proof. destruct b; reflexivity. Qed.

Lemma format_02X_renders b : renders (format_02X b) b.
Proof. destruct b; repeat split. Qed.

Lemma byte_value_inj b1 b2 : byte_value b1 = byte_value b2 -> b1 = b2.
Proof.
  unfold byte_value. intros H. apply N2Z.inj in H.
  pose proof (Byte.of_to_N b1) as H1. rewrite H, Byte.of_to_N in H1.
  congruence.
Qed.

Lemma map_byte_value_inj d1 : forall d2,
  map byte_value d1 = map byte_value d2 -> d1 = d2.
Proof.
  induction d1 as [|b1 d1 IH]; intros [|b2 d2] H; try discriminate;
    [reflexivity|].
  injection H as Hb Hd. rewrite (byte_value_inj _ _ Hb), (IH _ Hd).
  reflexivity.
Qed.

Lemma format_02X_inj b1 b2 : format_02X b1 = format_02X b2 -> b1 = b2.
Proof.
  intros H. apply byte_value_inj.
  destruct (format_02X_renders b1) as (_ & _ & <-).
  destruct (format_02X_renders b2) as (_ & _ & <-).
  rewrite H. reflexivity.
Qed.

Lemma map_format_02X_inj d1 : forall d2,
  map format_02X d1 = map format_02X d2 -> d1 = d2.
Proof.
  induction d1 as [|b1 d1 IH]; intros [|b2 d2] H; try discriminate;
    [reflexivity|].
  pose proof (f_equal (@hd string EmptyString) H) as Hb.
  pose proof (f_equal (@tl string) H) as Hd. cbn [map hd tl] in Hb, Hd.
  rewrite (format_02X_inj _ _ Hb), (IH _ Hd). reflexivity.
Qed.

Lemma format_02X_words data :
  Forall (fun w => is_word w = true) (map format_02X data).
Proof.
  induction data as [|b data IH]; constructor;
    [apply format_02X_is_word|exact IH].
Qed.

Lemma hex_tokens_format_bytes data :
  hex_tokens (_format_bytes data) = map format_02X data.
Proof.
  unfold _format_bytes.
  apply (hex_tokens_concat comma (String space EmptyString));
    [reflexivity|reflexivity|apply format_02X_words].
Qed.

Lemma hex_tokens_render_bytes data :
  hex_tokens (render_bytes data) = map format_02X data.
Proof.
  unfold render_bytes.
  apply (hex_tokens_concat space EmptyString);
    [reflexivity|reflexivity|apply format_02X_words].
Qed.

(** The tokenizer of the codec finds, in either rendering, one token per
    byte, in order: two upper case hexadecimal digits that denote it. *)
Theorem renderings_tokenize_to_bytes data :
  Forall2 renders (hex_tokens (_format_bytes data)) data /\
  Forall2 renders (hex_tokens (render_bytes data)) data.
Proof.
  rewrite hex_tokens_format_bytes, hex_tokens_render_bytes.
  assert (H : Forall2 renders (map format_02X data) data).
  { induction data as [|b data IH]; constructor;
      [apply format_02X_renders|exact IH]. }
  split; exact H.
Qed.

(** Both renderings are lossless: two chunks rendered alike are equal. *)
Theorem renderings_injective d1 d2 :
  (_format_bytes d1 = _format_bytes d2 -> d1 = d2) /\
  (render_bytes d1 = render_bytes d2 -> d1 = d2).
Proof.
  split; intros H; apply map_format_02X_inj.
  - rewrite <- !hex_tokens_format_bytes, H. reflexivity.
  - rewrite <- !hex_tokens_render_bytes, H. reflexivity.
Qed.

Lemma renderings_injective_witness :
  [x7e; x14] = [x7e; x14].
Proof.
  apply (proj1 (renderings_injective [x7e; x14] [x7e; x14])).
  reflexivity.
Defined.

Lemma collect_values_sound tokens : forall acc vs,
  collect_values tokens acc = Ok vs ->
  exists values, vs = acc ++ values /\ Forall2 byte_literal tokens values.
Proof.
  induction tokens as [|token tokens IH]; intros acc vs H; cbn [collect_values] in H.
  - injection H as <-. exists []. rewrite app_nil_r. split; constructor.
  - destruct (int_base0 token) as [value|] eqn:Hint; [|discriminate].
    destruct ((0 <=? value) && (value <=? 255)) eqn:Hrange.
    + destruct (IH _ _ H) as (values & -> & Hall).
      exists (value :: values). rewrite <- app_assoc. split; [reflexivity|].
      constructor; [|exact Hall]. split; [exact Hint|].
      apply andb_true_iff in Hrange as [Hlo Hhi].
      apply Z.leb_le in Hlo, Hhi. lia.
    + destruct (str value); discriminate.
Qed.

Lemma collect_values_failure tokens : forall acc msg,
  collect_values tokens acc = ValueError msg ->
  exists good values token rest,
    tokens = good ++ token :: rest /\
    Forall2 byte_literal good values /\
    token_error token msg.
Proof.
  induction tokens as [|token tokens IH]; intros acc msg H;
    cbn [collect_values] in H; [discriminate|].
  destruct (int_base0 token) as [value|] eqn:Hint.
  - destruct ((0 <=? value) && (value <=? 255)) eqn:Hrange.
    + destruct (IH _ _ H) as (good & values & bad & rest & -> & Hgood & Hbad).
      exists (token :: good), (value :: values), bad, rest.
      split; [reflexivity|]. split; [|exact Hbad].
      constructor; [|exact Hgood]. split; [exact Hint|].
      apply andb_true_iff in Hrange as [Hlo Hhi].
      apply Z.leb_le in Hlo, Hhi. lia.
    + exists [], [], token, tokens. split; [reflexivity|].
      split; [constructor|]. right. exists value. split; [exact Hint|].
      split.
      { apply andb_false_iff in Hrange as [Hlo|Hhi];
          [apply Z.leb_gt in Hlo|apply Z.leb_gt in Hhi]; lia. }
      unfold str in H.
      destruct (int_max_str_digits <? _)%N; injection H as <-;
        [right|left]; reflexivity.
  - injection H as <-. exists [], [], token, tokens.
    split; [reflexivity|]. split; [constructor|]. left.
    split; [exact Hint|reflexivity].
Qed.

Lemma bytes_sound values : forall data,
  bytes values = Ok data -> map byte_value data = values.
Proof.
  induction values as [|v values IH]; intros data H; cbn [bytes] in H.
  - injection H as <-. reflexivity.
  - destruct (v <? 0) eqn:Hneg; [discriminate|].
    destruct (Byte.of_N (Z.to_N v)) as [b|] eqn:Hb; [|discriminate].
    destruct (bytes values) as [rest|] eqn:Hrest; [|discriminate].
    injection H as <-. cbn [map]. rewrite (IH rest eq_refl). f_equal.
    unfold byte_value. rewrite (Byte.to_of_N _ Hb).
    apply Z.ltb_ge in Hneg. lia.
Qed.

Lemma byte_literal_in_range tokens values :
  Forall2 byte_literal tokens values ->
  Forall (fun v => 0 <= v <= 255) values.
Proof. induction 1 as [|? ? ? ? [_ ?] _ IH]; constructor; assumption. Qed.

(** The texts that parse, and what they parse to. *)
Lemma parse_of_literals text data :
  hex_tokens text <> [] ->
  Forall2 byte_literal (hex_tokens text) (map byte_value data) ->
  _parse_hex_sequence text = Ok data.
Proof.
  intros Hne H. unfold _parse_hex_sequence.
  destruct text as [|c text]; [exfalso; apply Hne; reflexivity|].
  cbn [is_empty].
  destruct (hex_tokens (String c text)) as [|t ts] eqn:Ht; [congruence|].
  rewrite (collect_values_in_order _ _ [] H). cbn [app].
  destruct (bytes_in_range _ (byte_literal_in_range _ _ H))
    as (data' & Hdata' & Hmap).
  rewrite Hdata'. f_equal. apply map_byte_value_inj, Hmap.
Qed.

Lemma parse_ok_tokens text data :
  _parse_hex_sequence text = Ok data ->
  hex_tokens text <> [] /\
  Forall2 byte_literal (hex_tokens text) (map byte_value data).
Proof.
  unfold _parse_hex_sequence. destruct (is_empty text); [discriminate|].
  destruct (hex_tokens text) as [|t ts] eqn:Ht; [discriminate|].
  destruct (collect_values (t :: ts) []) as [values|] eqn:Hvalues;
    [|discriminate].
  intros Hbytes. apply bytes_sound in Hbytes.
  destruct (collect_values_sound _ _ _ Hvalues) as (values' & -> & Hall).
  cbn [app] in *. rewrite Hbytes. split; [discriminate|exact Hall].
Qed.

(** A text that parses has at least one token, every token is a
    literal of base 0 with a value in 0..255, and the bytes returned are
    these values in the order of the tokens; the result is never empty. *)
Theorem parse_hex_sequence_sound text data :
  _parse_hex_sequence text = Ok data ->
  data <> [] /\
  Forall2 byte_literal (hex_tokens text) (map byte_value data).
Proof.
  intros H. destruct (parse_ok_tokens text data H) as [Hne Hall].
  split; [|exact Hall].
  intros ->. cbn [map] in Hall. inversion Hall as [Hnil|]. congruence.
Qed.

Lemma parse_hex_sequence_sound_witness :
  [x7e; x14] <> [] /\
  Forall2 byte_literal (hex_tokens "0x7E;20") (map byte_value [x7e; x14]).
Proof.
  apply (parse_hex_sequence_sound "0x7E;20" [x7e; x14]).
  vm_compute. reflexivity.
Defined.

(** Every failure of [_parse_hex_sequence] is one of these: the text
    is empty; it has no token; or its first token that is no byte either
    is no literal of base 0 or has a value outside 0..255 (reported with
    that value, or with the message of [str] when the value has too many
    digits to print).  The range check of [bytes] is never what fails. *)
Theorem parse_hex_sequence_failures text msg :
  _parse_hex_sequence text = ValueError msg ->
  (text = EmptyString /\
   msg = "Empty request cannot be converted to bytes"%string) \/
  (text <> EmptyString /\ hex_tokens text = [] /\
   msg = "No hex tokens found in request string"%string) \/
  (exists good values token rest,
     hex_tokens text = good ++ token :: rest /\
     Forall2 byte_literal good values /\
     token_error token msg).
Proof.
  unfold _parse_hex_sequence. destruct text as [|c text].
  - intros H. injection H as <-. left. split; reflexivity.
  - cbn [is_empty].
    destruct (hex_tokens (String c text)) as [|t ts] eqn:Ht.
    + intros H. injection H as <-. right. left.
      repeat split. discriminate.
    + destruct (collect_values (t :: ts) []) as [values|] eqn:Hvalues.
      * intros Hbytes. exfalso.
        destruct (collect_values_sound _ _ _ Hvalues) as (values' & -> & Hall).
        destruct (bytes_in_range _ (byte_literal_in_range _ _ Hall))
          as (data & Hdata & _).
        cbn [app] in Hbytes. rewrite Hdata in Hbytes. discriminate.
      * intros H. injection H as <-. right. right.
        exact (collect_values_failure _ _ _ Hvalues).
Qed.

Lemma parse_hex_sequence_failures_witness :
  exists good values token rest,
    hex_tokens "0x7E 7E 0x100" = good ++ token :: rest /\
    Forall2 byte_literal good values /\
    token_error token "Could not parse '7E' as a hex byte".
Proof.
  destruct (parse_hex_sequence_failures "0x7E 7E 0x100"
              "Could not parse '7E' as a hex byte")
    as [[H _]|[(_ & H & _)|H]].
  - vm_compute. reflexivity.
  - discriminate H.
  - vm_compute in H. discriminate H.
  - exact H.
Defined.

Lemma replace_as_map old new s :
  replace old new s = map_chars (fun c => if Ascii.eqb c old then new else c) s.
Proof.
  induction s as [|c s IH]; cbn [replace map_chars]; [reflexivity|].
  rewrite IH. reflexivity.
Qed.

Lemma map_chars_compose f g s :
  map_chars f (map_chars g s) = map_chars (fun c => f (g c)) s.
Proof.
  induction s as [|c s IH]; cbn [map_chars]; [reflexivity|].
  rewrite IH. reflexivity.
Qed.

Lemma normalize_as_map text :
  replace semicolon space (replace comma space text)
  = map_chars normalize_char text.
Proof. rewrite !replace_as_map, map_chars_compose. reflexivity. Qed.

(** [split] does not tell one whitespace character from another. *)
Lemma split_from_map_chars g h s :
  (forall c, g c = h c \/ (isspace (g c) = true /\ isspace (h c) = true)) ->
  split_from (map_chars g s) = split_from (map_chars h s).
Proof.
  intros Hgh. induction s as [|c s IH]; cbn [map_chars split_from];
    [reflexivity|].
  rewrite IH. destruct (split_from (map_chars h s)) as [cur words].
  destruct (Hgh c) as [->|[-> ->]]; reflexivity.
Qed.

Lemma normalize_separator c :
  is_separator c = true -> isspace (normalize_char c) = true.
Proof. exact (separator_becomes_space c). Qed.

Lemma hex_tokens_replace old new text :
  is_separator old = true -> is_separator new = true ->
  hex_tokens (replace old new text) = hex_tokens text.
Proof.
  intros Hold Hnew. rewrite !hex_tokens_split, !normalize_as_map.
  rewrite replace_as_map, map_chars_compose. unfold split.
  rewrite (split_from_map_chars
             (fun c => normalize_char (if Ascii.eqb c old then new else c))
             normalize_char); [reflexivity|].
  intros c. destruct (Ascii.eqb c old) eqn:Hc; [|left; reflexivity].
  apply Ascii.eqb_eq in Hc. subst c. right.
  split; apply normalize_separator; assumption.
Qed.

(** Commas, semicolons and whitespace are interchangeable: writing
    one separator for every occurrence of another changes neither the
    bytes a text parses to nor the error it raises. *)
Theorem parse_hex_sequence_any_separator old new text :
  is_separator old = true -> is_separator new = true ->
  _parse_hex_sequence (replace old new text) = _parse_hex_sequence text.
Proof.
  intros Hold Hnew. unfold _parse_hex_sequence.
  rewrite (hex_tokens_replace old new text Hold Hnew).
  destruct text; reflexivity.
Qed.

Lemma parse_hex_sequence_any_separator_witness :
  _parse_hex_sequence "0x7E;0x14;0x17" = _parse_hex_sequence "0x7E,0x14,0x17".
Proof.
  apply (parse_hex_sequence_any_separator comma semicolon "0x7E,0x14,0x17");
    reflexivity.
Defined.

(** Two texts that parse, joined by one separator, parse to the
    bytes of the first followed by the bytes of the second. *)
Theorem parse_hex_sequence_join a c b da db :
  is_separator c = true ->
  _parse_hex_sequence a = Ok da ->
  _parse_hex_sequence b = Ok db ->
  _parse_hex_sequence (a ++ String c b)%string = Ok (da ++ db).
Proof.
  intros Hc Ha Hb.
  destruct (parse_ok_tokens a da Ha) as [Hna Hla].
  destruct (parse_ok_tokens b db Hb) as [_ Hlb].
  apply parse_of_literals; rewrite (hex_tokens_app a c b Hc).
  - intros Hnil. apply app_eq_nil in Hnil as [Hnil _]. congruence.
  - rewrite map_app. apply Forall2_app; assumption.
Qed.

Lemma parse_hex_sequence_join_witness :
  _parse_hex_sequence "0x7E 20,0x17" = Ok ([x7e; x14] ++ [x17]).
Proof.
  apply (parse_hex_sequence_join "0x7E 20" comma "0x17" [x7e; x14] [x17]);
    vm_compute; reflexivity.
Defined.

(** *** Tokens of decimal digits that start with 0 *)

Lemma collect_values_first_bad token rest good values : forall acc,
  Forall2 byte_literal good values ->
  int_base0 token = None ->
  collect_values (good ++ token :: rest) acc
  = ValueError (could_not_parse token).
Proof.
  intros acc Hgood Hbad. revert acc.
  induction Hgood as [|g v good values [Hg Hv] _ IH]; intros acc;
    cbn [app collect_values].
  - rewrite Hbad. reflexivity.
  - rewrite Hg.
    replace (0 <=? v) with true by (symmetry; apply Z.leb_le; lia).
    replace (v <=? 255) with true by (symmetry; apply Z.leb_le; lia).
    cbn [andb]. apply IH.
Qed.

Lemma collect_values_bad_token token tokens : forall acc,
  In token tokens ->
  int_base0 token = None ->
  exists msg, collect_values tokens acc = ValueError msg.
Proof.
  induction tokens as [|t tokens IH]; intros acc Hin Hbad; [destruct Hin|].
  cbn [collect_values].
  destruct (int_base0 t) as [value|] eqn:Ht; [|eexists; reflexivity].
  destruct ((0 <=? value) && (value <=? 255)).
  - apply IH; [|exact Hbad]. destruct Hin as [->|Hin]; [congruence|exact Hin].
  - destruct (str value); eexists; reflexivity.
Qed.

Lemma parse_of_tokens_error text msg :
  hex_tokens text <> [] ->
  collect_values (hex_tokens text) [] = ValueError msg ->
  _parse_hex_sequence text = ValueError msg.
Proof.
  intros Hne Hmsg. unfold _parse_hex_sequence.
  destruct text as [|c text]; [exfalso; apply Hne; reflexivity|].
  cbn [is_empty].
  destruct (hex_tokens (String c text)) as [|t ts]; [congruence|].
  rewrite Hmsg. reflexivity.
Qed.

Lemma leading_zero_nonzero_no_literal token :
  leading_zero_decimal token = true ->
  all_chars is_zero_digit token = false ->
  int_base0 token = None.
Proof.
  intros H Hnz. rewrite (int_base0_leading_zero token H).
  pose proof (decimal_value_nonzero token 0%N
                (leading_zero_all_decimal token H) Hnz) as Hv.
  apply N.eqb_neq in Hv. rewrite Hv. cbn [negb].
  destruct (int_max_str_digits <? _)%N; reflexivity.
Qed.

Lemma zeros_literal token :
  leading_zero_decimal token = true ->
  all_chars is_zero_digit token = true ->
  (N.of_nat (String.length token) <= int_max_str_digits)%N ->
  byte_literal token 0.
Proof.
  intros H Hz Hlen. split; [|lia].
  rewrite (int_base0_leading_zero token H).
  replace (int_max_str_digits <? N.of_nat (String.length token))%N
    with false by (symmetry; apply N.ltb_ge; exact Hlen).
  rewrite (decimal_value_zeros token Hz). reflexivity.
Qed.

(** C9, amended.  Whatever the text of a request, a token of two or more
    decimal digits that starts with 0 makes the parsing fail with
    [ValueError] as soon as one of its digits is not 0, whatever its
    decimal value; the message names that token when the tokens before
    it are bytes.  When all its digits are 0 (and they are no more than
    the interpreter's limit of digits) the token is read as the byte 0:
    with bytes before and after it, the text parses to these bytes with
    a 0 in its place. *)
Theorem leading_zero_token_rejected_unless_zero text token :
  In token (hex_tokens text) ->
  leading_zero_decimal token = true ->
  (all_chars is_zero_digit token = false ->
   (exists msg, _parse_hex_sequence text = ValueError msg) /\
   (forall good values rest,
      hex_tokens text = good ++ token :: rest ->
      Forall2 byte_literal good values ->
      _parse_hex_sequence text = ValueError (could_not_parse token))) /\
  (all_chars is_zero_digit token = true ->
   (N.of_nat (String.length token) <= int_max_str_digits)%N ->
   forall before behind data_before data_behind,
     hex_tokens text = before ++ token :: behind ->
     Forall2 byte_literal before (map byte_value data_before) ->
     Forall2 byte_literal behind (map byte_value data_behind) ->
     _parse_hex_sequence text = Ok (data_before ++ x00 :: data_behind)).
Proof.
  intros Hin H.
  assert (Hne : hex_tokens text <> []).
  { intros Hnil. rewrite Hnil in Hin. destruct Hin. }
  split.
  - intros Hnz.
    pose proof (leading_zero_nonzero_no_literal token H Hnz) as Hbad.
    split.
    + destruct (collect_values_bad_token token (hex_tokens text) [] Hin Hbad)
        as [msg Hmsg].
      exists msg. apply parse_of_tokens_error; assumption.
    + intros good values rest Htokens Hgood.
      apply parse_of_tokens_error; [exact Hne|].
      rewrite Htokens. apply (collect_values_first_bad _ _ _ values);
        assumption.
  - intros Hz Hlen before behind data_before data_behind Htokens Hb Ha.
    apply parse_of_literals; [exact Hne|].
    rewrite Htokens, map_app. apply Forall2_app; [exact Hb|].
    cbn [map]. constructor; [|exact Ha].
    exact (zeros_literal token H Hz Hlen).
Qed.

Lemma leading_zero_token_rejected_unless_zero_witness :
  (exists msg, _parse_hex_sequence "1 010 2" = ValueError msg) /\
  _parse_hex_sequence "1 010 2"
    = ValueError "Could not parse '010' as a hex byte" /\
  _parse_hex_sequence "010"
    = ValueError "Could not parse '010' as a hex byte" /\
  _parse_hex_sequence "0x7E 000;1" = Ok ([x7e] ++ x00 :: [x01]).
Proof.
  split; [|split; [|split]].
  - exact (proj1 (proj1 (leading_zero_token_rejected_unless_zero "1 010 2"
                           "010" ltac:(vm_compute; tauto) eq_refl) eq_refl)).
  - apply (proj2 (proj1 (leading_zero_token_rejected_unless_zero "1 010 2"
                           "010" ltac:(vm_compute; tauto) eq_refl) eq_refl)
             ["1"] [1] ["2"]).
    + vm_compute. reflexivity.
    + constructor; [|constructor]. split; [vm_compute; reflexivity|lia].
  - apply (proj2 (proj1 (leading_zero_token_rejected_unless_zero "010"
                           "010" ltac:(vm_compute; tauto) eq_refl) eq_refl)
             [] [] []).
    + vm_compute. reflexivity.
    + constructor.
  - apply (proj2 (leading_zero_token_rejected_unless_zero "0x7E 000;1" "000"
                    ltac:(vm_compute; tauto) eq_refl) eq_refl
             ltac:(vm_compute; discriminate)
             ["0x7E"] ["1"] [x7e] [x01]).
    + vm_compute. reflexivity.
    + constructor; [|constructor]. split; [vm_compute; reflexivity|].
      vm_compute. split; discriminate.
    + constructor; [|constructor]. split; [vm_compute; reflexivity|].
      vm_compute. split; discriminate.
Defined.

Lemma rendered_byte_literal b :
  byte_literal (format_02X b) (byte_value b) -> b = x00.
Proof.
  unfold byte_literal. intros [H _].
  destruct b; vm_compute in H; try reflexivity; discriminate H.
Qed.

Lemma literals_of_rendering data :
  Forall2 byte_literal (map format_02X data) (map byte_value data) ->
  Forall (fun b => b = x00) data.
Proof.
  induction data as [|b data IH]; cbn [map]; intros H; [constructor|].
  inversion H; subst. constructor; [apply rendered_byte_literal|apply IH];
    assumption.
Qed.

(** Parsing what [_format_bytes] printed gives the bytes back only
    for zeros: the rendering of [data] parses to [data] exactly when
    [data] is not empty and all its bytes are 0. *)
Theorem parse_format_round_trip_only_zeros data :
  _parse_hex_sequence (_format_bytes data) = Ok data <->
  data <> [] /\ Forall (fun b => b = x00) data.
Proof.
  split.
  - intros H. destruct (parse_ok_tokens _ _ H) as [Hne Hall].
    rewrite hex_tokens_format_bytes in Hne, Hall.
    split; [intros ->; apply Hne; reflexivity|].
    apply literals_of_rendering, Hall.
  - intros [Hne Hzero]. apply parse_of_literals;
      rewrite hex_tokens_format_bytes.
    + destruct data; [congruence|discriminate].
    + clear Hne. induction Hzero as [|b data -> _ IH]; cbn [map];
        constructor; [|exact IH].
      split; [vm_compute; reflexivity|vm_compute; split; discriminate].
Qed.

End CodecMore.

(* ================================================================== *)
(** ** Further properties of the two phases and the session *)
(* ================================================================== *)

Section PhaseMore.

Local Open Scope list_scope.

Variable env : Env.

Lemma bind_log {A B} (m : M A) (k : A -> M B) w :
  log_of (bind m k w)
  = log_of (m w)
    ++ match outcome_of (m w) with
       | Done a => log_of (k a (world_of (m w)))
       | _ => []
       end.
Proof.
  unfold bind. cbv beta zeta.
  destruct (outcome_of (m w)); cbn [log_of]; rewrite ?app_nil_r; reflexivity.
Qed.

Lemma bind_outcome_done {A B} (m : M A) (k : A -> M B) w b :
  outcome_of (bind m k w) = Done b ->
  exists a, outcome_of (m w) = Done a /\
            outcome_of (k a (world_of (m w))) = Done b.
Proof.
  unfold bind. cbv beta zeta.
  destruct (outcome_of (m w)) as [a| |]; cbn [outcome_of]; try discriminate.
  intros H. exists a. split; [reflexivity|exact H].
Qed.

(** *** What each phase emits *)

Lemma read_frames_loop_emits ok cfg label remaining : forall idx,
  (forall r, ok (EvReadFrame r) = true) ->
  (forall l, ok (EvStdout l) = true) ->
  emits_only ok (read_frames_loop env cfg label remaining idx).
Proof.
  induction remaining as [|n IH]; intros idx Hread Hprint;
    [apply emits_only_ret|].
  cbn [read_frames_loop].
  apply emits_only_bind; [apply emits_only_read, Hread|]. intros f.
  apply emits_only_bind; [apply emits_only_act, Hprint|]. intros _.
  apply IH; assumption.
Qed.

Lemma send_loop_emits ok cfg count delay reqs : forall req_idx,
  (forall d, ok (EvWrite d) = true) ->
  ok EvFlush = true ->
  (forall d, ok (EvSleep d) = true) ->
  (forall r, ok (EvReadFrame r) = true) ->
  (forall l, ok (EvStdout l) = true) ->
  emits_only ok (send_loop env cfg reqs req_idx count delay).
Proof.
  induction reqs as [|request rest IH];
    intros req_idx Hwrite Hflush Hsleep Hread Hprint; [apply emits_only_ret|].
  cbn [send_loop].
  apply emits_only_bind; [apply emits_only_write, Hwrite|]. intros _.
  apply emits_only_bind; [apply emits_only_flush, Hflush|]. intros _.
  apply emits_only_bind; [apply emits_only_act, Hprint|]. intros _.
  apply emits_only_bind.
  - unfold _read_frames. apply emits_only_bind.
    + destruct (truthy delay); [|apply emits_only_ret].
      apply emits_only_sleep, Hsleep.
    + intros _. apply read_frames_loop_emits; assumption.
  - intros _. apply IH; assumption.
Qed.

Lemma listen_loop_emits ok cfg deadline fuel : forall observed,
  ok EvTime = true ->
  (forall r, ok (EvReadFrame r) = true) ->
  (forall l, ok (EvStdout l) = true) ->
  emits_only ok (listen_loop env cfg deadline fuel observed).
Proof.
  induction fuel as [|fuel IH]; intros observed Htime Hread Hprint;
    [intros w; reflexivity|].
  cbn [listen_loop].
  apply emits_only_bind; [apply emits_only_time, Htime|]. intros now.
  destruct (now <? deadline); [|apply emits_only_ret].
  apply emits_only_bind; [apply emits_only_except, emits_only_read, Hread|].
  intros [f|].
  - apply emits_only_bind; [apply emits_only_act, Hprint|]. intros _.
    apply IH; assumption.
  - apply emits_only_bind; [apply emits_only_time, Htime|]. intros t.
    destruct (t >=? deadline); [apply emits_only_ret|apply IH; assumption].
Qed.

Lemma listen_emits ok cfg secs fuel :
  ok EvTime = true ->
  (forall r, ok (EvReadFrame r) = true) ->
  (forall l, ok (EvStdout l) = true) ->
  emits_only ok (_listen_for_initial_values env cfg secs fuel).
Proof.
  intros Htime Hread Hprint. unfold _listen_for_initial_values.
  apply emits_only_bind; [apply emits_only_time, Htime|]. intros now.
  apply emits_only_bind; [apply listen_loop_emits; assumption|].
  intros observed.
  destruct (observed =? 0); [apply emits_only_act, Hprint|apply emits_only_ret].
Qed.

(** The listen phase only reads the clock, calls the frame reader and
    prints: it transmits nothing and never sleeps. *)
Theorem listen_phase_only_listens cfg secs fuel w :
  forallb (fun e => listen_action (snd e))
          (log_of (_listen_for_initial_values env cfg secs fuel w)) = true.
Proof. apply listen_emits; reflexivity. Qed.

(** *** The lines of the listen phase *)

Lemma numbered_frames_cons first f frames :
  numbered_frames first (f :: frames)
  = frame_line (Z.of_nat first) f :: numbered_frames (S first) frames.
Proof. reflexivity. Qed.

Lemma listen_loop_lines cfg deadline fuel : forall k w,
  let r := listen_loop env cfg deadline fuel (Z.of_nat k) w in
  stdout_lines (log_of r) = numbered_frames (S k) (frames_read (log_of r)) /\
  forall observed,
    outcome_of r = Done observed ->
    observed = Z.of_nat (k + List.length (frames_read (log_of r))).
Proof.
  induction fuel as [|fuel IH]; intros k w; cbv zeta.
  - split; [reflexivity|discriminate].
  - rewrite listen_loop_unfold. cbv zeta.
    destruct (_ <? deadline).
    2:{ split; [reflexivity|]. intros observed H. injection H as <-.
        cbn. f_equal. lia. }
    destruct (_read_one_frame_from_serial env cfg (reads w)) as [f|[]].
    + replace (Z.of_nat k + 1) with (Z.of_nat (S k)) by lia.
      destruct (IH (S k) (after 3 1 w)) as [Hlines Hdone].
      cbv zeta in Hlines, Hdone.
      cbn [prepend outcome_of log_of app stdout_lines frames_read flat_map snd].
      fold (stdout_lines (log_of (listen_loop env cfg deadline fuel
                                    (Z.of_nat (S k)) (after 3 1 w)))).
      fold (frames_read (log_of (listen_loop env cfg deadline fuel
                                   (Z.of_nat (S k)) (after 3 1 w)))).
      rewrite numbered_frames_cons, Hlines. split; [reflexivity|].
      intros observed H. rewrite (Hdone observed H).
      cbn [List.length]. f_equal. lia.
    + destruct (_ >=? deadline).
      * split; [reflexivity|]. intros observed H. injection H as <-.
        cbn. f_equal. lia.
      * exact (IH k (after 3 1 w)).
    + split; [reflexivity|discriminate].
    + split; [reflexivity|discriminate].
    + split; [reflexivity|discriminate].
Qed.

Lemma stdout_lines_app l1 l2 :
  stdout_lines (l1 ++ l2) = stdout_lines l1 ++ stdout_lines l2.
Proof. apply flat_map_app. Qed.

Lemma frames_read_app l1 l2 :
  frames_read (l1 ++ l2) = frames_read l1 ++ frames_read l2.
Proof. apply flat_map_app. Qed.

(** Every frame the listen phase reads is printed once, in the order of
    arrival and numbered from 1; the line that no frame was captured is
    printed exactly when the phase returns without having read one. *)
Theorem listen_reports_each_frame cfg secs fuel w :
  let r := _listen_for_initial_values env cfg secs fuel w in
  stdout_lines (log_of r)
  = numbered_frames 1 (frames_read (log_of r))
    ++ match outcome_of r, frames_read (log_of r) with
       | Done _, [] => [no_frames_line]
       | _, _ => []
       end.
Proof.
  cbv zeta. rewrite listen_unfold. cbv zeta.
  destruct (listen_loop_lines cfg (clock env (step w) + secs) fuel 0
              (after 1 0 w)) as [Hlines Hdone].
  cbv zeta in Hlines, Hdone. change (Z.of_nat 0) with 0 in *.
  set (loop := listen_loop env cfg (clock env (step w) + secs) fuel 0
                           (after 1 0 w)) in *.
  destruct (outcome_of loop) as [observed|e|].
  - specialize (Hdone observed eq_refl). cbn [Nat.add] in Hdone.
    destruct (observed =? 0) eqn:Hzero;
      cbn [outcome_of log_of stdout_lines frames_read flat_map snd app];
      fold (stdout_lines (log_of loop ++ [(clock env (step (world_of loop)),
                                          EvStdout no_frames_line)]));
      fold (frames_read (log_of loop ++ [(clock env (step (world_of loop)),
                                         EvStdout no_frames_line)]));
      fold (stdout_lines (log_of loop ++ []));
      fold (frames_read (log_of loop ++ []));
      rewrite stdout_lines_app, frames_read_app, Hlines;
      cbn [stdout_lines frames_read flat_map snd app]; rewrite !app_nil_r.
    + apply Z.eqb_eq in Hzero.
      destruct (frames_read (log_of loop)); [reflexivity|].
      cbn [List.length] in Hdone. lia.
    + apply Z.eqb_neq in Hzero.
      destruct (frames_read (log_of loop)); [|rewrite app_nil_r; reflexivity].
      cbn [List.length] in Hdone. lia.
  - cbn [outcome_of log_of stdout_lines frames_read flat_map snd app].
    fold (stdout_lines (log_of loop)). fold (frames_read (log_of loop)).
    rewrite Hlines.
    destruct (frames_read (log_of loop)); rewrite app_nil_r; reflexivity.
  - cbn [outcome_of log_of stdout_lines frames_read flat_map snd app].
    fold (stdout_lines (log_of loop)). fold (frames_read (log_of loop)).
    rewrite Hlines.
    destruct (frames_read (log_of loop)); rewrite app_nil_r; reflexivity.
Qed.

(** *** Failures other than a timeout while listening *)

Lemma listen_loop_failure_last cfg deadline e fuel :
  e <> TimeoutError ->
  forall observed w pre t post,
    log_of (listen_loop env cfg deadline fuel observed w)
    = pre ++ (t, EvReadFrame (Raises e)) :: post ->
    post = [] /\
    outcome_of (listen_loop env cfg deadline fuel observed w) = Raised e.
Proof.
  intros He. induction fuel as [|fuel IH]; intros observed w pre t post.
  - intros Heq. destruct pre; discriminate Heq.
  - rewrite listen_loop_unfold. cbv zeta.
    destruct (_ <? deadline).
    2:{ intros Heq. destruct pre as [|p1 [|p2 pre]]; discriminate Heq. }
    destruct (_read_one_frame_from_serial env cfg (reads w)) as [f|[]];
      [| destruct (_ >=? deadline) | | |];
      cbn [prepend log_of outcome_of app]; unfold timed_out_read; intros Heq;
      destruct pre as [|p1 [|p2 [|p3 pre]]]; cbn [app] in Heq;
      try discriminate Heq;
      try (injection Heq as _ _ _ Heq; exact (IH _ _ _ _ _ Heq));
      try (injection Heq as _ _ Habs _; congruence);
      try (injection Heq as _ _ <- <-; split; reflexivity);
      try (destruct pre; discriminate Heq).
Qed.

(** A failure of the frame reader other than a timeout is not absorbed
    by the listen phase: the call that raises is its last action, the
    phase raises the same exception, and the line that no frame was
    captured is not printed. *)
Theorem listen_other_failure_is_fatal cfg secs fuel w e :
  e <> TimeoutError ->
  forall pre t post,
    log_of (_listen_for_initial_values env cfg secs fuel w)
    = pre ++ (t, EvReadFrame (Raises e)) :: post ->
    post = [] /\
    outcome_of (_listen_for_initial_values env cfg secs fuel w) = Raised e.
Proof.
  intros He pre t post. rewrite listen_unfold. cbv zeta.
  pose proof (listen_loop_failure_last cfg (clock env (step w) + secs) e fuel
                He 0 (after 1 0 w)) as Hloop.
  set (loop := listen_loop env cfg (clock env (step w) + secs) fuel 0
                           (after 1 0 w)) in *.
  assert (Hin : forall tail pre' post',
            log_of loop ++ tail = pre' ++ (t, EvReadFrame (Raises e)) :: post' ->
            (forall l, tail <> l ++ (t, EvReadFrame (Raises e)) :: post') ->
            outcome_of loop = Raised e).
  { intros tail pre' post' Heq Htail.
    apply app_eq_app in Heq as [l [[Hl Hr]|[Hl Hr]]].
    - destruct l as [|x l].
      + exfalso. apply (Htail []). symmetry. exact Hr.
      + cbn [app] in Hr. injection Hr as <- _.
        exact (proj2 (Hloop _ _ _ Hl)).
    - exfalso. exact (Htail l Hr). }
  destruct (outcome_of loop) as [observed|e'|] eqn:Hout.
  - destruct (observed =? 0); cbn [log_of]; intros Heq; exfalso;
      (destruct pre as [|p pre]; [discriminate Heq|]);
      injection Heq as _ Heq; apply Hin in Heq; try discriminate Heq;
      intros [|x [|y l]]; discriminate.
  - cbn [log_of outcome_of]. intros Heq.
    destruct pre as [|p pre]; [discriminate Heq|].
    injection Heq as _ Heq. destruct (Hloop _ _ _ Heq) as [-> Hraised].
    split; [reflexivity|]. injection Hraised as ->. reflexivity.
  - cbn [log_of outcome_of]. intros Heq.
    destruct pre as [|p pre]; [discriminate Heq|].
    injection Heq as _ Heq. destruct (Hloop _ _ _ Heq) as [_ Hraised].
    discriminate Hraised.
Qed.

(** *** What is written to the link *)

(** One turn of the loop over the requests. *)
Lemma send_loop_unfold cfg request rest req_idx count delay w :
  send_loop env cfg (request :: rest) req_idx count delay w =
  let sent :=
    [(clock env (step w), EvWrite request);
     (clock env (S (step w)), EvFlush);
     (clock env (S (S (step w))), EvStdout (sent_line req_idx request))] in
  let w3 := {| step := S (S (S (step w))); reads := reads w;
               writes := S (writes w) |} in
  let r := _read_frames env cfg count
             ("Response to request " ++ str_of_int req_idx)%string
             (Some delay) w3 in
  match write_reply env (writes w) with
  | Raises e =>
      {| outcome_of := Raised e;
         world_of := {| step := S (step w); reads := reads w;
                        writes := S (writes w) |};
         log_of := [(clock env (step w), EvWrite request)] |}
  | Returns _ =>
      match flush_reply env (S (writes w)) with
      | Raises e =>
          {| outcome_of := Raised e;
             world_of := {| step := S (S (step w)); reads := reads w;
                            writes := S (writes w) |};
             log_of := [(clock env (step w), EvWrite request);
                        (clock env (S (step w)), EvFlush)] |}
      | Returns _ =>
          match outcome_of r with
          | Done _ =>
              prepend (sent ++ log_of r)
                      (send_loop env cfg rest (req_idx + 1) count delay
                                 (world_of r))
          | Raised e =>
              {| outcome_of := Raised e; world_of := world_of r;
                 log_of := sent ++ log_of r |}
          | OutOfFuel =>
              {| outcome_of := OutOfFuel; world_of := world_of r;
                 log_of := sent ++ log_of r |}
          end
      end
  end.
Proof.
  cbv zeta. cbn [send_loop].
  unfold bind, ser_write, ser_flush, print, act, tick, prepend, sent_line.
  cbn [outcome_of world_of log_of step reads writes].
  destruct (write_reply env (writes w)) as [[]|e];
    cbn [of_reply outcome_of world_of log_of step reads writes];
    [|reflexivity].
  destruct (flush_reply env (S (writes w))) as [[]|e];
    cbn [of_reply outcome_of world_of log_of step reads writes app];
    [|reflexivity].
  destruct (outcome_of (_read_frames env cfg count _ (Some delay) _));
    cbn [outcome_of world_of log_of app]; reflexivity.
Qed.

Lemma written_app l1 l2 : written (l1 ++ l2) = written l1 ++ written l2.
Proof. apply flat_map_app. Qed.

Lemma written_none log :
  forallb (fun e : stamped => not_write (snd e)) log = true ->
  written log = [].
Proof.
  induction log as [|[t ev] log IH]; [reflexivity|].
  cbn [forallb snd]. intros H. apply andb_true_iff in H as [Hev Hlog].
  cbn [written flat_map snd]. fold (written log). rewrite (IH Hlog).
  destruct ev; try reflexivity; discriminate Hev.
Qed.

Lemma read_frames_writes_nothing cfg count label delay w :
  written (log_of (_read_frames env cfg count label (Some delay) w)) = [].
Proof.
  apply written_none. unfold _read_frames. apply emits_only_bind.
  - destruct (truthy delay); [|apply emits_only_ret].
    apply emits_only_sleep. reflexivity.
  - intros _. apply read_frames_loop_emits; reflexivity.
Qed.

Lemma send_loop_written cfg count delay reqs : forall req_idx w,
  exists unsent,
    reqs = written (log_of (send_loop env cfg reqs req_idx count delay w))
           ++ unsent /\
    (outcome_of (send_loop env cfg reqs req_idx count delay w) = Done tt ->
     unsent = []).
Proof.
  induction reqs as [|request rest IH]; intros req_idx w.
  - exists []. split; reflexivity.
  - rewrite send_loop_unfold. cbv zeta.
    destruct (write_reply env (writes w)) as [[]|e].
    2:{ exists rest. split; [reflexivity|discriminate]. }
    destruct (flush_reply env (S (writes w))) as [[]|e].
    2:{ exists rest. split; [reflexivity|discriminate]. }
    pose proof (read_frames_writes_nothing cfg count
                  ("Response to request " ++ str_of_int req_idx)%string delay
                  {| step := S (S (S (step w))); reads := reads w;
                     writes := S (writes w) |}) as Hnone.
    destruct (outcome_of (_read_frames env cfg count _ (Some delay) _)).
    + destruct (IH (req_idx + 1)
                  (world_of (_read_frames env cfg count
                     ("Response to request " ++ str_of_int req_idx)%string
                     (Some delay)
                     {| step := S (S (S (step w))); reads := reads w;
                        writes := S (writes w) |})))
        as (unsent & Hunsent & Hdone).
      exists unsent. cbn [prepend outcome_of log_of].
      rewrite !written_app, Hnone. cbn [written flat_map snd app].
      split; [f_equal; exact Hunsent|exact Hdone].
    + exists rest. cbn [outcome_of log_of].
      rewrite written_app, Hnone. split; [reflexivity|discriminate].
    + exists rest. cbn [outcome_of log_of].
      rewrite written_app, Hnone. split; [reflexivity|discriminate].
Qed.

Lemma parse_requests_spec raws : forall acc parsed,
  parse_requests raws acc = inr parsed ->
  exists requests,
    parsed = acc ++ requests /\
    Forall2 (fun raw request => _parse_hex_sequence raw = Ok request)
            raws requests.
Proof.
  induction raws as [|raw raws IH]; intros acc parsed H;
    cbn [parse_requests] in H.
  - injection H as <-. exists []. rewrite app_nil_r. split; constructor.
  - destruct (_parse_hex_sequence raw) as [request|msg] eqn:Hraw;
      [|discriminate].
    destruct (IH _ _ H) as (requests & -> & Hall).
    exists (request :: requests). rewrite <- app_assoc.
    split; [reflexivity|]. constructor; assumption.
Qed.

Lemma listen_writes_nothing cfg secs fuel w :
  written (log_of (_listen_for_initial_values env cfg secs fuel w)) = [].
Proof. apply written_none, listen_emits; reflexivity. Qed.

(** The log of the with block: the listen phase, then what follows it. *)
Lemma session_log cfg args parsed fuel w :
  log_of (session env cfg args parsed fuel w)
  = log_of (_listen_for_initial_values env cfg (initial_seconds args) fuel w)
    ++ match outcome_of (_listen_for_initial_values env cfg
                           (initial_seconds args) fuel w) with
       | Done _ =>
           log_of (match parsed with
                   | [] => print env no_requests_line
                   | _ => _send_requests_and_collect env cfg parsed
                            (responses_per_request args)
                            (post_write_delay args)
                   end
                     (world_of (_listen_for_initial_values env cfg
                                  (initial_seconds args) fuel w)))
       | _ => []
       end.
Proof. unfold session. apply bind_log. Qed.

(** The log of [main], case by case. *)
Lemma main_log args fuel w :
  (exists line, log_of (main env args fuel w)
                = [(clock env (step w), EvStderr line)]) \/
  (exists parsed closing,
     parse_requests (requests args) [] = inr parsed /\
     (closing = [] \/ exists t, closing = [(t, EvClose)]) /\
     log_of (main env args fuel w)
     = (clock env (step w), EvBanner (port args) (make_cfg args))
       :: (clock env (S (step w)), EvOpen (port args) (make_cfg args))
       :: match open_reply env with
          | Returns _ =>
              log_of (session env (make_cfg args) args parsed fuel
                              (after 2 0 w)) ++ closing
          | Raises _ => []
          end).
Proof.
  destruct (parse_requests (requests args) []) as [[raw msg]|parsed] eqn:Hparse.
  - left. unfold main. rewrite Hparse. eexists. reflexivity.
  - right. exists parsed.
    destruct (open_reply env) as [[]|e] eqn:Hopen.
    + rewrite (main_unfold_parsed env args fuel w parsed Hparse Hopen).
      cbv zeta.
      destruct (outcome_of (session env (make_cfg args) args parsed fuel _)).
      * eexists. split; [reflexivity|]. split; [right; eexists; reflexivity|].
        reflexivity.
      * eexists. split; [reflexivity|]. split; [right; eexists; reflexivity|].
        reflexivity.
      * exists []. split; [reflexivity|]. split; [left; reflexivity|].
        cbn [log_of app]. rewrite app_nil_r. reflexivity.
    + exists []. split; [reflexivity|]. split; [left; reflexivity|].
      unfold main. rewrite Hparse. unfold bind, serial_open, act.
      cbn [outcome_of world_of log_of tick step reads writes].
      rewrite Hopen. reflexivity.
Qed.

(** Whatever happens, what [main] writes to the link is, in order, what
    the first request values parse to: each of them at most once, and
    nothing else. *)
Theorem main_writes_only_parsed_requests args fuel w :
  exists sent unsent,
    requests args = sent ++ unsent /\
    Forall2 (fun raw request => _parse_hex_sequence raw = Ok request)
            sent (written (log_of (main env args fuel w))).
Proof.
  destruct (main_log args fuel w)
    as [[line Hlog]|(parsed & closing & Hparse & Hclosing & Hlog)].
  - exists [], (requests args). rewrite Hlog. split; [reflexivity|constructor].
  - destruct (parse_requests_spec _ _ _ Hparse) as (reqs & Hreqs & Hall).
    cbn [app] in Hreqs. subst reqs.
    assert (Hclose : written closing = [])
      by (destruct Hclosing as [->|[t ->]]; reflexivity).
    rewrite Hlog. cbn [written flat_map snd app].
    fold (written (match open_reply env with
                   | Returns _ =>
                       log_of (session env (make_cfg args) args parsed fuel
                                       (after 2 0 w)) ++ closing
                   | Raises _ => []
                   end)).
    destruct (open_reply env).
    2:{ exists [], (requests args). split; [reflexivity|constructor]. }
    rewrite written_app, Hclose, app_nil_r, session_log, written_app.
    rewrite listen_writes_nothing. cbn [app].
    destruct (outcome_of (_listen_for_initial_values env _ _ fuel _)).
    2,3: exists [], (requests args); split; [reflexivity|constructor].
    destruct parsed as [|request rest].
    { exists [], (requests args). split; [reflexivity|constructor]. }
    unfold _send_requests_and_collect.
    destruct (send_loop_written (make_cfg args) (responses_per_request args)
                (post_write_delay args) (request :: rest) 1
                (world_of (_listen_for_initial_values env (make_cfg args)
                             (initial_seconds args) fuel (after 2 0 w))))
      as (unsent & Hsplit & _).
    rewrite Hsplit in Hall.
    apply Forall2_app_inv_r in Hall as (sent & raws2 & Hsent & _ & Heq).
    exists sent, raws2. split; [exact Heq|exact Hsent].
Qed.

(** When the active phase returns, every request has been written. *)
Theorem active_phase_writes_every_request cfg reqs count delay w :
  exists unsent,
    reqs = written (log_of (_send_requests_and_collect env cfg reqs count
                              delay w)) ++ unsent /\
    (outcome_of (_send_requests_and_collect env cfg reqs count delay w)
     = Done tt -> unsent = []).
Proof. apply send_loop_written. Qed.

(** A settling delay below zero is not refused beforehand: when the
    first write and the flush after it succeed, the first request is
    written, flushed and reported, then [time.sleep] raises
    ([ValueError], or [OverflowError] for minus infinity and for a length
    that does not fit the timestamp) and the phase ends without a frame
    read or a second request. *)
Theorem negative_delay_fails_after_first_write cfg request rest count
        delay w :
  is_negative delay = true ->
  write_reply env (writes w) = Returns tt ->
  flush_reply env (S (writes w)) = Returns tt ->
  _send_requests_and_collect env cfg (request :: rest) count delay w
  = {| outcome_of := Raised (negative_sleep_error env delay);
       world_of := {| step := S (S (S (step w))); reads := reads w;
                      writes := S (writes w) |};
       log_of := [(clock env (step w), EvWrite request);
                  (clock env (S (step w)), EvFlush);
                  (clock env (S (S (step w))),
                   EvStdout (sent_line 1 request))] |}.
Proof.
  intros Hdelay Hwrite Hflush. unfold _send_requests_and_collect.
  rewrite send_loop_unfold. cbv zeta. rewrite Hwrite, Hflush.
  unfold _read_frames, time_sleep, truthy, negative_sleep_error.
  destruct delay as [ticks| | |]; try discriminate Hdelay;
    [|reflexivity].
  cbn [is_negative] in Hdelay. apply Z.ltb_lt in Hdelay.
  replace (ticks =? 0) with false by (symmetry; apply Z.eqb_neq; lia).
  replace (ticks <? 0) with true by (symmetry; apply Z.ltb_lt; lia).
  cbn [negb]. destruct (sleep_fits env ticks); reflexivity.
Qed.

(** *** The order of the phases *)

(** Where an action lies in a log made of two parts, when the first part
    has no action of its kind. *)
Lemma split_in_second_part (p : stamped -> bool) first second pre x post :
  forallb (fun e => negb (p e)) first = true ->
  p x = true ->
  first ++ second = pre ++ x :: post ->
  exists mid, pre = first ++ mid /\ second = mid ++ x :: post.
Proof.
  intros Hfirst Hx Heq.
  apply app_eq_app in Heq as [l [[Hl Hr]|[Hl Hr]]].
  - destruct l as [|y l].
    + exists []. rewrite app_nil_r in Hl. rewrite app_nil_r.
      split; [symmetry; exact Hl|]. symmetry. exact Hr.
    + exfalso. cbn [app] in Hr. injection Hr as <- _.
      rewrite Hl, forallb_app in Hfirst.
      apply andb_true_iff in Hfirst as [_ Hfirst].
      cbn [forallb] in Hfirst. rewrite Hx in Hfirst. discriminate Hfirst.
  - exists l. split; assumption.
Qed.

Lemma no_write_negb log :
  forallb (fun e : stamped => not_write (snd e)) log = true ->
  forallb (fun e => negb (is_write e)) log = true.
Proof.
  induction log as [|e log IH]; [reflexivity|]. cbn [forallb]. intros H.
  apply andb_true_iff in H as [He Hlog]. rewrite (IH Hlog), andb_true_r.
  unfold is_write. rewrite He. reflexivity.
Qed.

(** [main] does not write to the link before the listen phase has
    returned, and once it has written it does not read the clock again:
    the two phases do not interleave. *)
Theorem main_phases_in_order args fuel w pre t data post :
  log_of (main env args fuel w) = pre ++ (t, EvWrite data) :: post ->
  outcome_of (_listen_for_initial_values env (make_cfg args)
                (initial_seconds args) fuel (after 2 0 w)) = Done tt /\
  forallb (fun e => not_time (snd e)) post = true.
Proof.
  intros Heq.
  destruct (main_log args fuel w)
    as [[line Hlog]|(parsed & closing & Hparse & Hclosing & Hlog)].
  { rewrite Hlog in Heq. destruct pre as [|p [|q pre]]; discriminate Heq. }
  rewrite Hlog in Heq. clear Hlog.
  destruct (open_reply env).
  2:{ destruct pre as [|p [|q [|r pre]]]; discriminate Heq. }
  rewrite session_log in Heq.
  set (listen := _listen_for_initial_values env (make_cfg args)
                   (initial_seconds args) fuel (after 2 0 w)) in *.
  set (tail := match outcome_of listen with
               | Done _ => _
               | _ => []
               end) in Heq.
  rewrite <- app_assoc in Heq.
  apply (split_in_second_part is_write
           ((clock env (step w), EvBanner (port args) (make_cfg args))
            :: (clock env (S (step w)), EvOpen (port args) (make_cfg args))
            :: log_of listen)
           (tail ++ closing))
    in Heq as (mid & _ & Hsecond); [| |reflexivity].
  2:{ cbn [forallb]. apply no_write_negb.
      apply (listen_emits not_write); reflexivity. }
  assert (Hclose : forallb (fun e : stamped => not_time (snd e)) closing = true)
    by (destruct Hclosing as [->|[t' ->]]; reflexivity).
  assert (Hnowrite : forall l, closing <> l ++ (t, EvWrite data) :: post).
  { intros l Habs. destruct Hclosing as [->|[t' ->]];
      destruct l as [|? [|? ?]]; discriminate Habs. }
  subst tail. destruct (outcome_of listen) as [[]| |].
  - split; [reflexivity|].
    assert (Htail : forallb (fun e : stamped => not_time (snd e))
                      (log_of (match parsed with
                               | [] => print env no_requests_line
                               | _ => _send_requests_and_collect env
                                        (make_cfg args) parsed
                                        (responses_per_request args)
                                        (post_write_delay args)
                               end (world_of listen))) = true).
    { destruct parsed; [reflexivity|].
      apply (send_loop_emits not_time); reflexivity. }
    assert (Hall : forallb (fun e : stamped => not_time (snd e))
                     (mid ++ (t, EvWrite data) :: post) = true).
    { rewrite <- Hsecond, forallb_app, Htail, Hclose. reflexivity. }
    rewrite forallb_app in Hall. apply andb_true_iff in Hall as [_ Hall].
    cbn [forallb] in Hall. apply andb_true_iff in Hall as [_ Hall].
    exact Hall.
  - exfalso. exact (Hnowrite mid Hsecond).
  - exfalso. exact (Hnowrite mid Hsecond).
Qed.

(** [main] uses the link (frame reads, writes, flushes) only while it is
    open: before each such action the link was opened, with success, and
    not closed. *)
Theorem main_uses_link_only_while_open args fuel w pre x post :
  log_of (main env args fuel w) = pre ++ x :: post ->
  uses_link x = true ->
  open_reply env = Returns tt /\
  (exists t, In (t, EvOpen (port args) (make_cfg args)) pre) /\
  filter is_close pre = [].
Proof.
  intros Heq Hx.
  destruct (main_log args fuel w)
    as [[line Hlog]|(parsed & closing & Hparse & Hclosing & Hlog)].
  { rewrite Hlog in Heq. destruct pre as [|p [|q pre]]; try discriminate Heq.
    injection Heq as <- _. discriminate Hx. }
  rewrite Hlog in Heq. clear Hlog.
  destruct (open_reply env) as [[]|e].
  2:{ destruct pre as [|p [|q [|r pre]]]; try discriminate Heq;
        injection Heq; intros; subst; discriminate Hx. }
  split; [reflexivity|].
  pose proof (no_close_filter _
                (session_no_close env (make_cfg args) args parsed fuel
                   (after 2 0 w))) as Hnone.
  set (body := log_of (session env (make_cfg args) args parsed fuel
                               (after 2 0 w))) in *.
  destruct pre as [|p [|q pre]].
  - injection Heq as <- _. discriminate Hx.
  - injection Heq as _ <- _. discriminate Hx.
  - injection Heq as <- <- Heq. split; [eexists; right; left; reflexivity|].
    cbn [filter is_close snd].
    apply app_eq_app in Heq as [l [[Hl Hr]|[Hl Hr]]].
    + rewrite Hl, filter_app in Hnone.
      apply app_eq_nil in Hnone as [Hnone _]. exact Hnone.
    + exfalso. destruct Hclosing as [->|[t ->]].
      * destruct l; discriminate Hr.
      * destruct l as [|a [|b l]]; try discriminate Hr.
        injection Hr as <- _. discriminate Hx.
Qed.

End PhaseMore.

Section PhaseMoreWitnesses.

Lemma listen_other_failure_is_fatal_witness :
  @nil stamped = [] /\
  outcome_of (_listen_for_initial_values broken_env sample_cfg 5 3 start)
  = Raised SerialException.
Proof.
  apply (listen_other_failure_is_fatal broken_env sample_cfg 5 3 start
           SerialException ltac:(discriminate)
           [(0, EvTime); (1, EvTime)] 2).
  vm_compute. reflexivity.
Defined.

Lemma negative_delay_fails_after_first_write_witness :
  outcome_of (_send_requests_and_collect echo_env sample_cfg
                [[x7e]; [x14]] 1 (Finite (-1)) start)
  = Raised SleepValueError /\
  outcome_of (_send_requests_and_collect echo_env sample_cfg
                [[x7e]; [x14]] 1 MinusInf start)
  = Raised SleepOverflowError.
Proof.
  rewrite (negative_delay_fails_after_first_write echo_env sample_cfg
             [x7e] [[x14]] 1 (Finite (-1)) start eq_refl eq_refl eq_refl).
  rewrite (negative_delay_fails_after_first_write echo_env sample_cfg
             [x7e] [[x14]] 1 MinusInf start eq_refl eq_refl eq_refl).
  split; reflexivity.
Defined.

Lemma main_phases_in_order_witness :
  outcome_of (_listen_for_initial_values echo_env
                (make_cfg (sample_args ["0x7E"])) 2 4 (after 2 0 start))
  = Done tt /\
  forallb (fun e : stamped => not_time (snd e))
          [(8, EvFlush); (9, EvStdout "Sent request 1: 7E");
           (10, EvSleep 200); (11, EvReadFrame (Returns [x01]));
           (12, EvStdout "Response to request 1 1: 01"); (13, EvClose)]
  = true.
Proof.
  apply (main_phases_in_order echo_env (sample_args ["0x7E"]) 4 start
           [(0, EvBanner "COM5" (make_cfg (sample_args ["0x7E"])));
            (1, EvOpen "COM5" (make_cfg (sample_args ["0x7E"])));
            (2, EvTime); (3, EvTime); (4, EvReadFrame (Returns [x01]));
            (5, EvStdout "Okamzite frame 1: 01"); (6, EvTime)]
           7 [x7e]).
  vm_compute. reflexivity.
Defined.

Lemma main_uses_link_only_while_open_witness :
  open_reply echo_env = Returns tt /\
  (exists t,
     In (t, EvOpen (port (sample_args ["0x7E"]))
                   (make_cfg (sample_args ["0x7E"])))
        [(0, EvBanner "COM5" (make_cfg (sample_args ["0x7E"])));
         (1, EvOpen "COM5" (make_cfg (sample_args ["0x7E"])));
         (2, EvTime); (3, EvTime)]) /\
  filter is_close
    [(0, EvBanner "COM5" (make_cfg (sample_args ["0x7E"])));
     (1, EvOpen "COM5" (make_cfg (sample_args ["0x7E"])));
     (2, EvTime); (3, EvTime)] = [].
Proof.
  apply (main_uses_link_only_while_open echo_env (sample_args ["0x7E"]) 4
           start _ (4, EvReadFrame (Returns [x01]))
           [(5, EvStdout "Okamzite frame 1: 01"); (6, EvTime);
            (7, EvWrite [x7e]); (8, EvFlush);
            (9, EvStdout "Sent request 1: 7E"); (10, EvSleep 200);
            (11, EvReadFrame (Returns [x01]));
            (12, EvStdout "Response to request 1 1: 01"); (13, EvClose)]).
  - vm_compute. reflexivity.
  - reflexivity.
Defined.

End PhaseMoreWitnesses.

(* ================================================================== *)
(** ** Properties of the raw dump *)
(* ================================================================== *)

Section DumpFacts.

Local Open Scope list_scope.

Variable env : Dump.Env.

(** One turn after the test of the loop. *)
Lemma read_turn_unfold size continue w :
  Dump.read_turn env size continue w =
  if Dump.interrupt env (Dump.step w) then
    {| Dump.outcome_of := Dump.Raised Dump.KeyboardInterrupt;
       Dump.world_of := Dump.tick w;
       Dump.log_of := [] |}
  else
    let t := Dump.monotonic env (Dump.step w) in
    let w1 := {| Dump.step := S (Dump.step w);
                 Dump.reads := S (Dump.reads w) |} in
    match Dump.read_reply env (Dump.reads w) with
    | Dump.Raises e =>
        {| Dump.outcome_of := Dump.Raised e;
           Dump.world_of := w1;
           Dump.log_of := [(t, Dump.EvReadFailed size)] |}
    | Dump.Returns [] =>
        dump_prepend [(t, Dump.EvRead size [])] (continue w1)
    | Dump.Returns (b :: chunk) =>
        if Dump.interrupt env (S (Dump.step w)) then
          {| Dump.outcome_of := Dump.Raised Dump.KeyboardInterrupt;
             Dump.world_of := Dump.tick w1;
             Dump.log_of := [(t, Dump.EvRead size (b :: chunk))] |}
        else
          dump_prepend
            [(t, Dump.EvRead size (b :: chunk));
             (Dump.monotonic env (S (Dump.step w)),
              Dump.EvStdout (render_bytes (b :: chunk)))]
            (continue (Dump.tick w1))
    end.
Proof.
  unfold Dump.read_turn, Dump.bind, Dump.ser_read, Dump.print, Dump.act,
    Dump.interruptible, Dump.ret, dump_prepend, Dump.tick.
  destruct (Dump.interrupt env (Dump.step w)); [reflexivity|].
  cbv zeta.
  destruct (Dump.read_reply env (Dump.reads w)) as [[|b chunk]|e];
    cbn [Dump.outcome_of Dump.world_of Dump.log_of Dump.step Dump.reads
           Dump.is_nil app]; try reflexivity.
  destruct (Dump.interrupt env (S (Dump.step w)));
    cbn [Dump.outcome_of Dump.world_of Dump.log_of Dump.step Dump.reads app];
    reflexivity.
Qed.

(** The test of the loop when a duration was given. *)
Lemma read_loop_unfold_some stop size fuel w :
  Dump.read_loop env (Some stop) size (S fuel) w =
  if Dump.interrupt env (Dump.step w) then
    {| Dump.outcome_of := Dump.Raised Dump.KeyboardInterrupt;
       Dump.world_of := Dump.tick w;
       Dump.log_of := [] |}
  else
    let t := Dump.monotonic env (Dump.step w) in
    if t >=? stop then
      {| Dump.outcome_of := Dump.Done tt;
         Dump.world_of := Dump.tick w;
         Dump.log_of := [(t, Dump.EvMonotonic)] |}
    else
      dump_prepend [(t, Dump.EvMonotonic)]
        (Dump.read_turn env size (Dump.read_loop env (Some stop) size fuel)
                        (Dump.tick w)).
Proof.
  cbn [Dump.read_loop].
  unfold Dump.bind at 1. unfold Dump.time_monotonic, Dump.interruptible.
  destruct (Dump.interrupt env (Dump.step w)); [reflexivity|].
  cbv zeta. cbn [Dump.outcome_of Dump.world_of Dump.log_of].
  destruct (Dump.monotonic env (Dump.step w) >=? stop); [reflexivity|].
  unfold dump_prepend. reflexivity.
Qed.

Lemma read_loop_unfold_none size fuel w :
  Dump.read_loop env None size (S fuel) w
  = Dump.read_turn env size (Dump.read_loop env None size fuel) w.
Proof. reflexivity. Qed.

Lemma dump_chunks_app l1 l2 :
  dump_chunks (l1 ++ l2) = dump_chunks l1 ++ dump_chunks l2.
Proof. apply flat_map_app. Qed.

Lemma dump_lines_app l1 l2 :
  dump_lines (l1 ++ l2) = dump_lines l1 ++ dump_lines l2.
Proof. apply flat_map_app. Qed.

Lemma dump_renders_nothing log :
  dump_chunks log = [] -> dump_lines log = [] -> dump_renders_chunks env log.
Proof.
  intros Hc Hl. exists [], []. rewrite Hc, Hl. cbn. auto.
Qed.

Lemma dump_renders_skip pre log :
  dump_chunks pre = [] -> dump_lines pre = [] ->
  dump_renders_chunks env log -> dump_renders_chunks env (pre ++ log).
Proof.
  intros Hc Hl (printed & lost & H1 & H2 & H3 & H4).
  exists printed, lost.
  rewrite dump_chunks_app, dump_lines_app, Hc, Hl. cbn. auto.
Qed.

Lemma dump_renders_skip_end log post :
  dump_chunks post = [] -> dump_lines post = [] ->
  dump_renders_chunks env log -> dump_renders_chunks env (log ++ post).
Proof.
  intros Hc Hl (printed & lost & H1 & H2 & H3 & H4).
  exists printed, lost.
  rewrite dump_chunks_app, dump_lines_app, Hc, Hl, !app_nil_r. auto.
Qed.

Lemma dump_renders_printed t t' size b chunk log :
  dump_renders_chunks env log ->
  dump_renders_chunks env
    ((t, Dump.EvRead size (b :: chunk))
       :: (t', Dump.EvStdout (render_bytes (b :: chunk))) :: log).
Proof.
  intros (printed & lost & H1 & H2 & H3 & H4).
  exists ((b :: chunk) :: printed), lost.
  unfold dump_chunks, dump_lines in *.
  cbn [flat_map snd app map]. rewrite H1, H2. auto.
Qed.

(** One turn keeps what the rest of the loop keeps. *)
Lemma read_turn_renders size continue w :
  (forall w', dump_renders_chunks env (Dump.log_of (continue w'))) ->
  dump_renders_chunks env (Dump.log_of (Dump.read_turn env size continue w)).
Proof.
  intros Hk. rewrite read_turn_unfold.
  destruct (Dump.interrupt env (Dump.step w)) eqn:Hi.
  - now apply dump_renders_nothing.
  - cbv zeta.
    destruct (Dump.read_reply env (Dump.reads w)) as [[|b chunk]|e].
    + apply (dump_renders_skip [_]); [reflexivity|reflexivity|apply Hk].
    + destruct (Dump.interrupt env (S (Dump.step w))) eqn:Hi'.
      * exists [], [b :: chunk]. cbn. repeat split; auto.
        intros Hq. rewrite Hq in Hi'. discriminate.
      * apply dump_renders_printed, Hk.
    + now apply dump_renders_nothing.
Qed.

Lemma read_loop_renders stop_at size fuel w :
  dump_renders_chunks env
    (Dump.log_of (Dump.read_loop env stop_at size fuel w)).
Proof.
  revert w. induction fuel as [|fuel IH]; intros w.
  - now apply dump_renders_nothing.
  - destruct stop_at as [stop|].
    + rewrite read_loop_unfold_some.
      destruct (Dump.interrupt env (Dump.step w)).
      * now apply dump_renders_nothing.
      * cbv zeta.
        destruct (Dump.monotonic env (Dump.step w) >=? stop).
        -- now apply dump_renders_nothing.
        -- apply (dump_renders_skip [_]); [reflexivity|reflexivity|].
           apply read_turn_renders, IH.
    + rewrite read_loop_unfold_none. apply read_turn_renders, IH.
Qed.

(** The loop never closes the link. *)
Lemma read_turn_no_close size continue w :
  (forall w', filter dump_is_close (Dump.log_of (continue w')) = []) ->
  filter dump_is_close (Dump.log_of (Dump.read_turn env size continue w)) = [].
Proof.
  intros Hk. rewrite read_turn_unfold.
  destruct (Dump.interrupt env (Dump.step w)); [reflexivity|].
  cbv zeta.
  destruct (Dump.read_reply env (Dump.reads w)) as [[|b chunk]|e];
    [cbn; apply Hk| |reflexivity].
  destruct (Dump.interrupt env (S (Dump.step w))); [reflexivity|].
  cbn. apply Hk.
Qed.

Lemma read_loop_no_close stop_at size fuel w :
  filter dump_is_close
    (Dump.log_of (Dump.read_loop env stop_at size fuel w)) = [].
Proof.
  revert w. induction fuel as [|fuel IH]; intros w; [reflexivity|].
  destruct stop_at as [stop|].
  - rewrite read_loop_unfold_some.
    destruct (Dump.interrupt env (Dump.step w)); [reflexivity|].
    cbv zeta.
    destruct (Dump.monotonic env (Dump.step w) >=? stop); [reflexivity|].
    cbn. apply read_turn_no_close, IH.
  - rewrite read_loop_unfold_none. apply read_turn_no_close, IH.
Qed.

(** Without a stop time the loop ends only by an exception. *)
Lemma read_loop_none_never_done size fuel w :
  Dump.outcome_of (Dump.read_loop env None size fuel w) <> Dump.Done tt.
Proof.
  revert w. induction fuel as [|fuel IH]; intros w; [discriminate|].
  rewrite read_loop_unfold_none, read_turn_unfold.
  destruct (Dump.interrupt env (Dump.step w)); [discriminate|].
  cbv zeta.
  destruct (Dump.read_reply env (Dump.reads w)) as [[|b chunk]|e];
    [apply IH| |discriminate].
  destruct (Dump.interrupt env (S (Dump.step w))); [discriminate|apply IH].
Qed.

(** Left alone on a link that works, the loop without a stop time goes
    on: one read per turn, and no look at the clock. *)
Lemma read_loop_none_runs_on size fuel w :
  (forall k, Dump.interrupt env k = false) ->
  (forall n, exists chunk, Dump.read_reply env n = Dump.Returns chunk) ->
  let r := Dump.read_loop env None size fuel w in
  Dump.outcome_of r = Dump.OutOfFuel
  /\ List.length (filter dump_is_read (Dump.log_of r)) = fuel
  /\ filter dump_is_clock (Dump.log_of r) = [].
Proof.
  intros Hq Hr. revert w. induction fuel as [|fuel IH]; intros w.
  - cbn. auto.
  - cbv zeta. rewrite read_loop_unfold_none, read_turn_unfold.
    rewrite !Hq. cbv zeta.
    destruct (Hr (Dump.reads w)) as [chunk ->].
    destruct chunk as [|b chunk]; cbn;
      match goal with
      | |- context [Dump.read_loop env None size fuel ?w1] =>
          destruct (IH w1) as (H1 & H2 & H3)
      end; rewrite H1, H2, H3; auto.
Qed.

Section Clock.

Hypothesis clock_monotone :
  forall i j, (i <= j)%nat -> Dump.monotonic env i <= Dump.monotonic env j.

(** Once the stop time has passed, the loop starts no read. *)
Lemma read_loop_after_stop stop size fuel w :
  stop <= Dump.monotonic env (Dump.step w) ->
  filter dump_is_read
    (Dump.log_of (Dump.read_loop env (Some stop) size fuel w)) = [].
Proof.
  intros Hs. destruct fuel as [|fuel]; [reflexivity|].
  rewrite read_loop_unfold_some.
  destruct (Dump.interrupt env (Dump.step w)); [reflexivity|].
  cbv zeta.
  destruct (Dump.monotonic env (Dump.step w) >=? stop) eqn:Ht;
    [reflexivity|].
  rewrite Z.geb_leb in Ht. apply Z.leb_gt in Ht. lia.
Qed.

Lemma filter_late_le_read stop l :
  filter dump_is_read l = [] -> filter (dump_late_read stop) l = [].
Proof.
  induction l as [|e l IH]; [reflexivity|].
  cbn. unfold dump_late_read at 1.
  destruct (dump_is_read e); [discriminate|]. cbn. exact IH.
Qed.

Lemma read_loop_late_reads stop size fuel w :
  (List.length (filter (dump_late_read stop)
             (Dump.log_of (Dump.read_loop env (Some stop) size fuel w)))
   <= 1)%nat.
Proof.
  revert w. induction fuel as [|fuel IH]; intros w; [cbn; lia|].
  rewrite read_loop_unfold_some.
  destruct (Dump.interrupt env (Dump.step w)); [cbn; lia|].
  cbv zeta.
  destruct (Dump.monotonic env (Dump.step w) >=? stop); [cbn; lia|].
  unfold dump_prepend. cbn [Dump.log_of app filter].
  change (dump_late_read stop
            (Dump.monotonic env (Dump.step w), Dump.EvMonotonic))
    with false. cbv iota.
  rewrite read_turn_unfold. cbn [Dump.tick Dump.step Dump.reads].
  destruct (Dump.interrupt env (S (Dump.step w))); [cbn; lia|].
  cbv zeta.
  pose proof (clock_monotone (S (Dump.step w)) (S (S (Dump.step w)))
                ltac:(lia)) as Hm1.
  pose proof (clock_monotone (S (Dump.step w)) (S (S (S (Dump.step w))))
                ltac:(lia)) as Hm2.
  destruct (Dump.read_reply env (Dump.reads w)) as [[|b chunk]|e].
  - unfold dump_prepend. cbn [Dump.log_of app filter].
    unfold dump_late_read at 1. cbn [dump_is_read snd fst andb].
    destruct (stop <=? Dump.monotonic env (S (Dump.step w))) eqn:Hl.
    + apply Z.leb_le in Hl.
      rewrite filter_late_le_read; [cbn; lia|].
      apply read_loop_after_stop. cbn [Dump.step Dump.tick]. lia.
    + apply IH.
  - destruct (Dump.interrupt env (S (S (Dump.step w)))).
    + cbn [Dump.log_of filter].
      destruct (dump_late_read stop _); cbn; lia.
    + unfold dump_prepend. cbn [Dump.log_of app filter].
      change (dump_late_read stop
                (Dump.monotonic env (S (S (Dump.step w))),
                 Dump.EvStdout (render_bytes (b :: chunk))))
        with false. cbv iota.
      unfold dump_late_read at 1. cbn [dump_is_read snd fst andb].
      destruct (stop <=? Dump.monotonic env (S (Dump.step w))) eqn:Hl.
      * apply Z.leb_le in Hl.
        rewrite filter_late_le_read; [cbn; lia|].
        apply read_loop_after_stop. cbn [Dump.step Dump.tick]. lia.
      * apply IH.
  - cbn [Dump.log_of filter].
    destruct (dump_late_read stop _); cbn; lia.
Qed.

(** The loop ends once the clock has reached the stop time. *)
Lemma read_loop_some_stops stop size K fuel w :
  stop <= Dump.monotonic env K ->
  (K <= Dump.step w + fuel)%nat ->
  Dump.outcome_of (Dump.read_loop env (Some stop) size (S fuel) w)
  <> Dump.OutOfFuel.
Proof.
  intros HK. revert w. induction fuel as [|fuel IH]; intros w Hle.
  - rewrite read_loop_unfold_some.
    destruct (Dump.interrupt env (Dump.step w)); [discriminate|].
    cbv zeta.
    destruct (Dump.monotonic env (Dump.step w) >=? stop) eqn:Ht;
      [discriminate|].
    rewrite Z.geb_leb in Ht. apply Z.leb_gt in Ht.
    pose proof (clock_monotone K (Dump.step w) ltac:(lia)). lia.
  - rewrite read_loop_unfold_some.
    destruct (Dump.interrupt env (Dump.step w)); [discriminate|].
    cbv zeta.
    destruct (Dump.monotonic env (Dump.step w) >=? stop); [discriminate|].
    unfold dump_prepend. cbn [Dump.outcome_of].
    rewrite read_turn_unfold. cbn [Dump.tick Dump.step Dump.reads].
    destruct (Dump.interrupt env (S (Dump.step w))); [discriminate|].
    cbv zeta.
    destruct (Dump.read_reply env (Dump.reads w)) as [[|b chunk]|e];
      [| |discriminate].
    + unfold dump_prepend. cbn [Dump.outcome_of].
      apply IH. cbn [Dump.step Dump.tick]. lia.
    + destruct (Dump.interrupt env (S (S (Dump.step w)))); [discriminate|].
      unfold dump_prepend. cbn [Dump.outcome_of].
      apply IH. cbn [Dump.step Dump.tick]. lia.
Qed.

End Clock.

(** The body of the with block: the user stops it before the loop, or
    the loop runs after the opening line. *)
Lemma with_body_shape args fuel w :
  let t := Dump.monotonic env in
  let s := Dump.step w in
  let opened :=
    (t s, Dump.EvOpened (Dump.port args) (Dump.baudrate args)) in
  let r := Dump.with_body env args fuel w in
  (Dump.interrupt env s = true
   /\ r = {| Dump.outcome_of := Dump.Raised Dump.KeyboardInterrupt;
             Dump.world_of := Dump.tick w;
             Dump.log_of := [] |})
  \/ (Dump.interrupt env s = false
      /\ Dump.duration args > 0
      /\ Dump.interrupt env (S s) = true
      /\ r = {| Dump.outcome_of := Dump.Raised Dump.KeyboardInterrupt;
                Dump.world_of := Dump.tick (Dump.tick w);
                Dump.log_of := [opened] |})
  \/ (Dump.interrupt env s = false
      /\ exists stop_at pre w0,
           ((Dump.duration args <= 0 /\ stop_at = None /\ pre = []
             /\ w0 = Dump.tick w)
            \/ (Dump.duration args > 0
                /\ Dump.interrupt env (S s) = false
                /\ stop_at = Some (t (S s) + Dump.duration args)
                /\ pre = [(t (S s), Dump.EvMonotonic)]
                /\ w0 = Dump.tick (Dump.tick w)))
           /\ let l := Dump.read_loop env stop_at (Dump.chunk_size args)
                                      fuel w0 in
              r = {| Dump.outcome_of :=
                       match Dump.outcome_of l with
                       | Dump.Raised Dump.KeyboardInterrupt => Dump.Done tt
                       | o => o
                       end;
                     Dump.world_of := Dump.world_of l;
                     Dump.log_of := opened :: pre ++ Dump.log_of l |}).
Proof.
  cbv zeta.
  unfold Dump.with_body, Dump.print_opened, Dump.act,
    Dump.time_monotonic, Dump.bind, Dump.except_KeyboardInterrupt, Dump.ret.
  unfold Dump.interruptible.
  cbv beta zeta.
  destruct (Dump.interrupt env (Dump.step w)) eqn:Hi1.
  { left. cbn. auto. }
  right.
  cbn [Dump.outcome_of Dump.world_of Dump.log_of Dump.tick Dump.step
         Dump.reads].
  destruct (Dump.duration args >? 0) eqn:Hd.
  - apply Z.gtb_lt in Hd.
    destruct (Dump.interrupt env (S (Dump.step w))) eqn:Hi2.
    { left. cbn. rewrite Hi2. cbn. repeat split; auto; lia. }
    right. split; [reflexivity|].
    eexists _, _, _. split.
    { right. repeat split; try reflexivity; lia. }
    cbn [Dump.outcome_of Dump.world_of Dump.log_of Dump.tick
                     Dump.step Dump.reads].
    rewrite Hi2.
    cbn [Dump.outcome_of Dump.world_of Dump.log_of Dump.tick
                     Dump.step Dump.reads].
    destruct (Dump.read_loop env _ (Dump.chunk_size args) fuel _)
      as [[[]|[]|] w' l]; cbn; rewrite ?app_nil_r; auto.
  - right. split; [reflexivity|].
    assert (Dump.duration args <= 0) as Hle.
    { destruct (Z.gtb_spec (Dump.duration args) 0); [discriminate|lia]. }
    eexists _, _, _. split.
    { left. repeat split; try reflexivity; exact Hle. }
    cbn [Dump.outcome_of Dump.world_of Dump.log_of Dump.tick
                     Dump.step Dump.reads].
    destruct (Dump.read_loop env _ (Dump.chunk_size args) fuel _)
      as [[[]|[]|] w' l]; cbn; rewrite ?app_nil_r; auto.
Qed.

(** [read_forever] on a link that opens: the body of the with block, then
    the closing of the link. *)
Lemma read_forever_unfold args fuel w :
  Dump.open_reply env = Dump.Returns tt ->
  let b := Dump.with_body env args fuel (Dump.tick w) in
  let opening :=
    (Dump.monotonic env (Dump.step w),
     Dump.EvOpen (Dump.port args) (Dump.baudrate args)
                 (Dump.timeout args)) in
  Dump.read_forever env args fuel w
  = {| Dump.outcome_of := Dump.outcome_of b;
       Dump.world_of := match Dump.outcome_of b with
                        | Dump.OutOfFuel => Dump.world_of b
                        | _ => Dump.tick (Dump.world_of b)
                        end;
       Dump.log_of :=
         opening :: Dump.log_of b
           ++ match Dump.outcome_of b with
              | Dump.OutOfFuel => []
              | _ => [(Dump.monotonic env (Dump.step (Dump.world_of b)),
                       Dump.EvClose)]
              end |}.
Proof.
  intros Hopen. cbv zeta.
  unfold Dump.read_forever, Dump.serial_open, Dump.serial_close.
  unfold Dump.bind at 1. cbn [Dump.outcome_of Dump.world_of Dump.log_of].
  rewrite Hopen. unfold Dump.finally.
  destruct (Dump.with_body env args fuel (Dump.tick w)) as [[[]|e|] w' l];
    cbn; rewrite ?app_nil_r; reflexivity.
Qed.

Lemma read_forever_open_fails args fuel w e :
  Dump.open_reply env = Dump.Raises e ->
  Dump.read_forever env args fuel w
  = {| Dump.outcome_of := Dump.Raised e;
       Dump.world_of := Dump.tick w;
       Dump.log_of :=
         [(Dump.monotonic env (Dump.step w),
           Dump.EvOpen (Dump.port args) (Dump.baudrate args)
                       (Dump.timeout args))] |}.
Proof.
  intros Hopen.
  unfold Dump.read_forever, Dump.serial_open, Dump.bind.
  cbn [Dump.outcome_of Dump.world_of Dump.log_of].
  rewrite Hopen. reflexivity.
Qed.

End DumpFacts.

Section DumpProperties.

Local Open Scope list_scope.

Variable env : Dump.Env.

(** [read_forever] without a duration ("runs until interrupted"): on a
    link that opens and whose reads do not fail, and as long as the user
    does not interrupt, the run goes on for any number of turns, with one
    read per turn; it never looks at the clock and does not close the
    link. *)
Theorem dump_without_duration_runs_on args fuel w :
  Dump.duration args <= 0 ->
  Dump.open_reply env = Dump.Returns tt ->
  (forall k, Dump.interrupt env k = false) ->
  (forall n, exists chunk, Dump.read_reply env n = Dump.Returns chunk) ->
  let r := Dump.read_forever env args fuel w in
  Dump.outcome_of r = Dump.OutOfFuel
  /\ List.length (filter dump_is_read (Dump.log_of r)) = fuel
  /\ filter dump_is_clock (Dump.log_of r) = []
  /\ filter dump_is_close (Dump.log_of r) = [].
Proof.
  intros Hd Hopen Hq Hr. cbv zeta.
  rewrite (read_forever_unfold env args fuel w Hopen). cbv zeta.
  destruct (with_body_shape env args fuel (Dump.tick w))
    as [[Hi _]|[(_ & _ & Hi & _)|(_ & stop_at & pre & w0 & Hcase & Hb)]];
    try (rewrite Hq in Hi; discriminate).
  destruct Hcase as [(_ & -> & -> & ->)|(Hpos & _)]; [|lia].
  cbv zeta in Hb. rewrite Hb.
  cbn [Dump.outcome_of Dump.world_of Dump.log_of app].
  destruct (read_loop_none_runs_on env (Dump.chunk_size args) fuel
              (Dump.tick (Dump.tick w)) Hq Hr) as (H1 & H2 & H3).
  rewrite H1. rewrite app_nil_r. cbn [filter dump_is_read dump_is_clock
                                        dump_is_close snd].
  rewrite H2, H3, read_loop_no_close. auto.
Qed.

(** What [read_forever] prints on stdout are the renderings of the chunks
    of at least one byte that [ser.read] returned, in the order of the
    reads; a read that returns nothing prints nothing.  Only the chunk
    read last can be missing, when the user interrupts before it is
    printed. *)
Theorem dump_prints_the_chunks_read args fuel w :
  let log := Dump.log_of (Dump.read_forever env args fuel w) in
  exists printed lost,
    dump_chunks log = printed ++ lost
    /\ dump_lines log = map render_bytes printed
    /\ (List.length lost <= 1)%nat
    /\ ((forall k, Dump.interrupt env k = false) -> lost = []).
Proof.
  cbv zeta. change (dump_renders_chunks env
                      (Dump.log_of (Dump.read_forever env args fuel w))).
  destruct (Dump.open_reply env) as [[]|e] eqn:Hopen.
  - rewrite (read_forever_unfold env args fuel w Hopen). cbv zeta.
    cbn [Dump.log_of].
    apply (dump_renders_skip env [_]); [reflexivity|reflexivity|].
    apply dump_renders_skip_end;
      [destruct (Dump.outcome_of _); reflexivity
      |destruct (Dump.outcome_of _); reflexivity|].
    destruct (with_body_shape env args fuel (Dump.tick w))
      as [[_ ->]|[(_ & _ & _ & ->)
                 |(_ & stop_at & pre & w0 & Hcase & ->)]].
    + now apply dump_renders_nothing.
    + now apply dump_renders_nothing.
    + cbn [Dump.log_of].
      apply (dump_renders_skip env [_]); [reflexivity|reflexivity|].
      apply dump_renders_skip;
        [destruct Hcase as [(_ & _ & -> & _)|(_ & _ & _ & -> & _)];
         reflexivity
        |destruct Hcase as [(_ & _ & -> & _)|(_ & _ & _ & -> & _)];
         reflexivity|].
      apply read_loop_renders.
  - rewrite (read_forever_open_fails env args fuel w e Hopen).
    now apply dump_renders_nothing.
Qed.

(** The with block of [read_forever]: when the run comes to an end on a
    link that opened, the link is closed exactly once, as the last action
    of the run, whatever ended the loop. *)
Theorem dump_link_closed_exactly_once args fuel w :
  Dump.open_reply env = Dump.Returns tt ->
  let r := Dump.read_forever env args fuel w in
  Dump.outcome_of r <> Dump.OutOfFuel ->
  exists pre t,
    Dump.log_of r = pre ++ [(t, Dump.EvClose)]
    /\ filter dump_is_close pre = [].
Proof.
  intros Hopen. cbv zeta.
  rewrite (read_forever_unfold env args fuel w Hopen). cbv zeta.
  cbn [Dump.outcome_of Dump.log_of]. intros Hout.
  assert (filter dump_is_close
            (Dump.log_of (Dump.with_body env args fuel (Dump.tick w))) = [])
    as Hbody.
  { destruct (with_body_shape env args fuel (Dump.tick w))
      as [[_ ->]|[(_ & _ & _ & ->)
                 |(_ & stop_at & pre & w0 & Hcase & ->)]];
      [reflexivity|reflexivity|].
    cbn [Dump.log_of]. change (?a :: ?l) with ([a] ++ l).
    rewrite !filter_app, read_loop_no_close.
    destruct Hcase as [(_ & _ & -> & _)|(_ & _ & _ & -> & _)]; reflexivity. }
  destruct (Dump.outcome_of (Dump.with_body env args fuel (Dump.tick w)))
    eqn:Ho; [| |congruence].
  - eexists (_ :: _), _. split; [reflexivity|].
    cbn [filter dump_is_close snd]. exact Hbody.
  - eexists (_ :: _), _. split; [reflexivity|].
    cbn [filter dump_is_close snd]. exact Hbody.
Qed.

(** The [try] of [read_forever] covers the loop only: on a link that
    opened, a [KeyboardInterrupt] leaves the function exactly when the
    user interrupts before the loop, at the opening line or, with a
    duration, at the reading of the clock that follows it.  An interrupt
    inside the loop never does.  (Interrupts are taken at the actions of
    the body of the with block.) *)
Theorem dump_interrupt_escapes_only_before_loop args fuel w :
  Dump.open_reply env = Dump.Returns tt ->
  Dump.outcome_of (Dump.read_forever env args fuel w)
  = Dump.Raised Dump.KeyboardInterrupt
  <-> (Dump.interrupt env (S (Dump.step w)) = true
       \/ (Dump.duration args > 0
           /\ Dump.interrupt env (S (S (Dump.step w))) = true)).
Proof.
  intros Hopen.
  rewrite (read_forever_unfold env args fuel w Hopen). cbv zeta.
  cbn [Dump.outcome_of].
  destruct (with_body_shape env args fuel (Dump.tick w))
    as [[Hi ->]|[(Hi & Hd & Hi' & ->)
               |(Hi & stop_at & pre & w0 & Hcase & ->)]];
    cbn [Dump.outcome_of Dump.tick Dump.step] in *.
  - split; auto.
  - split; auto.
  - split.
    + destruct (Dump.outcome_of _) as [[]|[]|]; discriminate.
    + intros [Hi'|[Hd Hi']]; [congruence|].
      destruct Hcase as [(Hle & _)|(_ & Hi2 & _)]; [lia|congruence].
Qed.

(** [read_forever] with a duration: when the clock does not go back and
    reaches the stop time (the clock read after the opening line, plus
    the duration), the run comes to an end, and at most one [ser.read]
    starts at or after the stop time. *)
Theorem dump_stops_within_one_read_of_duration args n K w :
  Dump.duration args > 0 ->
  (forall i j, (i <= j)%nat ->
               Dump.monotonic env i <= Dump.monotonic env j) ->
  let stop := Dump.monotonic env (S (S (Dump.step w))) + Dump.duration args in
  stop <= Dump.monotonic env K ->
  (K <= Dump.step w + 3 + n)%nat ->
  let r := Dump.read_forever env args (S n) w in
  Dump.outcome_of r <> Dump.OutOfFuel
  /\ (List.length (filter (dump_late_read stop) (Dump.log_of r)) <= 1)%nat.
Proof.
  intros Hd Hmono stop HK Hle. cbv zeta.
  destruct (Dump.open_reply env) as [[]|e] eqn:Hopen.
  - rewrite (read_forever_unfold env args (S n) w Hopen). cbv zeta.
    cbn [Dump.outcome_of Dump.log_of].
    destruct (with_body_shape env args (S n) (Dump.tick w))
      as [[_ ->]|[(_ & _ & _ & ->)
                 |(_ & stop_at & pre & w0 & Hcase & ->)]];
      cbn [Dump.outcome_of Dump.log_of Dump.tick Dump.step] in *.
    + split; [discriminate|cbn; lia].
    + split; [discriminate|cbn; lia].
    + destruct Hcase as [(Hle0 & _)|(_ & _ & -> & -> & ->)]; [lia|].
      fold stop.
      pose proof (read_loop_some_stops env Hmono stop (Dump.chunk_size args)
                    K n (Dump.tick (Dump.tick (Dump.tick w))) HK
                    ltac:(cbn [Dump.step Dump.tick]; lia)) as Hstops.
      pose proof (read_loop_late_reads env Hmono stop (Dump.chunk_size args)
                    (S n) (Dump.tick (Dump.tick (Dump.tick w)))) as Hlate.
      split.
      * destruct (Dump.outcome_of _) as [[]|[]|]; congruence.
      * cbn [filter dump_late_read dump_is_read snd andb].
        rewrite filter_app.
        cbn [app filter dump_late_read dump_is_read snd andb].
        rewrite length_app.
        destruct (Dump.outcome_of _) as [[]|[]|];
          cbn [Datatypes.length filter dump_late_read dump_is_read snd andb];
          lia.
  - rewrite (read_forever_open_fails env args (S n) w e Hopen).
    split; [discriminate|cbn; lia].
Qed.

End DumpProperties.

Section DumpWitnesses.

Local Open Scope list_scope.

Lemma dump_without_duration_runs_on_witness :
  let r := Dump.read_forever dump_env (dump_args 0) 3 Dump.start in
  Dump.outcome_of r = Dump.OutOfFuel
  /\ List.length (filter dump_is_read (Dump.log_of r)) = 3%nat
  /\ filter dump_is_clock (Dump.log_of r) = []
  /\ filter dump_is_close (Dump.log_of r) = [].
Proof.
  apply (dump_without_duration_runs_on dump_env (dump_args 0) 3 Dump.start).
  - cbn. lia.
  - reflexivity.
  - intros k. reflexivity.
  - intros n. eexists. reflexivity.
Defined.

Lemma dump_link_closed_exactly_once_witness :
  Dump.outcome_of
    (Dump.read_forever (dump_env_interrupted 5) (dump_args 0) 10 Dump.start)
  = Dump.Done tt
  /\ exists pre t,
       Dump.log_of
         (Dump.read_forever (dump_env_interrupted 5) (dump_args 0) 10
                            Dump.start)
       = pre ++ [(t, Dump.EvClose)]
       /\ filter dump_is_close pre = [].
Proof.
  split; [vm_compute; reflexivity|].
  apply (dump_link_closed_exactly_once (dump_env_interrupted 5)
           (dump_args 0) 10 Dump.start).
  - reflexivity.
  - vm_compute. discriminate.
Defined.

Lemma dump_interrupt_escapes_only_before_loop_witness :
  Dump.outcome_of
    (Dump.read_forever (dump_env_interrupted 1) (dump_args 0) 2 Dump.start)
  = Dump.Raised Dump.KeyboardInterrupt
  <-> (Dump.interrupt (dump_env_interrupted 1) 1 = true
       \/ (Dump.duration (dump_args 0) > 0
           /\ Dump.interrupt (dump_env_interrupted 1) 2 = true)).
Proof.
  apply (dump_interrupt_escapes_only_before_loop (dump_env_interrupted 1)
           (dump_args 0) 2 Dump.start).
  reflexivity.
Defined.

Lemma dump_stops_within_one_read_of_duration_witness :
  let r := Dump.read_forever dump_env (dump_args 5) 11 Dump.start in
  Dump.outcome_of r <> Dump.OutOfFuel
  /\ (List.length (filter (dump_late_read 7) (Dump.log_of r)) <= 1)%nat.
Proof.
  apply (dump_stops_within_one_read_of_duration dump_env (dump_args 5)
           10 7 Dump.start).
  - cbn. lia.
  - intros i j Hij. cbn. lia.
  - cbn. lia.
  - cbn. lia.
Defined.

End DumpWitnesses.
